(** * go-esni: the binary codec of the ESNI Keys record

    A shallow embedding of the Go package [esni] (files [keys.go],
    [entry.go], [extension.go], [extensions.go], [versions.go]) and the
    properties of its marshal / unmarshal code.

    Conventions of the embedding:
    - a Go [byte], [uint16], [uint64] is a [Z] with the wrap-around of the
      Go conversion or operation written out ([uint16], [uint64], [int64]);
    - a Go [[]byte] is a [list byte]; [len] is [length]; positions of type
      [int] are [nat];
    - a Go function returning [error] returns a [res], whose third case is
      the run-time panic of an out-of-range index or slice expression;
    - a [*bytes.Buffer] and a [*bytes.Reader] are threaded as explicit state;
    - a pointer receiver that is mutated is returned next to the result. *)

From Stdlib Require Import ZArith List String Ascii Bool Lia.
From stdpp Require Import gmap.
Import ListNotations.
Open Scope Z_scope.

(** ** Go values *)

Definition byte := Z.
Definition bytes := list byte.

Definition uint8 (x : Z) : Z := x mod 256.
Definition uint16 (x : Z) : Z := x mod 65536.
Definition uint64 (x : Z) : Z := x mod 2 ^ 64.

(** [int64(x)] of a [uint64] value: the two's complement reading. *)
Definition int64 (x : Z) : Z :=
  let y := x mod 2 ^ 64 in if y <? 2 ^ 63 then y else y - 2 ^ 64.

Definition len {A : Type} (s : list A) : Z := Z.of_nat (length s).

(** [make([]byte, n)] *)
Definition make (n : nat) : bytes := repeat 0 n.

(** [copy(dst, src)]: the updated destination and the number of bytes
    copied, the smaller of the two lengths. *)
Definition copy (dst src : bytes) : bytes * nat :=
  let n := Nat.min (length dst) (length src) in
  (firstn n src ++ skipn n dst, n).

(** [copy(dst[pos:], src)] seen from [dst], for [pos <= len(dst)]: the
    sub-slice shares the backing array, so the bytes land in [dst]. *)
Definition copy_at (dst : bytes) (pos : nat) (src : bytes) : bytes * nat :=
  let '(tl, n) := copy (skipn pos dst) src in (firstn pos dst ++ tl, n).

(** ** Errors and results *)

(** The error values of the package: [errors.New], [errors.Wrap] and
    [errors.Wrapf] of github.com/pkg/errors, and the two sentinels of [io]
    that [binary.Read] and the readers return. *)
Inductive error : Type :=
| errors_New (msg : string)
| errors_Wrap (cause : error) (msg : string)
| errors_Wrapf (cause : error) (format : string) (arg : Z)
| io_EOF
| io_ErrUnexpectedEOF.

(** The outcome of a call: a value, a returned error, or a run-time panic. *)
Inductive res (A : Type) : Type :=
| Done (a : A)
| Fail (e : error)
| Panic.
Arguments Done {A} a.
Arguments Fail {A} e.
Arguments Panic {A}.

(** A computation over a state [S]: the outcome and the state left behind
    (the state is kept on failure too: Go does not roll back). *)
Definition M (S A : Type) : Type := S -> res A * S.

Definition ret {S A} (a : A) : M S A := fun s => (Done a, s).
Definition fail {S A} (e : error) : M S A := fun s => (Fail e, s).
Definition panic {S A} : M S A := fun s => (Panic, s).

Definition bind {S A B} (m : M S A) (k : A -> M S B) : M S B :=
  fun s => match m s with
           | (Done a, s') => k a s'
           | (Fail e, s') => (Fail e, s')
           | (Panic, s') => (Panic, s')
           end.

(** The outcome of a call that leaves the state alone. *)
Definition lift {S A} (r : res A) : M S A := fun s => (r, s).

(** [if err := m; err != nil { return errors.Wrap(err, msg) }] *)
Definition wrap {S A} (msg : string) (m : M S A) : M S A :=
  fun s => match m s with
           | (Fail e, s') => (Fail (errors_Wrap e msg), s')
           | r => r
           end.

(** [if err := m; err != nil { return errors.Wrapf(err, format, arg) }] *)
Definition wrapf {S A} (format : string) (arg : Z) (m : M S A) : M S A :=
  fun s => match m s with
           | (Fail e, s') => (Fail (errors_Wrapf e format arg), s')
           | r => r
           end.

Declare Scope go_scope.
Delimit Scope go_scope with go.
Notation "x <- m ;; k" := (bind m (fun x => k))
  (at level 100, m at next level, right associativity) : go_scope.
Notation "m ;;; k" := (bind m (fun _ => k))
  (at level 100, right associativity) : go_scope.

(** ** Slices and encoding/binary, big endian *)

(** [s[lo:]]: panics when [lo] is past the end. *)
Definition slice_from (s : bytes) (lo : nat) : res bytes :=
  if (lo <=? length s)%nat then Done (skipn lo s) else Panic.

(** [s[lo:hi]] of a slice whose capacity is its length. *)
Definition slice (s : bytes) (lo hi : nat) : res bytes :=
  if ((lo <=? hi) && (hi <=? length s))%nat
  then Done (firstn (hi - lo) (skipn lo s)) else Panic.

Definition be16 (v : Z) : bytes := [v / 256 mod 256; v mod 256].

Definition be64 (v : Z) : bytes :=
  [ v / 2 ^ 56 mod 256; v / 2 ^ 48 mod 256; v / 2 ^ 40 mod 256;
    v / 2 ^ 32 mod 256; v / 2 ^ 24 mod 256; v / 2 ^ 16 mod 256;
    v / 2 ^ 8 mod 256; v mod 256 ].

(** The big-endian value of a byte sequence, most significant byte first. *)
Fixpoint be_value (bs : bytes) (acc : Z) : Z :=
  match bs with
  | [] => acc
  | b :: bs' => be_value bs' (acc * 256 + b)
  end.

(** [binary.BigEndian.Uint16(b)]: reads [b[0]] and [b[1]], and panics on
    a slice of fewer than two bytes. *)
Definition Uint16 (b : bytes) : res Z :=
  match b with
  | hi :: lo :: _ => Done (hi * 256 + lo)
  | _ => Panic
  end.

(** [binary.BigEndian.PutUint16(data[pos:pos+2], v)], seen from [data]. *)
Definition PutUint16 (data : bytes) (pos : nat) (v : Z) : res bytes :=
  match slice data pos (pos + 2) with
  | Done _ => Done (fst (copy_at data pos (be16 v)))
  | Fail e => Fail e
  | Panic => Panic
  end.

(** ** crypto/sha256

    [sha256.Sum256] of the Go standard library, written from FIPS 180-4. *)
Module SHA256.

Definition mask32 : Z := 0xffffffff.
Definition add32 (x y : Z) : Z := (x + y) mod 2 ^ 32.
Definition rotr (n x : Z) : Z :=
  Z.lor (Z.shiftr x n) (Z.land (Z.shiftl x (32 - n)) mask32).
Definition shr (n x : Z) : Z := Z.shiftr x n.
Definition xor3 (x y z : Z) : Z := Z.lxor (Z.lxor x y) z.

Definition Ch (x y z : Z) : Z :=
  Z.lxor (Z.land x y) (Z.land (Z.lxor x mask32) z).
Definition Maj (x y z : Z) : Z :=
  xor3 (Z.land x y) (Z.land x z) (Z.land y z).
Definition bsig0 (x : Z) : Z := xor3 (rotr 2 x) (rotr 13 x) (rotr 22 x).
Definition bsig1 (x : Z) : Z := xor3 (rotr 6 x) (rotr 11 x) (rotr 25 x).
Definition ssig0 (x : Z) : Z := xor3 (rotr 7 x) (rotr 18 x) (shr 3 x).
Definition ssig1 (x : Z) : Z := xor3 (rotr 17 x) (rotr 19 x) (shr 10 x).

(** The round constants, four to a row. *)
Definition K : list Z :=
  [0x428a2f98; 0x71374491; 0xb5c0fbcf; 0xe9b5dba5]
  ++ [0x3956c25b; 0x59f111f1; 0x923f82a4; 0xab1c5ed5]
  ++ [0xd807aa98; 0x12835b01; 0x243185be; 0x550c7dc3]
  ++ [0x72be5d74; 0x80deb1fe; 0x9bdc06a7; 0xc19bf174]
  ++ [0xe49b69c1; 0xefbe4786; 0x0fc19dc6; 0x240ca1cc]
  ++ [0x2de92c6f; 0x4a7484aa; 0x5cb0a9dc; 0x76f988da]
  ++ [0x983e5152; 0xa831c66d; 0xb00327c8; 0xbf597fc7]
  ++ [0xc6e00bf3; 0xd5a79147; 0x06ca6351; 0x14292967]
  ++ [0x27b70a85; 0x2e1b2138; 0x4d2c6dfc; 0x53380d13]
  ++ [0x650a7354; 0x766a0abb; 0x81c2c92e; 0x92722c85]
  ++ [0xa2bfe8a1; 0xa81a664b; 0xc24b8b70; 0xc76c51a3]
  ++ [0xd192e819; 0xd6990624; 0xf40e3585; 0x106aa070]
  ++ [0x19a4c116; 0x1e376c08; 0x2748774c; 0x34b0bcb5]
  ++ [0x391c0cb3; 0x4ed8aa4a; 0x5b9cca4f; 0x682e6ff3]
  ++ [0x748f82ee; 0x78a5636f; 0x84c87814; 0x8cc70208]
  ++ [0x90befffa; 0xa4506ceb; 0xbef9a3f7; 0xc67178f2].

Record state : Type := mkState
  { ha : Z; hb : Z; hc : Z; hd : Z; he : Z; hf : Z; hg : Z; hh : Z }.

Definition H0 : state :=
  mkState 0x6a09e667 0xbb67ae85 0x3c6ef372 0xa54ff53a
          0x510e527f 0x9b05688c 0x1f83d9ab 0x5be0cd19.

(** The padded message: a 0x80 byte, zeros up to 56 modulo 64, and the
    bit length as 8 bytes. *)
Definition pad (msg : bytes) : bytes :=
  let n := len msg in
  msg ++ [0x80] ++ repeat 0 (Z.to_nat ((55 - n) mod 64))
      ++ be64 (uint64 (8 * n)).

(** The sixteen 32-bit words of a 64-byte block. *)
Fixpoint words (n : nat) (block : bytes) : list Z :=
  match n with
  | O => []
  | S n' => be_value (firstn 4 block) 0 :: words n' (skipn 4 block)
  end.

(** The message schedule, latest word first: [rev_w] holds W[t-1] .. W[0]. *)
Fixpoint schedule (n : nat) (rev_w : list Z) : list Z :=
  match n with
  | O => rev_w
  | S n' =>
      let w := add32 (add32 (ssig1 (nth 1 rev_w 0)) (nth 6 rev_w 0))
                     (add32 (ssig0 (nth 14 rev_w 0)) (nth 15 rev_w 0)) in
      schedule n' (w :: rev_w)
  end.

Definition round (s : state) (kw : Z * Z) : state :=
  let '(k, w) := kw in
  let t1 := add32 (add32 (add32 (hh s) (bsig1 (he s)))
                         (add32 (Ch (he s) (hf s) (hg s)) k)) w in
  let t2 := add32 (bsig0 (ha s)) (Maj (ha s) (hb s) (hc s)) in
  mkState (add32 t1 t2) (ha s) (hb s) (hc s)
          (add32 (hd s) t1) (he s) (hf s) (hg s).

Definition compress (s : state) (block : bytes) : state :=
  let w := rev (schedule 48 (rev (words 16 block))) in
  let r := fold_left round (combine K w) s in
  mkState (add32 (ha s) (ha r)) (add32 (hb s) (hb r))
          (add32 (hc s) (hc r)) (add32 (hd s) (hd r))
          (add32 (he s) (he r)) (add32 (hf s) (hf r))
          (add32 (hg s) (hg r)) (add32 (hh s) (hh r)).

Fixpoint blocks (n : nat) (s : state) (msg : bytes) : state :=
  match n with
  | O => s
  | S n' => blocks n' (compress s (firstn 64 msg)) (skipn 64 msg)
  end.

Definition PutUint32 (v : Z) : bytes :=
  [v / 2 ^ 24 mod 256; v / 2 ^ 16 mod 256; v / 2 ^ 8 mod 256; v mod 256].

Definition digest (s : state) : bytes :=
  PutUint32 (ha s) ++ PutUint32 (hb s) ++ PutUint32 (hc s)
    ++ PutUint32 (hd s) ++ PutUint32 (he s) ++ PutUint32 (hf s)
    ++ PutUint32 (hg s) ++ PutUint32 (hh s).

Definition Sum256 (msg : bytes) : bytes :=
  let p := pad msg in
  digest (blocks (Nat.div (length p) 64) H0 p).

End SHA256.

Definition bytes_of_string (s : string) : bytes :=
  map (fun c => Z.of_N (N_of_ascii c)) (list_ascii_of_string s).

Definition string_of_bytes (b : bytes) : string :=
  string_of_list_ascii (map (fun x => ascii_of_N (Z.to_N x)) b).

Fixpoint bytes_eqb (a b : bytes) : bool :=
  match a, b with
  | [], [] => true
  | x :: a', y :: b' => (x =? y) && bytes_eqb a' b'
  | _, _ => false
  end.

(** ** bytes.Buffer and bytes.Reader *)

(** The contents of a [bytes.Buffer]; writes append and never fail. *)
Definition Buffer := bytes.

(** [bytes.NewBuffer(buf)]: a buffer whose initial CONTENTS are [buf]. *)
Definition NewBuffer (buf : bytes) : Buffer := buf.

Definition Write (p : bytes) : M Buffer unit := fun buf => (Done tt, buf ++ p).
Definition WriteByte (c : byte) : M Buffer unit := Write [c].
Definition WriteString (s : string) : M Buffer unit := Write (bytes_of_string s).

(** [binary.Write(buf, binary.BigEndian, v)] for a value of 16 and of 64 bits. *)
Definition Write_uint16 (v : Z) : M Buffer unit := Write (be16 v).
Definition Write_uint64 (v : Z) : M Buffer unit := Write (be64 v).

(** The unread part of a [bytes.Reader]. *)
Definition Reader := bytes.

(** [reader.ReadByte()] *)
Definition ReadByte : M Reader byte :=
  fun r => match r with
           | [] => (Fail io_EOF, r)
           | c :: r' => (Done c, r')
           end.

(** [p := make([]byte, n); reader.Read(p)]: [io.EOF] on an exhausted
    reader, otherwise as many bytes as there are, the rest of [p] staying
    zero, and no error on a short read. *)
Definition Read (n : nat) : M Reader bytes :=
  fun r => match r with
           | [] => (Fail io_EOF, r)
           | _ => (Done (fst (copy (make n) r)), skipn n r)
           end.

(** [io.ReadFull(reader, p)] with [len(p) = n > 0], as [binary.Read] calls
    it: all [n] bytes or an error, the reader drained in the second case. *)
Definition ReadFull (n : nat) : M Reader bytes :=
  fun r => match r with
           | [] => (Fail io_EOF, r)
           | _ => if (length r <? n)%nat then (Fail io_ErrUnexpectedEOF, [])
                  else (Done (firstn n r), skipn n r)
           end.

(** [binary.Read(reader, binary.BigEndian, &v)] for [v] of 16 and 64 bits. *)
Definition Read_uint16 : M Reader Z :=
  (bs <- ReadFull 2 ;; ret (be_value bs 0))%go.
Definition Read_uint64 : M Reader Z :=
  (bs <- ReadFull 8 ;; ret (be_value bs 0))%go.

(** ** time *)

(** A [time.Time]: seconds since the Unix epoch and the nanoseconds within
    the second (the location is not modelled). *)
Record Time : Type := mkTime { sec : Z; nsec : Z }.

(** [t.Unix()] *)
Definition Time_Unix (t : Time) : Z := sec t.
(** [time.Unix(sec, 0)] *)
Definition time_Unix (s : Z) : Time := mkTime s 0.

(** ** versions.go *)

Definition Version : Type := Z.
Definition VersionDraft01 : Version := 0xff01.
Definition VersionDraft03 : Version := 0xff02.

(** ** entry.go *)

Definition Group : Type := Z.

Module KeyShareEntry.

Record t : Type := mk { Group : Z; KeyExchange : bytes }.

(** [KeyShareEntry{}] *)
Definition zero : t := mk 0 [].

(** [uint16(len(entry.KeyExchange)) + 4], in [uint16] arithmetic. *)
Definition Size (entry : t) : Z :=
  uint16 (uint16 (len (KeyExchange entry)) + 4).

Definition MarshalBinary (entry : t) : res bytes :=
  let data := make (Z.to_nat (Size entry)) in
  match PutUint16 data 0 (uint16 (Group entry)) with
  | Done data =>
      match PutUint16 data 2 (uint16 (len (KeyExchange entry))) with
      | Done data =>
          match slice_from data 4 with
          | Done _ => Done (fst (copy_at data 4 (KeyExchange entry)))
          | Fail e => Fail e
          | Panic => Panic
          end
      | Fail e => Fail e
      | Panic => Panic
      end
  | Fail e => Fail e
  | Panic => Panic
  end.

(** The receiver is a pointer: the entry as the call leaves it is
    returned with the outcome. *)
Definition UnmarshalBinary (entry : t) (data : bytes) : res unit * t :=
  if (length data <? 4)%nat then
    (Fail (errors_Wrap io_ErrUnexpectedEOF
             "buffer is too small for key share entry"), entry)
  else
    match Uint16 data, Uint16 (skipn 2 data) with
    | Done g, Done keyLen =>
        let entry := mk g (KeyExchange entry) in
        if len data <? keyLen + 4 then
          (Fail (errors_Wrap io_ErrUnexpectedEOF
                   "buffer is too small for key exchange"), entry)
        else
          (* data[4:keyLen+4], the upper bound in uint16 arithmetic *)
          match slice data 4 (Z.to_nat (uint16 (keyLen + 4))) with
          | Done src =>
              (Done tt,
               mk g (fst (copy (make (Z.to_nat keyLen)) src)))
          | Fail e => (Fail e, entry)
          | Panic => (Panic, entry)
          end
    | _, _ => (Panic, entry)
    end.

End KeyShareEntry.

Module KeyShareEntryList.

Definition t : Type := list KeyShareEntry.t.

Definition Size (list : t) : Z :=
  fold_left (fun size e => uint16 (size + KeyShareEntry.Size e)) list 0.

Definition Contains (list : t) (entry : KeyShareEntry.t) : bool :=
  existsb (fun e => KeyShareEntry.Group e =? KeyShareEntry.Group entry) list.

(** The loop body of [MarshalBinary] over the remaining entries: [data]
    is the output being filled and [pos] the write position. *)
Fixpoint marshal_loop (rest : t) (data : bytes) (pos : nat) : res bytes :=
  match rest with
  | [] => Done data
  | e :: rest' =>
      match KeyShareEntry.MarshalBinary e with
      | Done entry =>
          match slice_from data pos with
          | Done _ =>
              let '(data', n) := copy_at data pos entry in
              marshal_loop rest' data' (pos + n)
          | Fail err => Fail err
          | Panic => Panic
          end
      | Fail err => Fail (errors_Wrap err "marshal key share entry")
      | Panic => Panic
      end
  end.

Definition MarshalBinary (list : t) : res bytes :=
  marshal_loop list (make (Z.to_nat (Size list))) 0.

(** The loop of [UnmarshalBinary]; every round moves [pos] forward, so
    [fuel] rounds are enough when [fuel] exceeds [len(data)]; [None] is
    the loop cut short by [fuel]. *)
Fixpoint unmarshal_loop (fuel : nat) (data : bytes) (pos : nat) (list : t)
  : option (res unit * t) :=
  if (pos <? length data)%nat then
    match fuel with
    | O => None
    | S fuel' =>
        match KeyShareEntry.UnmarshalBinary KeyShareEntry.zero
                (skipn pos data) with
        | (Done _, entry) =>
            if Contains list entry then
              Some (Fail (errors_New "duplicate key share group"), list)
            else
              unmarshal_loop fuel' data
                (pos + Z.to_nat (KeyShareEntry.Size entry) + 1)
                (list ++ [entry])
        | (Fail err, _) =>
            Some (Fail (errors_Wrap err "unmarshal key share entry"), list)
        | (Panic, _) => Some (Panic, list)
        end
    end
  else Some (Done tt, list).

Definition UnmarshalBinary (list : t) (data : bytes) : res unit * t :=
  match unmarshal_loop (S (length data)) data 0 list with
  | Some r => r
  | None => (Panic, list)
  end.

End KeyShareEntryList.

(** ** extension.go *)

Definition ExtensionType : Type := Z.

Definition mandatoryExtensionMask : Z := 4096.

Definition ErrUnsupportedExtensionType : error :=
  errors_New "unsupported extension type".

(** [extType.Mandatory()] *)
Definition Mandatory (extType : ExtensionType) : bool :=
  Z.land (uint16 extType) mandatoryExtensionMask =? mandatoryExtensionMask.

(** The interface [Extension]: the methods the codec calls ([String] is
    only used for rendering). [UnmarshalBinary] has a pointer receiver and
    returns the receiver as the call leaves it. *)
Class Extension (E : Type) : Type := {
  ext_Type : E -> ExtensionType;
  ext_Size : E -> Z;
  ext_MarshalBinary : E -> res bytes;
  ext_UnmarshalBinary : E -> bytes -> res unit * E
}.

(** A value of interface type [Extension]: a concrete type with its
    method set and a value of it. *)
Record ExtensionValue : Type := PackExtension {
  ext_carrier : Type;
  ext_methods : Extension ext_carrier;
  ext_value : ext_carrier
}.
Arguments PackExtension {ext_carrier ext_methods} ext_value.

Definition ev_Type (e : ExtensionValue) : ExtensionType :=
  @ext_Type _ (ext_methods e) (ext_value e).
Definition ev_Size (e : ExtensionValue) : Z :=
  @ext_Size _ (ext_methods e) (ext_value e).
Definition ev_MarshalBinary (e : ExtensionValue) : res bytes :=
  @ext_MarshalBinary _ (ext_methods e) (ext_value e).
Definition ev_UnmarshalBinary (e : ExtensionValue) (data : bytes)
  : res unit * ExtensionValue :=
  let '(r, v) := @ext_UnmarshalBinary _ (ext_methods e) (ext_value e) data in
  (r, @PackExtension _ (ext_methods e) v).

(** The two package-level maps [ExtensionType_generator] and
    [ExtensionType_name]. *)
Record Registry : Type := mkRegistry {
  ExtensionType_generator : gmap Z (unit -> ExtensionValue);
  ExtensionType_name : gmap Z string
}.

Definition empty_registry : Registry := mkRegistry ∅ ∅.

Definition RegisterExtensionType (extType : ExtensionType) (name : string)
    (generator : unit -> ExtensionValue) : M Registry unit :=
  fun reg =>
    match ExtensionType_generator reg !! extType with
    | Some _ => (Panic, reg)
    | None =>
        (Done tt,
         mkRegistry (<[extType := generator]> (ExtensionType_generator reg))
                    (<[extType := name]> (ExtensionType_name reg)))
    end.

(** [extType.Generator()] *)
Definition Generator (reg : Registry) (extType : ExtensionType)
  : option (unit -> ExtensionValue) :=
  ExtensionType_generator reg !! extType.

Module ExtensionList.

Definition t : Type := list ExtensionValue.

Definition Size (list : t) : Z :=
  fold_left (fun size e => uint16 (uint16 (size + 2) + ev_Size e)) list 0.

(** The loop of [MarshalBinary] over the remaining extensions. *)
Fixpoint marshal_loop (rest : t) : M Buffer unit :=
  match rest with
  | [] => ret tt
  | e :: rest' =>
      (wrap "write extension type" (Write_uint16 (ev_Type e)) ;;;
       extData <- wrap "marshal extension" (lift (ev_MarshalBinary e)) ;;
       wrap "write extension data" (Write extData) ;;;
       marshal_loop rest')%go
  end.

Definition MarshalBinary (list : t) : res bytes :=
  let buffer := NewBuffer (make (Z.to_nat (Size list))) in
  match marshal_loop list buffer with
  | (Done _, buffer) => Done buffer
  | (Fail err, _) => Fail err
  | (Panic, _) => Panic
  end.

Section Unmarshal.
Variable reg : Registry.

Fixpoint unmarshal_loop (fuel : nat) (data : bytes) (pos : nat) (list : t)
  : option (res unit * t) :=
  if (pos <? length data)%nat then
    match fuel with
    | O => None
    | S fuel' =>
        match Uint16 (skipn pos data) with
        | Done extType =>
            match Generator reg extType with
            | None =>
                Some (Fail (errors_Wrapf ErrUnsupportedExtensionType
                              "extension_type(%d)" extType), list)
            | Some gen =>
                match slice_from data (pos + 2) with
                | Done rest =>
                    match ev_UnmarshalBinary (gen tt) rest with
                    | (Done _, ext) =>
                        unmarshal_loop fuel' data
                          (pos + Z.to_nat (ev_Size ext) + 2)
                          (list ++ [ext])
                    | (Fail err, _) =>
                        Some (Fail (errors_Wrap err "unmarshal extension"),
                              list)
                    | (Panic, _) => Some (Panic, list)
                    end
                | Fail err => Some (Fail err, list)
                | Panic => Some (Panic, list)
                end
            end
        | Fail err => Some (Fail err, list)
        | Panic => Some (Panic, list)
        end
    end
  else Some (Done tt, list).

Definition UnmarshalBinary (list : t) (data : bytes) : res unit * t :=
  match unmarshal_loop (S (length data)) data 0 list with
  | Some r => r
  | None => (Panic, list)
  end.
End Unmarshal.

End ExtensionList.

(** ** extensions.go *)

Definition ExtensionTypeAddressSet : ExtensionType := 0x1001.

(** [net.IP], a byte slice, and [ip.To4()] of the Go standard library:
    a 4-byte address is returned as it is, a 16-byte address with the
    prefix of an IPv4-mapped address gives its last four bytes, anything
    else gives [nil]. *)
Definition IP : Type := bytes.

Definition IPv4len : Z := 4.
Definition IPv6len : Z := 16.

Definition To4 (ip : IP) : option IP :=
  if (length ip =? 4)%nat then Some ip
  else if (length ip =? 16)%nat
          && forallb (Z.eqb 0) (firstn 10 ip)
          && (nth 10 ip 0 =? 0xff) && (nth 11 ip 0 =? 0xff)
       then Some (firstn 4 (skipn 12 ip))
       else None.

Module AddressSet.

Record t : Type := mk { Addresses : list IP }.

(** [new(AddressSet)] *)
Definition new : t := mk [].

Definition Type_ (_ : t) : ExtensionType := ExtensionTypeAddressSet.

Definition Size (set : t) : Z :=
  fold_left
    (fun size ip =>
       let size := uint16 (size + 1) in
       match To4 ip with
       | Some _ => uint16 (size + IPv4len)
       | None => uint16 (size + IPv6len)
       end)
    (Addresses set) 0.

Fixpoint marshal_loop (rest : list IP) : M Buffer unit :=
  match rest with
  | [] => ret tt
  | ip :: rest' =>
      (match To4 ip with
       | Some ipv4 => WriteByte 4 ;;; Write ipv4
       | None => WriteByte 6 ;;; Write ip
       end ;;;
       marshal_loop rest')%go
  end.

Definition MarshalBinary (set : t) : res bytes :=
  let data := NewBuffer (make (Z.to_nat (Size set))) in
  match marshal_loop (Addresses set) data with
  | (Done _, data) => Done data
  | (Fail err, _) => Fail err
  | (Panic, _) => Panic
  end.

Fixpoint unmarshal_loop (fuel : nat) (data : bytes) (pos : nat) (set : t)
  : option (res unit * t) :=
  if (pos <? length data)%nat then
    match fuel with
    | O => None
    | S fuel' =>
        let tag := nth pos data 0 in
        if tag =? 4 then
          let address := fst (copy (make (Z.to_nat IPv4len))
                                   (skipn (pos + 1) data)) in
          unmarshal_loop fuel' data (pos + Z.to_nat IPv4len + 1)
            (mk (Addresses set ++ [address]))
        else if tag =? 6 then
          let address := fst (copy (make (Z.to_nat IPv6len))
                                   (skipn (pos + 1) data)) in
          unmarshal_loop fuel' data (pos + Z.to_nat IPv6len + 1)
            (mk (Addresses set ++ [address]))
        else Some (Fail (errors_New "unsupported address type"), set)
    end
  else Some (Done tt, set).

Definition UnmarshalBinary (set : t) (data : bytes) : res unit * t :=
  match unmarshal_loop (S (length data)) data 0 set with
  | Some r => r
  | None => (Panic, set)
  end.

End AddressSet.

#[export] Instance AddressSet_Extension : Extension AddressSet.t := {
  ext_Type := AddressSet.Type_;
  ext_Size := AddressSet.Size;
  ext_MarshalBinary := AddressSet.MarshalBinary;
  ext_UnmarshalBinary := AddressSet.UnmarshalBinary
}.

(** [init()]: the registry once the package is loaded. *)
Definition init : M Registry unit :=
  RegisterExtensionType ExtensionTypeAddressSet "address_set"
    (fun _ => PackExtension AddressSet.new).

Definition package_registry : Registry := snd (init empty_registry).

(** ** keys.go *)

Definition CipherSuite : Type := Z.

Definition ErrChecksumMismatch : error :=
  errors_New "calculated checksum did not match received checksum".

Module Keys.

Record t : Type := mk {
  Version : Z;
  Checksum : bytes;
  PublicName : string;
  Keys : KeyShareEntryList.t;
  CipherSuites : list CipherSuite;
  PaddedLength : Z;
  NotBefore : Time;
  NotAfter : Time;
  Extensions : ExtensionList.t
}.

(** [new(Keys)]: the zero value, the checksum a [[4]byte] of zeros. *)
Definition new : t :=
  mk 0 [0; 0; 0; 0] EmptyString [] [] 0 (mkTime 0 0) (mkTime 0 0) [].

Definition set_Version (v : Z) (k : t) : t :=
  mk v (Checksum k) (PublicName k) (Keys k) (CipherSuites k)
     (PaddedLength k) (NotBefore k) (NotAfter k) (Extensions k).
Definition set_Checksum (c : bytes) (k : t) : t :=
  mk (Version k) c (PublicName k) (Keys k) (CipherSuites k)
     (PaddedLength k) (NotBefore k) (NotAfter k) (Extensions k).
Definition set_PublicName (n : string) (k : t) : t :=
  mk (Version k) (Checksum k) n (Keys k) (CipherSuites k)
     (PaddedLength k) (NotBefore k) (NotAfter k) (Extensions k).
Definition set_Keys (l : KeyShareEntryList.t) (k : t) : t :=
  mk (Version k) (Checksum k) (PublicName k) l (CipherSuites k)
     (PaddedLength k) (NotBefore k) (NotAfter k) (Extensions k).
Definition set_CipherSuites (l : list CipherSuite) (k : t) : t :=
  mk (Version k) (Checksum k) (PublicName k) (Keys k) l
     (PaddedLength k) (NotBefore k) (NotAfter k) (Extensions k).
Definition set_PaddedLength (p : Z) (k : t) : t :=
  mk (Version k) (Checksum k) (PublicName k) (Keys k) (CipherSuites k)
     p (NotBefore k) (NotAfter k) (Extensions k).
Definition set_Validity (nb na : Time) (k : t) : t :=
  mk (Version k) (Checksum k) (PublicName k) (Keys k) (CipherSuites k)
     (PaddedLength k) nb na (Extensions k).
Definition set_Extensions (l : ExtensionList.t) (k : t) : t :=
  mk (Version k) (Checksum k) (PublicName k) (Keys k) (CipherSuites k)
     (PaddedLength k) (NotBefore k) (NotAfter k) l.

(** *** Marshalling: the state is the [bytes.Buffer] being written *)

Definition marshalPublicName (keys : t) : M Buffer unit :=
  if Version keys <? VersionDraft03 then ret tt
  else if (String.length (PublicName keys) =? 0)%nat then
    fail (errors_New "public name is empty")
  else if (255 <? String.length (PublicName keys))%nat then
    fail (errors_New "public name is too large")
  else
    (wrap "write public name length"
       (WriteByte (uint8 (Z.of_nat (String.length (PublicName keys))))) ;;;
     wrap "write public name" (WriteString (PublicName keys)))%go.

Definition marshalKeyShareList (keys : t) : M Buffer unit :=
  if (length (Keys keys) =? 0)%nat then
    fail (errors_New "key share list is empty")
  else
    (wrap "write key share list size"
       (Write_uint16 (KeyShareEntryList.Size (Keys keys))) ;;;
     listData <- lift (KeyShareEntryList.MarshalBinary (Keys keys)) ;;
     wrap "write key share list" (Write listData))%go.

Fixpoint write_suites (suites : list CipherSuite) : M Buffer unit :=
  match suites with
  | [] => ret tt
  | suite :: rest =>
      (wrap "write cipher suite" (Write_uint16 suite) ;;;
       write_suites rest)%go
  end.

Definition marshalCipherSuites (keys : t) : M Buffer unit :=
  (wrap "write cipher suite list size"
     (Write_uint16 (uint16 (len (CipherSuites keys) * 2))) ;;;
   write_suites (CipherSuites keys))%go.

Definition marshalValidityPeriod (keys : t) : M Buffer unit :=
  (wrap "write not before"
     (Write_uint64 (uint64 (Time_Unix (NotBefore keys)))) ;;;
   wrap "write not after"
     (Write_uint64 (uint64 (Time_Unix (NotAfter keys)))))%go.

Definition marshalExtensions (keys : t) : M Buffer unit :=
  (wrap "write extensions list length"
     (Write_uint16 (ExtensionList.Size (Extensions keys))) ;;;
   if (length (Extensions keys) =? 0)%nat then ret tt
   else
     extsData <- lift (ExtensionList.MarshalBinary (Extensions keys)) ;;
     wrap "write extensions list" (Write extsData))%go.

(** Everything [MarshalBinary] writes before the checksum is computed. *)
Definition marshal_sections (keys : t) : M Buffer unit :=
  (wrap "write version" (Write_uint16 (Version keys)) ;;;
   wrap "write empty checksum" (Write [0; 0; 0; 0]) ;;;
   wrap "marshal public name" (marshalPublicName keys) ;;;
   wrap "marshal key share list" (marshalKeyShareList keys) ;;;
   wrap "marshal cipher suite list" (marshalCipherSuites keys) ;;;
   wrap "write padded length" (Write_uint16 (PaddedLength keys)) ;;;
   wrap "marshal validity period" (marshalValidityPeriod keys) ;;;
   wrap "marshal extensions list" (marshalExtensions keys))%go.

Definition MarshalBinary (keys : t) : res bytes :=
  match marshal_sections keys [] with
  | (Done _, final) =>
      let sum := SHA256.Sum256 final in
      match slice final 2 6 with
      | Done _ => Done (fst (copy_at final 2 (firstn 4 sum)))
      | Fail err => Fail err
      | Panic => Panic
      end
  | (Fail err, _) => Fail err
  | (Panic, _) => Panic
  end.

(** *** Unmarshalling: the state is the record behind the pointer
    receiver and the [bytes.Reader] *)

Definition st : Type := t * Reader.

Definition reading {A} (m : M Reader A) : M st A :=
  fun s => let '(x, r') := m (snd s) in (x, (fst s, r')).

Definition get : M st t := fun s => (Done (fst s), s).

Definition update (f : t -> t) : M st unit :=
  fun s => (Done tt, (f (fst s), snd s)).

Definition unmarshalPublicName : M st unit :=
  (keys <- get ;;
   if Version keys <? VersionDraft03 then ret tt
   else
     nameLength <- wrap "read length" (reading ReadByte) ;;
     if nameLength =? 0 then fail (errors_New "public name is empty")
     else
       name <- reading (Read (Z.to_nat nameLength)) ;;
       update (set_PublicName (string_of_bytes name)))%go.

Definition unmarshalKeyShareList : M st unit :=
  (listLen <- wrap "read key share list size" (reading Read_uint16) ;;
   if listLen =? 0 then fail (errors_New "key share list is empty")
   else
     data <- wrap "read key share list"
               (reading (Read (Z.to_nat listLen))) ;;
     fun s =>
       let '(r, list) := KeyShareEntryList.UnmarshalBinary [] data in
       (r, (set_Keys list (fst s), snd s)))%go.

(** The loop over [range keys.CipherSuites], [n] slots from index [i] on. *)
Fixpoint read_suites (n i : nat) : M st unit :=
  match n with
  | O => ret tt
  | S n' =>
      (suite <- wrapf "read cipher suite %d" (Z.of_nat i)
                  (reading Read_uint16) ;;
       keys <- get ;;
       update (set_CipherSuites (<[i := suite]> (CipherSuites keys))) ;;;
       read_suites n' (S i))%go
  end.

Definition unmarshalCipherSuites : M st unit :=
  (suitesLen <- wrap "read cipher suite list size" (reading Read_uint16) ;;
   if negb (suitesLen mod 2 =? 0) then
     fail (errors_New "invalid cipher suite list size")
   else
     update (set_CipherSuites (repeat 0 (Z.to_nat (suitesLen / 2)))) ;;;
     read_suites (Z.to_nat (suitesLen / 2)) 0)%go.

Definition unmarshalValidityPeriod : M st unit :=
  (notBefore <- wrap "read not before" (reading Read_uint64) ;;
   notAfter <- wrap "read not after" (reading Read_uint64) ;;
   update (set_Validity (time_Unix (int64 notBefore))
                        (time_Unix (int64 notAfter))))%go.

Section Unmarshal.
Variable reg : Registry.

Definition unmarshalExtensions : M st unit :=
  (extsLen <- wrap "read extensions list length" (reading Read_uint16) ;;
   if extsLen =? 0 then ret tt
   else
     extsData <- wrap "read extensions list"
                   (reading (Read (Z.to_nat extsLen))) ;;
     fun s =>
       let '(r, list) := ExtensionList.UnmarshalBinary reg [] extsData in
       (r, (set_Extensions list (fst s), snd s)))%go.

(** Everything [UnmarshalBinary] parses once the checksum matched. *)
Definition unmarshal_sections : M st unit :=
  (wrap "unmarshal public name" unmarshalPublicName ;;;
   wrap "unmarshal key share list" unmarshalKeyShareList ;;;
   wrap "unmarshal cipher suite list" unmarshalCipherSuites ;;;
   padded <- wrap "read padded length" (reading Read_uint16) ;;
   update (set_PaddedLength padded) ;;;
   wrap "unmarshal validity period" unmarshalValidityPeriod ;;;
   wrap "unmarshal extensions list" unmarshalExtensions)%go.

(** [keys.UnmarshalBinary(b)]: the outcome, the record behind the
    receiver, and the caller's slice [b] as the call leaves them. *)
Definition UnmarshalBinary (keys : t) (b : bytes) : res unit * t * bytes :=
  match Uint16 b with
  | Done v =>
      let keys := set_Version v keys in
      let keys := set_Checksum (fst (copy (Checksum keys) (skipn 2 b))) keys in
      let b := fst (copy_at b 2 [0; 0; 0; 0]) in
      let sum := SHA256.Sum256 b in
      if negb (bytes_eqb (Checksum keys) (firstn 4 sum)) then
        (Fail ErrChecksumMismatch, keys, b)
      else
        match slice_from b 6 with
        | Done reader =>
            let '(r, (keys, _)) := unmarshal_sections (keys, reader) in
            (r, keys, b)
        | Fail err => (Fail err, keys, b)
        | Panic => (Panic, keys, b)
        end
  | Fail err => (Fail err, keys, b)
  | Panic => (Panic, keys, b)
  end.
End Unmarshal.

End Keys.

(** [extType.String()], with the name table of the registry. *)
Definition ExtensionType_String (reg : Registry) (extType : ExtensionType)
  : string :=
  match ExtensionType_name reg !! extType with
  | Some name => name
  | None => "UNKNOWN"
  end.

(** * The vocabulary of the statements *)

(** ** What a marshalling step does to the buffer *)

Definition appends {A : Type} (m : M Buffer A) : Prop :=
  forall buf, m buf = (fst (m []), buf ++ snd (m [])).

Definition succeeds {A : Type} (m : M Buffer A) : Prop :=
  forall buf, exists a buf', m buf = (Done a, buf').

(** The sections that follow the key share list. *)
Definition sections_after_keys (keys : Keys.t) : M Buffer unit :=
  (wrap "marshal cipher suite list" (Keys.marshalCipherSuites keys) ;;;
   wrap "write padded length" (Write_uint16 (Keys.PaddedLength keys)) ;;;
   wrap "marshal validity period" (Keys.marshalValidityPeriod keys) ;;;
   wrap "marshal extensions list" (Keys.marshalExtensions keys))%go.

(** A record whose sections after the hostname can all be written. *)
Definition encodable_sections (keys : Keys.t) : Prop :=
  Keys.Keys keys <> []
  /\ Forall (fun e => len (KeyShareEntry.KeyExchange e) <= 65531)
       (Keys.Keys keys)
  /\ Forall (fun e => exists p, ev_MarshalBinary e = Done p)
       (Keys.Extensions keys).

(** A step of the decode that leaves the key share list of the record
    as it is. *)
Definition keeps_keys {A : Type} (m : M Keys.st A) : Prop :=
  forall s, Keys.Keys (fst (snd (m s))) = Keys.Keys (fst s).

(** The sections parsed after the key share list. *)
Definition unmarshal_after_keys (reg : Registry) : M Keys.st unit :=
  (wrap "unmarshal cipher suite list" Keys.unmarshalCipherSuites ;;;
   padded <- wrap "read padded length" (Keys.reading Read_uint16) ;;
   Keys.update (Keys.set_PaddedLength padded) ;;;
   wrap "unmarshal validity period" Keys.unmarshalValidityPeriod ;;;
   wrap "unmarshal extensions list" (Keys.unmarshalExtensions reg))%go.

(** The hostname of a record can be written: 1 to 255 bytes when the
    version has a hostname section. *)
Definition hostname_fits (r : Keys.t) : Prop :=
  VersionDraft03 <= Keys.Version r ->
  (1 <= String.length (Keys.PublicName r) <= 255)%nat.

(** ** Well-formed Address Set payloads *)

(** The wire form of an address of 4 or 16 bytes: the family tag, then
    the address. *)
Definition tagged (ip : IP) : bytes :=
  (if (length ip =? 4)%nat then 4 else 6) :: ip.

Definition address_length_ok (ip : IP) : Prop :=
  length ip = 4%nat \/ length ip = 16%nat.

(** ** The wire image of a record with one key share and no extension *)

Definition wire_name (r : Keys.t) : bytes :=
  if Keys.Version r <? VersionDraft03 then []
  else uint8 (Z.of_nat (String.length (Keys.PublicName r)))
       :: bytes_of_string (Keys.PublicName r).

Definition wire_entry (e : KeyShareEntry.t) : bytes :=
  be16 (uint16 (KeyShareEntry.Group e))
  ++ be16 (uint16 (len (KeyShareEntry.KeyExchange e)))
  ++ KeyShareEntry.KeyExchange e.

Definition wire_suites (r : Keys.t) : bytes :=
  be16 (uint16 (len (Keys.CipherSuites r) * 2))
  ++ concat (map be16 (Keys.CipherSuites r)).

Definition wire_tail (r : Keys.t) : bytes :=
  be16 (Keys.PaddedLength r)
  ++ be64 (uint64 (Time_Unix (Keys.NotBefore r)))
  ++ be64 (uint64 (Time_Unix (Keys.NotAfter r)))
  ++ [0; 0].

(** Everything after the six header bytes. *)
Definition wire_body (r : Keys.t) (e : KeyShareEntry.t) : bytes :=
  wire_name r
  ++ (be16 (KeyShareEntry.Size e) ++ wire_entry e)
  ++ wire_suites r ++ wire_tail r.

(** The records that round-trip: fields in the range of their Go types,
    a hostname exactly when the version has one, one key share whose key
    fits, whole seconds, no extension. *)
Record round_trip_class (r : Keys.t) (e : KeyShareEntry.t) : Prop := {
  rt_version : 0 <= Keys.Version r < 65536;
  rt_no_name :
    Keys.Version r < VersionDraft03 -> Keys.PublicName r = EmptyString;
  rt_name :
    VersionDraft03 <= Keys.Version r ->
    (1 <= String.length (Keys.PublicName r) <= 255)%nat;
  rt_keys : Keys.Keys r = [e];
  rt_group : 0 <= KeyShareEntry.Group e < 65536;
  rt_key : len (KeyShareEntry.KeyExchange e) <= 65531;
  rt_suites : Forall (fun s => 0 <= s < 65536) (Keys.CipherSuites r);
  rt_suites_len : len (Keys.CipherSuites r) * 2 < 65536;
  rt_padded : 0 <= Keys.PaddedLength r < 65536;
  rt_not_before :
    nsec (Keys.NotBefore r) = 0
    /\ - 2 ^ 63 <= sec (Keys.NotBefore r) < 2 ^ 63;
  rt_not_after :
    nsec (Keys.NotAfter r) = 0
    /\ - 2 ^ 63 <= sec (Keys.NotAfter r) < 2 ^ 63;
  rt_extensions : Keys.Extensions r = []
}.

(** The bytes the entries of a list take on the wire, summed in [nat]. *)
Definition wire_sizes (l : KeyShareEntryList.t) : nat :=
  fold_right (fun e n => (Z.to_nat (KeyShareEntry.Size e) + n)%nat) 0%nat l.

(** ** Sample records and their encodings *)

(** A draft-03 record with a hostname, one key share, two cipher suites
    and no extension, its checksum the one its encoding carries. *)
Definition record_one_key : Keys.t :=
  Keys.mk VersionDraft03 [229; 121; 189; 42] "example.com"
    [KeyShareEntry.mk 0x001d [0xaa; 0xbb]] [0x1301; 0x1302] 260
    (mkTime 1546300800 0) (mkTime 1577836800 0) [].

(** The same with a second key share, of another key type. *)
Definition record_two_keys : Keys.t :=
  Keys.mk VersionDraft03 [97; 18; 196; 199] "example.com"
    [KeyShareEntry.mk 0x001d [0xaa; 0xbb]; KeyShareEntry.mk 0x0017 [0xcc]]
    [0x1301] 260 (mkTime 1546300800 0) (mkTime 1577836800 0) [].

(** A draft-01 record with one key share and an Address Set extension. *)
Definition record_with_extension : Keys.t :=
  Keys.mk VersionDraft01 [247; 58; 192; 199] EmptyString
    [KeyShareEntry.mk 0x001d [0xaa; 0xbb]] [0x1301] 260
    (mkTime 1546300800 0) (mkTime 1577836800 0)
    [PackExtension (AddressSet.mk [[1; 2; 3; 4]])].

Definition wire_one_key : bytes :=
  [ 0xff; 0x02; 229; 121; 189; 42;
    11; 101; 120; 97; 109; 112; 108; 101; 46; 99; 111; 109;
    0; 6; 0; 29; 0; 2; 170; 187;
    0; 4; 0x13; 0x01; 0x13; 0x02;
    1; 4;
    0; 0; 0; 0; 92; 42; 173; 128; 0; 0; 0; 0; 94; 11; 225; 0;
    0; 0 ].

Definition wire_two_keys : bytes :=
  [ 0xff; 0x02; 97; 18; 196; 199;
    11; 101; 120; 97; 109; 112; 108; 101; 46; 99; 111; 109;
    0; 11; 0; 29; 0; 2; 170; 187; 0; 23; 0; 1; 204;
    0; 2; 0x13; 0x01;
    1; 4;
    0; 0; 0; 0; 92; 42; 173; 128; 0; 0; 0; 0; 94; 11; 225; 0;
    0; 0 ].

Definition wire_with_extension : bytes :=
  [ 0xff; 0x01; 247; 58; 192; 199;
    0; 6; 0; 29; 0; 2; 170; 187;
    0; 2; 0x13; 0x01;
    1; 4;
    0; 0; 0; 0; 92; 42; 173; 128; 0; 0; 0; 0; 94; 11; 225; 0;
    0; 7;
    0; 0; 0; 0; 0; 0; 0; 0x10; 0x01; 0; 0; 0; 0; 0; 4; 1; 2; 3; 4 ].

(** A draft-01 record that carries a hostname, and a draft-03 record
    that carries none. *)
Definition gating_old : Keys.t :=
  Keys.mk VersionDraft01 [0; 0; 0; 0] "example.com"
    [KeyShareEntry.mk 0x001d [0xaa; 0xbb]] [0x1301] 260
    (mkTime 1546300800 0) (mkTime 1577836800 0) [].

Definition gating_new : Keys.t :=
  Keys.mk VersionDraft03 [0; 0; 0; 0] EmptyString
    [KeyShareEntry.mk 0x001d [0xaa; 0xbb]] [0x1301] 260
    (mkTime 1546300800 0) (mkTime 1577836800 0) [].

(** ** Key share lists on the wire *)

(** An entry the entry codec handles: a key type of 16 bits and a key
    that leaves room for the 4 header bytes in a [uint16] size. *)
Definition entry_fits (e : KeyShareEntry.t) : Prop :=
  0 <= KeyShareEntry.Group e < 65536
  /\ len (KeyShareEntry.KeyExchange e) <= 65531.

(** The entries of [l], each followed by one more byte, [pad e]. *)
Definition spaced (pad : KeyShareEntry.t -> byte) (l : KeyShareEntryList.t)
  : bytes :=
  concat (map (fun e => wire_entry e ++ [pad e]) l).

(** ** Addresses as the Address Set codec sees them *)

(** The address [MarshalBinary] writes for [ip]: the 4-byte form when
    [To4] gives one. *)
Definition written_address (ip : IP) : IP :=
  match To4 ip with
  | Some ipv4 => ipv4
  | None => ip
  end.

(** An address of 4 bytes, or of 16 bytes that [To4] does not shorten. *)
Definition plain_address (ip : IP) : Prop :=
  length ip = 4%nat \/ (length ip = 16%nat /\ To4 ip = None).

(** * Properties of the codec *)

(** ** The digest: test vectors of FIPS 180-4 *)

Example Sum256_empty :
  firstn 4 (SHA256.Sum256 []) = [0xe3; 0xb0; 0xc4; 0x42].
Proof. vm_compute. reflexivity. Qed.

Example Sum256_two_blocks :
  firstn 4 (SHA256.Sum256 (repeat 0x61 70)) = [0x6b; 0xd5; 0xe5; 0x03].
Proof. vm_compute. reflexivity. Qed.

Example Sum256_abc :
  SHA256.Sum256 (bytes_of_string "abc") =
  [ 0xba; 0x78; 0x16; 0xbf; 0x8f; 0x01; 0xcf; 0xea;
    0x41; 0x41; 0x40; 0xde; 0x5d; 0xae; 0x22; 0x23;
    0xb0; 0x03; 0x61; 0xa3; 0x96; 0x17; 0x7a; 0x9c;
    0xb4; 0x10; 0xff; 0x61; 0xf2; 0x00; 0x15; 0xad ].
Proof. vm_compute. reflexivity. Qed.

(** ** Slices and copies *)

Lemma copy_length (dst src : bytes) :
  length (fst (copy dst src)) = length dst.
Proof.
  unfold copy; simpl.
  rewrite length_app, length_firstn, length_skipn. lia.
Qed.

Lemma copy_at_length (dst : bytes) (pos : nat) (src : bytes) :
  length (fst (copy_at dst pos src)) = length dst.
Proof.
  unfold copy_at.
  pose proof (copy_length (skipn pos dst) src) as H.
  destruct (copy (skipn pos dst) src) as [tl n]; simpl in *.
  rewrite length_app, H, length_firstn, length_skipn. lia.
Qed.

(** Copying into a fresh slice of at least the source's length gives the
    source followed by the zeros that were not overwritten. *)
Lemma copy_make (n : nat) (src : bytes) :
  (length src <= n)%nat ->
  fst (copy (make n) src) = src ++ repeat 0 (n - length src).
Proof.
  intros H. unfold copy, make; simpl.
  rewrite repeat_length, Nat.min_r by lia.
  rewrite firstn_all. f_equal.
  replace n with (length src + (n - length src))%nat at 1 by lia.
  rewrite repeat_app, skipn_app, repeat_length, Nat.sub_diag.
  rewrite skipn_all2 by (rewrite repeat_length; lia).
  reflexivity.
Qed.

Lemma copy_make_exact (src : bytes) :
  fst (copy (make (length src)) src) = src.
Proof.
  rewrite copy_make by lia. rewrite Nat.sub_diag. apply app_nil_r.
Qed.

(** Copying into a fresh slice shorter than the source keeps a prefix. *)
Lemma copy_make_long (n : nat) (src : bytes) :
  (n <= length src)%nat -> fst (copy (make n) src) = firstn n src.
Proof.
  intros H. unfold copy, make; simpl.
  rewrite repeat_length, Nat.min_l by lia.
  rewrite skipn_all2 by (rewrite repeat_length; lia).
  apply app_nil_r.
Qed.

Lemma len_cons {A : Type} (a : A) (l : list A) : len (a :: l) = len l + 1.
Proof. unfold len. cbn [length]. lia. Qed.

Lemma be16_value (v : Z) :
  0 <= v < 65536 -> v / 256 mod 256 * 256 + v mod 256 = v.
Proof.
  intros H. rewrite (Z.mod_small (v / 256)).
  - pose proof (Z.div_mod v 256). lia.
  - split; [apply Z.div_pos; lia | apply Z.div_lt_upper_bound; lia].
Qed.

(** ** The decode loops always end

    Every round of a decode loop moves the position forward, so the
    rounds allowed for an input, one more than its length, are never used
    up: the result of each [UnmarshalBinary] is the result of its loop. *)

Lemma KeyShareEntryList_unmarshal_loop_ends
    (fuel : nat) (data : bytes) (pos : nat) (l : KeyShareEntryList.t) :
  (length data < pos + fuel)%nat ->
  exists r, KeyShareEntryList.unmarshal_loop fuel data pos l = Some r.
Proof.
  revert pos l. induction fuel as [| fuel IH]; intros pos l Hfuel;
    cbn [KeyShareEntryList.unmarshal_loop];
    destruct (Nat.ltb_spec pos (length data)); try lia; eauto.
  destruct (KeyShareEntry.UnmarshalBinary _ _) as [[[] | err |] entry];
    eauto.
  destruct (KeyShareEntryList.Contains l entry); eauto.
  apply IH. lia.
Qed.

Lemma KeyShareEntryList_UnmarshalBinary_loop
    (l : KeyShareEntryList.t) (data : bytes) :
  KeyShareEntryList.unmarshal_loop (S (length data)) data 0 l
  = Some (KeyShareEntryList.UnmarshalBinary l data).
Proof.
  unfold KeyShareEntryList.UnmarshalBinary.
  destruct (KeyShareEntryList_unmarshal_loop_ends
              (S (length data)) data 0 l) as [r Hr]; [lia |].
  now rewrite Hr.
Qed.

Lemma AddressSet_unmarshal_loop_ends
    (fuel : nat) (data : bytes) (pos : nat) (set : AddressSet.t) :
  (length data < pos + fuel)%nat ->
  exists r, AddressSet.unmarshal_loop fuel data pos set = Some r.
Proof.
  revert pos set. induction fuel as [| fuel IH]; intros pos set Hfuel;
    cbn [AddressSet.unmarshal_loop];
    destruct (Nat.ltb_spec pos (length data)); try lia; eauto.
  destruct (nth pos data 0 =? 4); [apply IH; lia |].
  destruct (nth pos data 0 =? 6); [apply IH; lia |].
  eauto.
Qed.

Lemma AddressSet_UnmarshalBinary_loop (set : AddressSet.t) (data : bytes) :
  AddressSet.unmarshal_loop (S (length data)) data 0 set
  = Some (AddressSet.UnmarshalBinary set data).
Proof.
  unfold AddressSet.UnmarshalBinary.
  destruct (AddressSet_unmarshal_loop_ends
              (S (length data)) data 0 set) as [r Hr]; [lia |].
  now rewrite Hr.
Qed.

Lemma ExtensionList_unmarshal_loop_ends
    (reg : Registry) (fuel : nat) (data : bytes) (pos : nat)
    (l : ExtensionList.t) :
  (length data < pos + fuel)%nat ->
  exists r, ExtensionList.unmarshal_loop reg fuel data pos l = Some r.
Proof.
  revert pos l. induction fuel as [| fuel IH]; intros pos l Hfuel;
    cbn [ExtensionList.unmarshal_loop];
    destruct (Nat.ltb_spec pos (length data)); try lia; eauto.
  destruct (Uint16 _) as [extType | err |]; eauto.
  destruct (Generator reg extType) as [gen |]; eauto.
  destruct (slice_from data (pos + 2)) as [rest | err |]; eauto.
  destruct (ev_UnmarshalBinary (gen tt) rest) as [[[] | err |] ext]; eauto.
  apply IH. lia.
Qed.

Lemma ExtensionList_UnmarshalBinary_loop
    (reg : Registry) (l : ExtensionList.t) (data : bytes) :
  ExtensionList.unmarshal_loop reg (S (length data)) data 0 l
  = Some (ExtensionList.UnmarshalBinary reg l data).
Proof.
  unfold ExtensionList.UnmarshalBinary.
  destruct (ExtensionList_unmarshal_loop_ends reg
              (S (length data)) data 0 l) as [r Hr]; [lia |].
  now rewrite Hr.
Qed.

(** ** Key share entries *)

Lemma KeyShareEntry_Size_small (entry : KeyShareEntry.t) :
  len (KeyShareEntry.KeyExchange entry) <= 65531 ->
  KeyShareEntry.Size entry = len (KeyShareEntry.KeyExchange entry) + 4.
Proof.
  intros H. unfold KeyShareEntry.Size, uint16, len in *.
  rewrite (Z.mod_small (Z.of_nat _)) by lia.
  apply Z.mod_small. lia.
Qed.

Lemma PutUint16_at_0 (a b : byte) (l : bytes) (v : Z) :
  PutUint16 (a :: b :: l) 0 v = Done (be16 v ++ l).
Proof.
  unfold PutUint16, slice, copy_at, copy, be16.
  cbn [length skipn firstn Nat.leb andb Nat.add fst Nat.min app].
  rewrite Nat.min_0_r. reflexivity.
Qed.

Lemma PutUint16_at_2 (a b c d : byte) (l : bytes) (v : Z) :
  PutUint16 (a :: b :: c :: d :: l) 2 v = Done (a :: b :: be16 v ++ l).
Proof.
  unfold PutUint16, slice, copy_at, copy, be16.
  cbn [length skipn firstn Nat.leb andb Nat.add fst Nat.min app].
  rewrite Nat.min_0_r. reflexivity.
Qed.

Lemma copy_at_4 (a b c d : byte) (l src : bytes) :
  fst (copy_at (a :: b :: c :: d :: l) 4 src)
  = a :: b :: c :: d :: fst (copy l src).
Proof. reflexivity. Qed.

(** The bytes of an entry whose key fits: key type, key length, key. *)
Lemma KeyShareEntry_MarshalBinary_small (entry : KeyShareEntry.t) :
  len (KeyShareEntry.KeyExchange entry) <= 65531 ->
  KeyShareEntry.MarshalBinary entry =
  Done (be16 (uint16 (KeyShareEntry.Group entry))
        ++ be16 (uint16 (len (KeyShareEntry.KeyExchange entry)))
        ++ KeyShareEntry.KeyExchange entry).
Proof.
  intros H. unfold KeyShareEntry.MarshalBinary.
  rewrite KeyShareEntry_Size_small by assumption.
  destruct entry as [g key]; simpl KeyShareEntry.KeyExchange in *;
    simpl KeyShareEntry.Group.
  replace (Z.to_nat (len key + 4)) with (4 + length key)%nat
    by (unfold len; lia).
  change (make (4 + length key))
    with (0 :: 0 :: 0 :: 0 :: make (length key)).
  rewrite PutUint16_at_0.
  change (be16 (uint16 g) ++ 0 :: 0 :: make (length key))
    with (uint16 g / 256 mod 256 :: uint16 g mod 256
          :: 0 :: 0 :: make (length key)).
  rewrite PutUint16_at_2.
  change (be16 (uint16 (len key)) ++ make (length key))
    with (uint16 (len key) / 256 mod 256 :: uint16 (len key) mod 256
          :: make (length key)).
  rewrite copy_at_4, copy_make_exact.
  reflexivity.
Qed.

(** The entry codec round-trips for keys of at most 65531 bytes. *)
Lemma KeyShareEntry_roundtrip (entry : KeyShareEntry.t) :
  0 <= KeyShareEntry.Group entry < 65536 ->
  len (KeyShareEntry.KeyExchange entry) <= 65531 ->
  exists data,
    KeyShareEntry.MarshalBinary entry = Done data
    /\ KeyShareEntry.UnmarshalBinary KeyShareEntry.zero data = (Done tt, entry).
Proof.
  intros Hg Hn. eexists. split.
  { apply KeyShareEntry_MarshalBinary_small; assumption. }
  destruct entry as [g key]; simpl in *.
  unfold KeyShareEntry.UnmarshalBinary.
  cbn -[Z.div Z.modulo Z.mul Z.add len Z.ltb Z.to_nat slice copy make].
  assert (Hlen : 0 <= len key < 65536) by (unfold len in *; lia).
  assert (Hug : uint16 g = g) by (apply Z.mod_small; lia).
  assert (Hul : uint16 (len key) = len key) by (apply Z.mod_small; lia).
  rewrite Hug, Hul, !be16_value by lia.
  rewrite !len_cons.
  replace (len key + 1 + 1 + 1 + 1) with (len key + 4) by lia.
  rewrite Z.ltb_irrefl.
  replace (uint16 (len key + 4)) with (len key + 4)
    by (symmetry; apply Z.mod_small; lia).
  unfold slice. cbn [length].
  replace (Z.to_nat (len key + 4)) with (4 + length key)%nat
    by (unfold len; lia).
  replace ((4 <=? 4 + length key)%nat) with true
    by (symmetry; apply Nat.leb_le; lia).
  replace ((4 + length key <=? S (S (S (S (length key)))))%nat) with true
    by (symmetry; apply Nat.leb_le; lia).
  cbn [andb]. replace (4 + length key - 4)%nat with (length key) by lia.
  cbn [skipn]. rewrite firstn_all.
  replace (Z.to_nat (len key)) with (length key) by (unfold len; lia).
  rewrite copy_make_exact. reflexivity.
Qed.

(** C10: the entry codec does not round-trip for every key of at most
    65535 bytes. [Size] adds the 4 header bytes in [uint16] arithmetic, so
    for a key of 65532 to 65535 bytes it reports 0 to 3, the output slice
    is shorter than the header, and [MarshalBinary] panics on the slice
    expression that writes the header instead of returning the bytes.
    (Keys of at most 65531 bytes do round-trip: [KeyShareEntry_roundtrip].) *)
Theorem KeyShareEntry_MarshalBinary_long_key_panics (entry : KeyShareEntry.t) :
  65532 <= len (KeyShareEntry.KeyExchange entry) <= 65535 ->
  KeyShareEntry.Size entry = len (KeyShareEntry.KeyExchange entry) - 65532
  /\ KeyShareEntry.MarshalBinary entry = Panic.
Proof.
  intros H.
  assert (Hs : KeyShareEntry.Size entry
               = len (KeyShareEntry.KeyExchange entry) - 65532).
  { unfold KeyShareEntry.Size, uint16.
    rewrite (Z.mod_small (len _)) by lia.
    symmetry. apply (Z.mod_unique _ _ 1); lia. }
  split; [exact Hs |].
  unfold KeyShareEntry.MarshalBinary. rewrite Hs.
  assert (Hc : len (KeyShareEntry.KeyExchange entry) = 65532
               \/ len (KeyShareEntry.KeyExchange entry) = 65533
               \/ len (KeyShareEntry.KeyExchange entry) = 65534
               \/ len (KeyShareEntry.KeyExchange entry) = 65535) by lia.
  destruct Hc as [Hc | [Hc | [Hc | Hc]]]; rewrite Hc; reflexivity.
Qed.

Lemma KeyShareEntry_MarshalBinary_long_key_panics_witness :
  KeyShareEntry.Size (KeyShareEntry.mk 0x001d (repeat 0 (Z.to_nat 65535))) = 3
  /\ KeyShareEntry.MarshalBinary
       (KeyShareEntry.mk 0x001d (repeat 0 (Z.to_nat 65535))) = Panic.
Proof.
  apply (KeyShareEntry_MarshalBinary_long_key_panics
           (KeyShareEntry.mk 0x001d (repeat 0 (Z.to_nat 65535)))).
  unfold len. cbn [KeyShareEntry.KeyExchange].
  rewrite repeat_length. lia.
Defined.

(** ** Key share lists *)

(** C4: a stream of two well-formed entries of the same key type is not
    rejected as a duplicate. After an entry the read position moves by the
    entry's size plus one, so the second entry is read one byte late: on
    the first stream below the decode fails, but with the truncation error
    of a misread length; on the second (the encoding of [dup_a; dup_b],
    both of key type 0x0017) it succeeds and returns three entries. *)
Theorem KeyShareEntryList_duplicate_not_detected :
  KeyShareEntryList.UnmarshalBinary []
    [0; 0x1d; 0; 1; 0xaa; 0; 0x1d; 0; 1; 0xbb]
  = (Fail (errors_Wrap
             (errors_Wrap io_ErrUnexpectedEOF
                "buffer is too small for key exchange")
             "unmarshal key share entry"),
     [KeyShareEntry.mk 0x1d [0xaa]])
  /\ (let dup_a := KeyShareEntry.mk 0x0017 [] in
      let dup_b := KeyShareEntry.mk 0x0017
                     ([0; 0; 0; 0x18; 0; 0xfa] ++ repeat 0xee 250) in
      exists data,
        KeyShareEntryList.MarshalBinary [dup_a; dup_b] = Done data
        /\ length data = 264%nat
        /\ KeyShareEntryList.UnmarshalBinary [] data
           = (Done tt,
              [ KeyShareEntry.mk 0x0017 [];
                KeyShareEntry.mk 0x1701 [];
                KeyShareEntry.mk 0x0018 (repeat 0xee 250) ])).
Proof.
  split; [vm_compute; reflexivity |].
  eexists. split; [vm_compute; reflexivity |].
  split; vm_compute; reflexivity.
Qed.

(** ** The Address Set extension *)

(** What [AddressSet.MarshalBinary] returns for every set: [Size()] zero
    bytes, then every address behind its family tag. *)
Lemma AddressSet_marshal_loop_bytes (ips : list IP) (buf : Buffer) :
  AddressSet.marshal_loop ips buf
  = (Done tt,
     buf ++ concat (map (fun ip => match To4 ip with
                                   | Some ipv4 => 4 :: ipv4
                                   | None => 6 :: ip
                                   end) ips)).
Proof.
  revert buf. induction ips as [| ip ips IH]; intros buf.
  - cbn. unfold ret. now rewrite app_nil_r.
  - cbn [AddressSet.marshal_loop map concat].
    unfold bind at 1.
    destruct (To4 ip) as [ipv4 |];
      unfold bind at 1, WriteByte, Write;
      rewrite IH, <- !app_assoc; reflexivity.
Qed.

Lemma AddressSet_MarshalBinary_bytes (set : AddressSet.t) :
  AddressSet.MarshalBinary set
  = Done (make (Z.to_nat (AddressSet.Size set))
          ++ concat (map (fun ip => match To4 ip with
                                    | Some ipv4 => 4 :: ipv4
                                    | None => 6 :: ip
                                    end) (AddressSet.Addresses set))).
Proof.
  unfold AddressSet.MarshalBinary.
  now rewrite AddressSet_marshal_loop_bytes.
Qed.

(** C3: the literal case. Decoding the 22 bytes gives the two addresses in
    order, but encoding the two addresses gives 44 bytes: the buffer is
    created with [Size()] zero bytes as its contents and the tagged
    addresses are appended after them. *)
Theorem AddressSet_literal_case :
  let v4 := [1; 2; 3; 4] in
  let v6 := [0; 0; 0; 0; 0; 0; 0; 0; 0; 0; 0; 0; 0; 0; 0; 1] in
  let wire := [4; 1; 2; 3; 4; 6] ++ repeat 0 15 ++ [1] in
  AddressSet.Size (AddressSet.mk [v4; v6]) = 22
  /\ AddressSet.MarshalBinary (AddressSet.mk [v4; v6])
     = Done (repeat 0 22 ++ wire)
  /\ AddressSet.MarshalBinary
       (AddressSet.mk [[0; 0; 0; 0; 0; 0; 0; 0; 0; 0; 0xff; 0xff; 1; 2; 3; 4];
                       v6])
     = Done (repeat 0 22 ++ wire)
  /\ AddressSet.UnmarshalBinary AddressSet.new wire
     = (Done tt, AddressSet.mk [v4; v6]).
Proof. repeat split; vm_compute; reflexivity. Qed.

(** ** Extension lists *)

Lemma ExtensionList_marshal_loop_bytes
    (exts : ExtensionList.t) (payloads : list bytes) (buf : Buffer) :
  Forall2 (fun e p => ev_MarshalBinary e = Done p) exts payloads ->
  ExtensionList.marshal_loop exts buf
  = (Done tt,
     buf ++ concat (map (fun ep => be16 (ev_Type (fst ep)) ++ snd ep)
                        (combine exts payloads))).
Proof.
  intros H. revert buf.
  induction H as [| e p exts payloads Hp _ IH]; intros buf.
  - cbn. now rewrite app_nil_r.
  - cbn [ExtensionList.marshal_loop combine map concat fst snd].
    unfold bind at 1, wrap at 1, Write_uint16, Write at 1.
    unfold bind at 1, wrap at 1, lift. rewrite Hp.
    unfold bind at 1, wrap at 1, Write at 1.
    rewrite IH, <- !app_assoc. reflexivity.
Qed.

(** C2: the bytes of an extension list are not the tagged payloads alone.
    For every list whose extensions marshal (to [payloads]), the encode
    returns [Size()] zero bytes, the initial contents of its buffer,
    followed by each type identifier with its payload: the sequence the
    claim describes comes after a run of zeros as long as the value
    written for the length prefix. *)
Theorem ExtensionList_MarshalBinary_leading_zeros
    (exts : ExtensionList.t) (payloads : list bytes) :
  Forall2 (fun e p => ev_MarshalBinary e = Done p) exts payloads ->
  ExtensionList.MarshalBinary exts
  = Done (make (Z.to_nat (ExtensionList.Size exts))
          ++ concat (map (fun ep => be16 (ev_Type (fst ep)) ++ snd ep)
                         (combine exts payloads))).
Proof.
  intros H. unfold ExtensionList.MarshalBinary.
  now rewrite (ExtensionList_marshal_loop_bytes exts payloads _ H).
Qed.

(** For one empty Address Set the bytes are 00 00 10 01 and the prefix
    is 2; for the Address Set of 1.2.3.4 the payload has 10 bytes, the
    list 19, and the prefix is 7. *)
Lemma ExtensionList_MarshalBinary_leading_zeros_witness :
  ExtensionList.MarshalBinary [PackExtension AddressSet.new]
  = Done [0; 0; 0x10; 0x01]
  /\ ExtensionList.Size [PackExtension AddressSet.new] = 2
  /\ (let ext := PackExtension (AddressSet.mk [[1; 2; 3; 4]]) in
      ev_MarshalBinary ext = Done [0; 0; 0; 0; 0; 4; 1; 2; 3; 4]
      /\ ExtensionList.MarshalBinary [ext]
         = Done (repeat 0 7 ++ [0x10; 0x01]
                 ++ [0; 0; 0; 0; 0; 4; 1; 2; 3; 4])
      /\ ExtensionList.Size [ext] = 7).
Proof.
  split.
  - refine (eq_trans
              (ExtensionList_MarshalBinary_leading_zeros
                 [@PackExtension _ AddressSet_Extension AddressSet.new]
                 [[]] _) _);
      [repeat constructor | reflexivity].
  - split; [reflexivity |].
    cbv zeta. split; [reflexivity |]. split; [| reflexivity].
    refine (eq_trans
              (ExtensionList_MarshalBinary_leading_zeros
                 [@PackExtension _ AddressSet_Extension
                    (AddressSet.mk [[1; 2; 3; 4]])]
                 [[0; 0; 0; 0; 0; 4; 1; 2; 3; 4]] _) _);
      [repeat constructor | reflexivity].
Defined.

(** ** The cipher suite list *)

(** C8: when the two-byte length prefix of the cipher suite list is odd,
    the decode fails with the invalid-size error; the reader has moved past
    the two prefix bytes only (no suite identifier was read) and the record
    is as it was. *)
Theorem unmarshalCipherSuites_odd_length
    (keys : Keys.t) (hi lo : byte) (rest : bytes) :
  (hi * 256 + lo) mod 2 = 1 ->
  Keys.unmarshalCipherSuites (keys, hi :: lo :: rest)
  = (Fail (errors_New "invalid cipher suite list size"), (keys, rest)).
Proof.
  intros Hodd.
  unfold Keys.unmarshalCipherSuites, bind, wrap, Keys.reading, Read_uint16,
    bind, ReadFull, ret, fail.
  cbn [snd fst length Nat.ltb Nat.leb firstn skipn be_value].
  change (firstn 0 rest) with (@nil byte). change (skipn 0 rest) with rest.
  cbn [be_value].
  replace ((0 * 256 + hi) * 256 + lo) with (hi * 256 + lo) by lia.
  rewrite Hodd. reflexivity.
Qed.

Lemma unmarshalCipherSuites_odd_length_witness :
  Keys.unmarshalCipherSuites (Keys.new, [0x00; 0x05; 0x13; 0x01; 0x13])
  = (Fail (errors_New "invalid cipher suite list size"),
     (Keys.new, [0x13; 0x01; 0x13])).
Proof.
  apply (unmarshalCipherSuites_odd_length Keys.new 0x00 0x05
           [0x13; 0x01; 0x13]).
  reflexivity.
Defined.

(** ** The record: short buffers and the caller's buffer *)

Lemma Sum256_length (msg : bytes) : length (SHA256.Sum256 msg) = 32%nat.
Proof. reflexivity. Qed.

(** C5: a buffer shorter than the 6-byte header is not always answered
    with an error. With fewer than 2 bytes the first read of the version
    indexes past the end and the call panics; with 2 to 5 bytes the call
    returns the checksum error, or panics on [b[6:]] should the checksum
    match. *)
Theorem Keys_UnmarshalBinary_short_buffer
    (reg : Registry) (keys : Keys.t) (b : bytes) :
  (length b < 6)%nat ->
  ((length b < 2)%nat ->
   Keys.UnmarshalBinary reg keys b = (Panic, keys, b))
  /\ ((2 <= length b)%nat ->
      fst (fst (Keys.UnmarshalBinary reg keys b)) = Fail ErrChecksumMismatch
      \/ fst (fst (Keys.UnmarshalBinary reg keys b)) = Panic).
Proof.
  intros Hlen. split.
  - intros H2. destruct b as [| x [| y b]]; [reflexivity | reflexivity |].
    simpl in H2. lia.
  - intros H2. destruct b as [| x [| y b]]; [simpl in H2; lia .. |].
    unfold Keys.UnmarshalBinary. cbn [Uint16].
    match goal with
    | |- context [if ?c then _ else _] => destruct c
    end; [left; reflexivity | right].
    unfold slice_from. rewrite copy_at_length.
    replace ((6 <=? length (x :: y :: b))%nat) with false
      by (symmetry; apply Nat.leb_gt; lia).
    reflexivity.
Qed.

Lemma Keys_UnmarshalBinary_short_buffer_witness :
  Keys.UnmarshalBinary package_registry Keys.new []
  = (Panic, Keys.new, []).
Proof.
  apply (proj1 (Keys_UnmarshalBinary_short_buffer package_registry Keys.new []
                  ltac:(simpl; lia))).
  simpl; lia.
Defined.

Lemma zero_checksum_bytes (rest : bytes) :
  fst (copy rest [0; 0; 0; 0])
  = repeat 0 (Nat.min 4 (length rest)) ++ skipn 4 rest.
Proof.
  destruct rest as [| a [| b [| c [| d rest]]]]; try reflexivity.
  unfold copy. cbn [length Nat.min fst firstn skipn repeat app].
  rewrite Nat.min_0_r. reflexivity.
Qed.

(** C6: as the code has it, the decode writes into the caller's buffer.
    A buffer of at least 2 bytes comes back with the bytes at offsets 2 to
    5 (those it has) set to zero and every other byte as it was; a shorter
    buffer comes back unchanged. *)
Theorem Keys_UnmarshalBinary_buffer_after
    (reg : Registry) (keys : Keys.t) (b : bytes) :
  snd (Keys.UnmarshalBinary reg keys b)
  = if (length b <? 2)%nat then b
    else firstn 2 b ++ repeat 0 (Nat.min 4 (length b - 2)) ++ skipn 6 b.
Proof.
  destruct b as [| x [| y rest]]; [reflexivity | reflexivity |].
  assert (Hz : fst (copy_at (x :: y :: rest) 2 [0; 0; 0; 0])
               = x :: y :: repeat 0 (Nat.min 4 (length rest))
                        ++ skipn 4 rest).
  { unfold copy_at.
    change (skipn 2 (x :: y :: rest)) with rest.
    change (firstn 2 (x :: y :: rest)) with [x; y].
    pose proof (zero_checksum_bytes rest) as H.
    destruct (copy rest [0; 0; 0; 0]) as [tl n]. simpl in H. subst tl.
    reflexivity. }
  unfold Keys.UnmarshalBinary. cbn [Uint16].
  cbn [length Nat.ltb Nat.leb Nat.sub firstn skipn app].
  rewrite Nat.sub_0_r.
  match goal with
  | |- context [if ?c then _ else _] => destruct c
  end; [cbn [snd]; exact Hz |].
  destruct (slice_from _ 6); [| cbn [snd]; exact Hz ..].
  match goal with
  | |- context [Keys.unmarshal_sections ?r ?s] =>
      destruct (Keys.unmarshal_sections r s) as [r' [k' rd']]
  end.
  cbn [snd]. exact Hz.
Qed.

(** C6: the claim as stated fails, decoding a valid record succeeds and
    leaves the caller's buffer with its checksum bytes zeroed. *)
Lemma Keys_UnmarshalBinary_overwrites_caller_buffer :
  let after :=
    snd (Keys.UnmarshalBinary package_registry Keys.new wire_one_key) in
  Keys.MarshalBinary record_one_key = Done wire_one_key
  /\ fst (Keys.UnmarshalBinary package_registry Keys.new wire_one_key)
     = (Done tt, record_one_key)
  /\ firstn 6 wire_one_key = [0xff; 0x02; 229; 121; 189; 42]
  /\ firstn 6 after = [0xff; 0x02; 0; 0; 0; 0]
  /\ after <> wire_one_key.
Proof.
  repeat split; try (vm_compute; reflexivity).
  vm_compute. discriminate.
Qed.

(** ** Marshalling steps only append to the buffer *)

Lemma appends_ret {A : Type} (a : A) : appends (ret a).
Proof. intros buf. unfold ret. cbn. now rewrite app_nil_r. Qed.

Lemma appends_fail {A : Type} (e : error) : appends (@fail Buffer A e).
Proof. intros buf. unfold fail. cbn. now rewrite app_nil_r. Qed.

Lemma appends_lift {A : Type} (r : res A) : appends (lift r).
Proof. intros buf. unfold lift. cbn. now rewrite app_nil_r. Qed.

Lemma appends_Write (p : bytes) : appends (Write p).
Proof. intros buf. reflexivity. Qed.

Lemma appends_wrap {A : Type} (msg : string) (m : M Buffer A) :
  appends m -> appends (wrap msg m).
Proof.
  intros H buf. unfold wrap. rewrite (H buf).
  destruct (m []) as [r out]. destruct r; reflexivity.
Qed.

Lemma appends_bind {A B : Type} (m : M Buffer A) (k : A -> M Buffer B) :
  appends m -> (forall a, appends (k a)) -> appends (bind m k).
Proof.
  intros Hm Hk buf. unfold bind. rewrite (Hm buf).
  destruct (m []) as [r out]. destruct r as [a | e |]; cbn [fst snd].
  - rewrite (Hk a (buf ++ out)), (Hk a out). cbn [fst snd].
    now rewrite app_assoc.
  - reflexivity.
  - reflexivity.
Qed.

Ltac appends_step :=
  lazymatch goal with
  | |- appends (ret _) => apply appends_ret
  | |- appends (fail _) => apply appends_fail
  | |- appends (lift _) => apply appends_lift
  | |- appends (Write _) => apply appends_Write
  | |- appends (WriteByte _) => apply appends_Write
  | |- appends (WriteString _) => apply appends_Write
  | |- appends (Write_uint16 _) => apply appends_Write
  | |- appends (Write_uint64 _) => apply appends_Write
  | |- appends (wrap _ _) => apply appends_wrap
  | |- appends (bind _ _) => apply appends_bind
  | |- appends (if ?c then _ else _) => destruct c
  | |- forall _, _ => intro
  end.

Lemma appends_write_suites (suites : list CipherSuite) :
  appends (Keys.write_suites suites).
Proof.
  induction suites as [| suite rest IH]; cbn [Keys.write_suites].
  - apply appends_ret.
  - repeat appends_step. exact IH.
Qed.

Lemma appends_ExtensionList_marshal_loop (list : ExtensionList.t) :
  appends (ExtensionList.marshal_loop list).
Proof.
  induction list as [| e rest IH]; cbn [ExtensionList.marshal_loop].
  - apply appends_ret.
  - repeat appends_step. exact IH.
Qed.

Lemma appends_marshalPublicName (keys : Keys.t) :
  appends (Keys.marshalPublicName keys).
Proof. unfold Keys.marshalPublicName. repeat appends_step. Qed.

Lemma appends_marshalKeyShareList (keys : Keys.t) :
  appends (Keys.marshalKeyShareList keys).
Proof. unfold Keys.marshalKeyShareList. repeat appends_step. Qed.

Lemma appends_marshalCipherSuites (keys : Keys.t) :
  appends (Keys.marshalCipherSuites keys).
Proof.
  unfold Keys.marshalCipherSuites. repeat appends_step.
  apply appends_write_suites.
Qed.

Lemma appends_marshalValidityPeriod (keys : Keys.t) :
  appends (Keys.marshalValidityPeriod keys).
Proof. unfold Keys.marshalValidityPeriod. repeat appends_step. Qed.

Lemma appends_marshalExtensions (keys : Keys.t) :
  appends (Keys.marshalExtensions keys).
Proof. unfold Keys.marshalExtensions. repeat appends_step. Qed.

Lemma appends_sections_after_keys (keys : Keys.t) :
  appends (sections_after_keys keys).
Proof.
  unfold sections_after_keys.
  repeat first
    [ apply appends_marshalCipherSuites | apply appends_marshalValidityPeriod
    | apply appends_marshalExtensions | appends_step ].
Qed.

(** ** Marshalling steps that cannot fail *)

Lemma succeeds_ret {A : Type} (a : A) : succeeds (ret a).
Proof. intros buf. now exists a, buf. Qed.

Lemma succeeds_lift {A : Type} (a : A) : succeeds (lift (Done a)).
Proof. intros buf. now exists a, buf. Qed.

Lemma succeeds_Write (p : bytes) : succeeds (Write p).
Proof. intros buf. now exists tt, (buf ++ p). Qed.

Lemma succeeds_wrap {A : Type} (msg : string) (m : M Buffer A) :
  succeeds m -> succeeds (wrap msg m).
Proof.
  intros H buf. destruct (H buf) as (a & buf' & E).
  exists a, buf'. unfold wrap. now rewrite E.
Qed.

Lemma succeeds_bind {A B : Type} (m : M Buffer A) (k : A -> M Buffer B) :
  succeeds m -> (forall a, succeeds (k a)) -> succeeds (bind m k).
Proof.
  intros Hm Hk buf. destruct (Hm buf) as (a & buf' & E).
  destruct (Hk a buf') as (b & buf'' & E').
  exists b, buf''. unfold bind. now rewrite E.
Qed.

Ltac succeeds_step :=
  lazymatch goal with
  | |- succeeds (ret _) => apply succeeds_ret
  | |- succeeds (lift (Done _)) => apply succeeds_lift
  | |- succeeds (Write _) => apply succeeds_Write
  | |- succeeds (WriteByte _) => apply succeeds_Write
  | |- succeeds (WriteString _) => apply succeeds_Write
  | |- succeeds (Write_uint16 _) => apply succeeds_Write
  | |- succeeds (Write_uint64 _) => apply succeeds_Write
  | |- succeeds (wrap _ _) => apply succeeds_wrap
  | |- succeeds (bind _ _) => apply succeeds_bind
  | |- forall _, _ => intro
  end.

(** The key share list is marshalled without a panic whenever every entry
    is: the write position never passes the end of the output. *)
Lemma KeyShareEntryList_marshal_loop_total
    (rest : KeyShareEntryList.t) (data : bytes) (pos : nat) :
  Forall (fun e => len (KeyShareEntry.KeyExchange e) <= 65531) rest ->
  (pos <= length data)%nat ->
  exists out, KeyShareEntryList.marshal_loop rest data pos = Done out.
Proof.
  intros Hall. revert data pos.
  induction Hall as [| e rest He _ IH]; intros data pos Hpos.
  - now exists data.
  - cbn [KeyShareEntryList.marshal_loop].
    rewrite (KeyShareEntry_MarshalBinary_small e He).
    unfold slice_from.
    replace ((pos <=? length data)%nat) with true
      by (symmetry; apply Nat.leb_le; exact Hpos).
    pose proof (copy_at_length data pos
                  (be16 (uint16 (KeyShareEntry.Group e))
                   ++ be16 (uint16 (len (KeyShareEntry.KeyExchange e)))
                   ++ KeyShareEntry.KeyExchange e)) as Hl.
    unfold copy_at in *. unfold copy in *. cbn [fst] in Hl.
    cbv zeta in *. cbn [fst] in Hl.
    apply IH. rewrite Hl, length_skipn. lia.
Qed.

Lemma KeyShareEntryList_MarshalBinary_total (list : KeyShareEntryList.t) :
  Forall (fun e => len (KeyShareEntry.KeyExchange e) <= 65531) list ->
  exists out, KeyShareEntryList.MarshalBinary list = Done out.
Proof.
  intros H. unfold KeyShareEntryList.MarshalBinary.
  apply KeyShareEntryList_marshal_loop_total; [exact H | lia].
Qed.

Lemma succeeds_write_suites (suites : list CipherSuite) :
  succeeds (Keys.write_suites suites).
Proof.
  induction suites as [| suite rest IH]; cbn [Keys.write_suites].
  - apply succeeds_ret.
  - repeat succeeds_step. exact IH.
Qed.

Lemma succeeds_ExtensionList_marshal_loop (list : ExtensionList.t) :
  Forall (fun e => exists p, ev_MarshalBinary e = Done p) list ->
  succeeds (ExtensionList.marshal_loop list).
Proof.
  induction 1 as [| e rest [p Hp] _ IH]; cbn [ExtensionList.marshal_loop].
  - apply succeeds_ret.
  - rewrite Hp. repeat succeeds_step. exact IH.
Qed.

Lemma ExtensionList_MarshalBinary_total (list : ExtensionList.t) :
  Forall (fun e => exists p, ev_MarshalBinary e = Done p) list ->
  exists out, ExtensionList.MarshalBinary list = Done out.
Proof.
  intros H. unfold ExtensionList.MarshalBinary.
  destruct (succeeds_ExtensionList_marshal_loop list H
              (NewBuffer (make (Z.to_nat (ExtensionList.Size list)))))
    as (a & buf' & E).
  rewrite E. now exists buf'.
Qed.

Lemma succeeds_marshalKeyShareList (keys : Keys.t) :
  encodable_sections keys -> succeeds (Keys.marshalKeyShareList keys).
Proof.
  intros (Hne & Hsmall & _). unfold Keys.marshalKeyShareList.
  destruct (Keys.Keys keys) as [| e rest] eqn:E; [congruence |].
  cbn [length Nat.eqb].
  destruct (KeyShareEntryList_MarshalBinary_total (e :: rest) Hsmall)
    as [out Hout].
  rewrite Hout. repeat succeeds_step.
Qed.

Lemma succeeds_marshalExtensions (keys : Keys.t) :
  encodable_sections keys -> succeeds (Keys.marshalExtensions keys).
Proof.
  intros (_ & _ & Hext). unfold Keys.marshalExtensions.
  destruct (ExtensionList_MarshalBinary_total _ Hext) as [out Hout].
  rewrite Hout.
  succeeds_step; [repeat succeeds_step |].
  intros _. destruct (length (Keys.Extensions keys) =? 0)%nat;
    repeat succeeds_step.
Qed.

Lemma succeeds_sections_after_keys (keys : Keys.t) :
  encodable_sections keys -> succeeds (sections_after_keys keys).
Proof.
  intros H. unfold sections_after_keys, Keys.marshalCipherSuites,
    Keys.marshalValidityPeriod.
  repeat first
    [ apply succeeds_write_suites
    | apply (succeeds_marshalExtensions keys H)
    | succeeds_step ].
Qed.

(** ** The record: the hostname and the version *)

(** [copy(final[2:6], sum[:4])] on a buffer that has the six header bytes. *)
Lemma store_checksum (a b c0 c1 c2 c3 s0 s1 s2 s3 : byte) (rest : bytes) :
  fst (copy_at (a :: b :: c0 :: c1 :: c2 :: c3 :: rest) 2 [s0; s1; s2; s3])
  = a :: b :: s0 :: s1 :: s2 :: s3 :: rest.
Proof.
  unfold copy_at, copy.
  change (skipn 2 (a :: b :: c0 :: c1 :: c2 :: c3 :: rest))
    with (c0 :: c1 :: c2 :: c3 :: rest).
  cbn [length Nat.min]. rewrite Nat.min_0_r. reflexivity.
Qed.

(** Before draft 03 the key share list is written right after the
    checksum placeholder. *)
Lemma marshal_sections_before_Draft03 (keys : Keys.t) :
  Keys.Version keys < VersionDraft03 ->
  Keys.marshal_sections keys []
  = (wrap "marshal key share list" (Keys.marshalKeyShareList keys) ;;;
     sections_after_keys keys)%go
      (be16 (Keys.Version keys) ++ [0; 0; 0; 0]).
Proof.
  intros Hv. unfold Keys.marshal_sections, Keys.marshalPublicName.
  apply Z.ltb_lt in Hv. rewrite Hv. reflexivity.
Qed.

Lemma MarshalBinary_before_Draft03_layout (keys : Keys.t) (out : bytes) :
  Keys.Version keys < VersionDraft03 ->
  Keys.MarshalBinary keys = Done out ->
  exists listData tail,
    KeyShareEntryList.MarshalBinary (Keys.Keys keys) = Done listData
    /\ firstn 2 out = be16 (Keys.Version keys)
    /\ skipn 6 out
       = be16 (KeyShareEntryList.Size (Keys.Keys keys)) ++ listData ++ tail.
Proof.
  intros Hv. unfold Keys.MarshalBinary.
  rewrite (marshal_sections_before_Draft03 keys Hv).
  unfold bind at 1, wrap at 1, Keys.marshalKeyShareList.
  destruct (length (Keys.Keys keys) =? 0)%nat; [discriminate |].
  unfold bind at 1, wrap at 1, Write_uint16 at 1, Write at 1.
  unfold bind at 1, lift at 1.
  destruct (KeyShareEntryList.MarshalBinary (Keys.Keys keys))
    as [listData | e |]; [| discriminate ..].
  unfold wrap at 1, Write at 1.
  rewrite (appends_sections_after_keys keys).
  destruct (sections_after_keys keys []) as [r tail]. cbn [fst snd].
  destruct r as [[] | e |]; [| discriminate ..].
  rewrite <- !app_assoc. cbn [be16 app].
  match goal with
  | |- context [SHA256.Sum256 ?m] =>
      pose proof (Sum256_length m) as Hs;
      destruct (SHA256.Sum256 m) as [| s0 [| s1 [| s2 [| s3 sum]]]];
      try discriminate Hs
  end.
  change (firstn 4 (s0 :: s1 :: s2 :: s3 :: sum)) with [s0; s1; s2; s3].
  rewrite store_checksum. unfold slice. cbn [length Nat.leb andb].
  intros H. injection H as <-.
  exists listData, tail. repeat split.
Qed.

(** C7: version gating of the hostname. For a version before draft 03 the
    hostname step writes nothing and cannot fail, whatever the hostname:
    the record encodes exactly as the same record without a hostname does,
    it encodes successfully whenever its other sections can be written, and
    in the bytes the key share list follows the checksum at offset 6. For a
    version from draft 03 on, an empty hostname makes the encode fail with
    the error 'public name is empty'. *)
Theorem Keys_MarshalBinary_version_gating (keys : Keys.t) :
  (Keys.Version keys < VersionDraft03 ->
   (forall buf, Keys.marshalPublicName keys buf = (Done tt, buf))
   /\ Keys.MarshalBinary keys
      = Keys.MarshalBinary (Keys.set_PublicName EmptyString keys)
   /\ (encodable_sections keys ->
       exists out, Keys.MarshalBinary keys = Done out)
   /\ (forall out, Keys.MarshalBinary keys = Done out ->
       exists listData tail,
         KeyShareEntryList.MarshalBinary (Keys.Keys keys) = Done listData
         /\ firstn 2 out = be16 (Keys.Version keys)
         /\ skipn 6 out
            = be16 (KeyShareEntryList.Size (Keys.Keys keys))
              ++ listData ++ tail))
  /\ (VersionDraft03 <= Keys.Version keys ->
      Keys.PublicName keys = EmptyString ->
      Keys.MarshalBinary keys
      = Fail (errors_Wrap (errors_New "public name is empty")
                "marshal public name")).
Proof.
  split.
  - intros Hv. repeat split.
    + intros buf. unfold Keys.marshalPublicName.
      apply Z.ltb_lt in Hv. now rewrite Hv.
    + unfold Keys.MarshalBinary.
      rewrite (marshal_sections_before_Draft03 keys Hv).
      rewrite (marshal_sections_before_Draft03
                 (Keys.set_PublicName EmptyString keys) Hv).
      reflexivity.
    + intros Henc. unfold Keys.MarshalBinary.
      rewrite (marshal_sections_before_Draft03 keys Hv).
      assert (Hs : succeeds
                     (wrap "marshal key share list"
                        (Keys.marshalKeyShareList keys) ;;;
                      sections_after_keys keys)%go).
      { apply succeeds_bind.
        - apply succeeds_wrap, succeeds_marshalKeyShareList, Henc.
        - intros _. apply succeeds_sections_after_keys, Henc. }
      assert (Ha : appends
                     (wrap "marshal key share list"
                        (Keys.marshalKeyShareList keys) ;;;
                      sections_after_keys keys)%go).
      { apply appends_bind.
        - apply appends_wrap, appends_marshalKeyShareList.
        - intros _. apply appends_sections_after_keys. }
      rewrite Ha. destruct (Hs []) as ([] & tail & E). rewrite E.
      cbn [fst snd]. rewrite <- app_assoc. cbn [be16 app].
      unfold slice. cbn [length Nat.leb andb].
      eexists. reflexivity.
    + intros out. apply MarshalBinary_before_Draft03_layout. exact Hv.
  - intros Hv Hname. unfold Keys.MarshalBinary, Keys.marshal_sections,
      Keys.marshalPublicName.
    apply Z.ltb_ge in Hv. rewrite Hv, Hname. reflexivity.
Qed.

Lemma Keys_MarshalBinary_version_gating_witness :
  (Keys.MarshalBinary gating_old
   = Keys.MarshalBinary (Keys.set_PublicName EmptyString gating_old)
   /\ exists out, Keys.MarshalBinary gating_old = Done out)
  /\ Keys.MarshalBinary gating_new
     = Fail (errors_Wrap (errors_New "public name is empty")
               "marshal public name").
Proof.
  split.
  - destruct (proj1 (Keys_MarshalBinary_version_gating gating_old))
      as (_ & Hsame & Hok & _).
    + vm_compute; reflexivity.
    + split; [exact Hsame | apply Hok].
      split; [discriminate |].
      split; [| constructor].
      repeat constructor. vm_compute. discriminate.
  - apply (proj2 (Keys_MarshalBinary_version_gating gating_new)).
    + vm_compute. discriminate.
    + reflexivity.
Defined.

(** ** The Address Set decode on well-formed and on truncated input *)

(** The loop only looks at the input from [pos] on. *)
Lemma AddressSet_loop_shift
    (fuel : nat) (pre data : bytes) (pos : nat) (set : AddressSet.t) :
  AddressSet.unmarshal_loop fuel (pre ++ data) (length pre + pos) set
  = AddressSet.unmarshal_loop fuel data pos set.
Proof.
  revert pos set. induction fuel as [| fuel IH]; intros pos set;
    cbn [AddressSet.unmarshal_loop]; rewrite length_app;
    replace ((length pre + pos <? length pre + length data)%nat)
      with ((pos <? length data)%nat)
      by (destruct (Nat.ltb_spec pos (length data));
          symmetry; [apply Nat.ltb_lt | apply Nat.ltb_ge]; lia).
  - reflexivity.
  - rewrite app_nth2_plus.
    replace (skipn (length pre + pos + 1) (pre ++ data))
      with (skipn (pos + 1) data).
    2:{ rewrite skipn_app.
        rewrite (skipn_all2 pre) by lia. cbn [app]. f_equal. lia. }
    rewrite <- !Nat.add_assoc, !IH. reflexivity.
Qed.

Lemma AddressSet_loop_tagged
    (fuel : nat) (ip : IP) (more : bytes) (set : AddressSet.t) :
  address_length_ok ip ->
  AddressSet.unmarshal_loop (S fuel) (tagged ip ++ more) 0 set
  = AddressSet.unmarshal_loop fuel more 0
      (AddressSet.mk (AddressSet.Addresses set ++ [ip])).
Proof.
  intros Hok.
  assert (Hcopy : fst (copy (make (length ip)) (ip ++ more)) = ip).
  { rewrite copy_make_long by (rewrite length_app; lia).
    rewrite firstn_app, firstn_all, Nat.sub_diag. cbn.
    apply app_nil_r. }
  pose proof (AddressSet_loop_shift fuel (tagged ip) more 0) as Hshift.
  unfold tagged in *. cbn [length] in Hshift.
  destruct Hok as [Hn | Hn]; rewrite Hn in Hcopy, Hshift |- *;
    cbn [Nat.eqb] in Hshift |- *;
    cbn [AddressSet.unmarshal_loop app length Nat.ltb Nat.leb nth Z.eqb
         Pos.eqb];
    change (skipn (0 + 1) (?t :: ip ++ more)) with (ip ++ more);
    change (Z.to_nat IPv4len) with 4%nat;
    change (Z.to_nat IPv6len) with 16%nat;
    rewrite Hcopy; apply Hshift.
Qed.

Lemma AddressSet_loop_well_formed
    (ips : list IP) (fuel : nat) (more : bytes) (set : AddressSet.t) :
  Forall address_length_ok ips ->
  AddressSet.unmarshal_loop (length ips + fuel)
    (concat (map tagged ips) ++ more) 0 set
  = AddressSet.unmarshal_loop fuel more 0
      (AddressSet.mk (AddressSet.Addresses set ++ ips)).
Proof.
  intros Hall. revert set.
  induction Hall as [| ip ips Hip _ IH]; intros set.
  - cbn [length map concat app Nat.add]. rewrite app_nil_r.
    destruct set; reflexivity.
  - cbn [length map concat Nat.add]. rewrite <- app_assoc.
    rewrite AddressSet_loop_tagged by exact Hip.
    rewrite IH. cbn [AddressSet.Addresses].
    rewrite <- app_assoc. reflexivity.
Qed.

Lemma tagged_length (ips : list IP) :
  (length ips <= length (concat (map tagged ips)))%nat.
Proof.
  induction ips as [| ip ips IH]; cbn [map concat length]; [lia |].
  unfold tagged at 1. rewrite length_app. cbn [length]. lia.
Qed.

(** A well-formed payload decodes to its addresses, in order. *)
Lemma AddressSet_UnmarshalBinary_well_formed (ips : list IP) :
  Forall address_length_ok ips ->
  AddressSet.UnmarshalBinary AddressSet.new (concat (map tagged ips))
  = (Done tt, AddressSet.mk ips).
Proof.
  intros Hall. unfold AddressSet.UnmarshalBinary.
  pose proof (tagged_length ips) as Hlen.
  replace (S (length (concat (map tagged ips))))
    with (length ips + S (length (concat (map tagged ips)) - length ips))%nat
    by lia.
  rewrite <- (app_nil_r (concat (map tagged ips))) at 2.
  rewrite AddressSet_loop_well_formed by exact Hall.
  reflexivity.
Qed.

(** The loop on a last address that is cut short: the bytes that are
    there are copied, the rest of the address stays zero, and the loop ends
    without an error. *)
Lemma AddressSet_loop_truncated
    (fuel : nat) (tag : byte) (n : nat) (tail : bytes) (set : AddressSet.t) :
  (tag = 4 /\ n = 4%nat) \/ (tag = 6 /\ n = 16%nat) ->
  (length tail < n)%nat ->
  AddressSet.unmarshal_loop (S fuel) (tag :: tail) 0 set
  = Some (Done tt,
          AddressSet.mk (AddressSet.Addresses set
                         ++ [tail ++ repeat 0 (n - length tail)])).
Proof.
  intros Htag Hlen.
  assert (Hend : forall k s, (n < k)%nat ->
            AddressSet.unmarshal_loop fuel (tag :: tail) k s
            = Some (Done tt, s)).
  { intros k s Hk. destruct fuel; cbn [AddressSet.unmarshal_loop length];
      replace ((k <? S (length tail))%nat) with false
        by (symmetry; apply Nat.ltb_ge; lia); reflexivity. }
  destruct Htag as [[-> ->] | [-> ->]];
    cbn [AddressSet.unmarshal_loop length Nat.ltb Nat.leb nth Z.eqb Pos.eqb];
    change (skipn (0 + 1) (?t :: tail)) with tail;
    change (Z.to_nat IPv4len) with 4%nat;
    change (Z.to_nat IPv6len) with 16%nat;
    rewrite copy_make by lia;
    apply Hend; lia.
Qed.

(** C9: a truncated address is not rejected. When, after any number of
    well-formed addresses, a tag 4 (or 6) is followed by fewer than 4 (or
    16) bytes, the decode returns no error: it succeeds with a last address
    made of the bytes that were there, padded with zeros. *)
Theorem AddressSet_UnmarshalBinary_truncated_address
    (ips : list IP) (tail : bytes) :
  Forall address_length_ok ips ->
  ((length tail < 4)%nat ->
   AddressSet.UnmarshalBinary AddressSet.new
     (concat (map tagged ips) ++ 4 :: tail)
   = (Done tt,
      AddressSet.mk (ips ++ [tail ++ repeat 0 (4 - length tail)])))
  /\ ((length tail < 16)%nat ->
      AddressSet.UnmarshalBinary AddressSet.new
        (concat (map tagged ips) ++ 6 :: tail)
      = (Done tt,
         AddressSet.mk (ips ++ [tail ++ repeat 0 (16 - length tail)]))).
Proof.
  intros Hall.
  pose proof (tagged_length ips) as Hlen.
  assert (Hfuel : forall tag,
            S (length (concat (map tagged ips) ++ tag :: tail))
            = (length ips
               + S (length (concat (map tagged ips) ++ tag :: tail)
                    - length ips))%nat).
  { intros tag. rewrite length_app. lia. }
  split; intros Hshort; unfold AddressSet.UnmarshalBinary;
    rewrite Hfuel, (AddressSet_loop_well_formed ips _ _ _ Hall).
  - rewrite (AddressSet_loop_truncated _ 4 4 tail) by (auto; lia).
    reflexivity.
  - rewrite (AddressSet_loop_truncated _ 6 16 tail) by (auto; lia).
    reflexivity.
Qed.

Lemma AddressSet_UnmarshalBinary_truncated_address_witness :
  AddressSet.UnmarshalBinary AddressSet.new [4; 1; 2; 3; 4; 4; 9; 9]
  = (Done tt, AddressSet.mk [[1; 2; 3; 4]; [9; 9; 0; 0]])
  /\ AddressSet.UnmarshalBinary AddressSet.new [4; 1; 2; 3; 4; 6; 0xfe; 0x80]
     = (Done tt,
        AddressSet.mk [[1; 2; 3; 4];
                       [0xfe; 0x80; 0; 0; 0; 0; 0; 0; 0; 0; 0; 0; 0; 0; 0; 0]]).
Proof.
  assert (Hok : Forall address_length_ok [[1; 2; 3; 4]]).
  { repeat constructor. }
  split.
  - apply (proj1 (AddressSet_UnmarshalBinary_truncated_address
                    [[1; 2; 3; 4]] [9; 9] Hok)).
    cbn. lia.
  - apply (proj2 (AddressSet_UnmarshalBinary_truncated_address
                    [[1; 2; 3; 4]] [0xfe; 0x80] Hok)).
    cbn. lia.
Defined.

(** ** The record round trip *)

(** With one key share and no extension the record comes back as it was. *)
Example Keys_roundtrip_one_key :
  Keys.MarshalBinary record_one_key = Done wire_one_key
  /\ fst (Keys.UnmarshalBinary package_registry Keys.new wire_one_key)
     = (Done tt, record_one_key).
Proof. split; vm_compute; reflexivity. Qed.

(** C1: the round trip fails on valid records. With two key shares (of
    different key types, the checksum field the derived one) the encoding
    succeeds and its decode fails: the key share list is read with the
    position one byte late after the first entry. With an extension the
    decode fails too: the encoded extension list starts with [Size()] zero
    bytes, which are read as the unregistered extension type 0. *)
Theorem Keys_roundtrip_fails :
  (Keys.MarshalBinary record_two_keys = Done wire_two_keys
   /\ firstn 4 (skipn 2 wire_two_keys) = Keys.Checksum record_two_keys
   /\ fst (fst (Keys.UnmarshalBinary package_registry Keys.new
                  wire_two_keys))
      = Fail (errors_Wrap
                (errors_Wrap
                   (errors_Wrap io_ErrUnexpectedEOF
                      "buffer is too small for key exchange")
                   "unmarshal key share entry")
                "unmarshal key share list"))
  /\ (Keys.MarshalBinary record_with_extension = Done wire_with_extension
      /\ firstn 4 (skipn 2 wire_with_extension)
         = Keys.Checksum record_with_extension
      /\ fst (fst (Keys.UnmarshalBinary package_registry Keys.new
                     wire_with_extension))
         = Fail (errors_Wrap
                   (errors_Wrapf ErrUnsupportedExtensionType
                      "extension_type(%d)" 0)
                   "unmarshal extensions list")).
Proof. repeat split; vm_compute; reflexivity. Qed.

(** ** The round trip that does hold: one key share, no extension *)

Lemma bind_Done {S A B : Type} (m : M S A) (k : A -> M S B)
    (s s' : S) (a : A) :
  m s = (Done a, s') -> bind m k s = k a s'.
Proof. intros H. unfold bind. now rewrite H. Qed.

Lemma wrap_Done {S A : Type} (msg : string) (m : M S A) (s s' : S) (a : A) :
  m s = (Done a, s') -> wrap msg m s = (Done a, s').
Proof. intros H. unfold wrap. now rewrite H. Qed.

Lemma wrapf_Done {S A : Type} (format : string) (arg : Z) (m : M S A)
    (s s' : S) (a : A) :
  m s = (Done a, s') -> wrapf format arg m s = (Done a, s').
Proof. intros H. unfold wrapf. now rewrite H. Qed.

Lemma be_value_be16 (v : Z) : 0 <= v < 65536 -> be_value (be16 v) 0 = v.
Proof.
  intros H. unfold be16. cbn [be_value].
  rewrite Z.mul_0_l, Z.add_0_l. apply be16_value, H.
Qed.

Lemma be_value_be64 (v : Z) : 0 <= v < 2 ^ 64 -> be_value (be64 v) 0 = v.
Proof.
  intros H. unfold be64. cbn [be_value].
  change (2 ^ 56) with 72057594037927936.
  change (2 ^ 48) with 281474976710656.
  change (2 ^ 40) with 1099511627776.
  change (2 ^ 32) with 4294967296.
  change (2 ^ 24) with 16777216.
  change (2 ^ 16) with 65536.
  change (2 ^ 8) with 256.
  change (2 ^ 64) with 18446744073709551616 in H.
  Z.div_mod_to_equations. lia.
Qed.

Lemma int64_uint64 (s : Z) : - 2 ^ 63 <= s < 2 ^ 63 -> int64 (uint64 s) = s.
Proof.
  intros H. unfold int64, uint64. rewrite Z.mod_mod by lia.
  change (2 ^ 64) with 18446744073709551616 in *.
  change (2 ^ 63) with 9223372036854775808 in *.
  destruct (Z.ltb_spec (s mod 18446744073709551616) 9223372036854775808);
    Z.div_mod_to_equations; lia.
Qed.

Lemma string_of_bytes_of_string (s : string) :
  string_of_bytes (bytes_of_string s) = s.
Proof.
  unfold string_of_bytes, bytes_of_string. rewrite map_map.
  rewrite <- (string_of_list_ascii_of_string s) at 2. f_equal.
  rewrite <- (map_id (list_ascii_of_string s)) at 2.
  apply map_ext. intros c. rewrite N2Z.id. apply ascii_N_embedding.
Qed.

Lemma bytes_of_string_length (s : string) :
  length (bytes_of_string s) = String.length s.
Proof.
  unfold bytes_of_string. rewrite length_map.
  induction s as [| c s IH]; cbn; [reflexivity | now rewrite IH].
Qed.

Lemma bytes_eqb_refl (b : bytes) : bytes_eqb b b = true.
Proof.
  induction b as [| x b IH]; cbn [bytes_eqb]; [reflexivity |].
  now rewrite Z.eqb_refl, IH.
Qed.

Section RoundTrip.

Variables (r : Keys.t) (e : KeyShareEntry.t).
Hypothesis Hclass : round_trip_class r e.

Lemma wire_entry_length :
  length (wire_entry e) = Z.to_nat (KeyShareEntry.Size e).
Proof.
  rewrite KeyShareEntry_Size_small by apply Hclass.
  unfold wire_entry, len. rewrite !length_app. cbn [be16 length]. lia.
Qed.

Lemma marshalPublicName_class (buf : Buffer) :
  Keys.marshalPublicName r buf = (Done tt, buf ++ wire_name r).
Proof.
  unfold Keys.marshalPublicName, wire_name.
  destruct (Z.ltb_spec (Keys.Version r) VersionDraft03) as [Hv | Hv].
  - unfold ret. now rewrite app_nil_r.
  - pose proof (rt_name r e Hclass Hv) as Hn.
    replace ((String.length (Keys.PublicName r) =? 0)%nat) with false
      by (symmetry; apply Nat.eqb_neq; lia).
    replace ((255 <? String.length (Keys.PublicName r))%nat) with false
      by (symmetry; apply Nat.ltb_ge; lia).
    unfold bind, wrap, WriteByte, WriteString, Write.
    rewrite <- app_assoc. reflexivity.
Qed.

Lemma KeyShareEntryList_MarshalBinary_one :
  KeyShareEntryList.MarshalBinary [e] = Done (wire_entry e).
Proof.
  unfold KeyShareEntryList.MarshalBinary, KeyShareEntryList.Size.
  cbn [fold_left KeyShareEntryList.marshal_loop].
  rewrite (KeyShareEntry_MarshalBinary_small e) by apply Hclass.
  fold (wire_entry e).
  assert (Hsz : uint16 (0 + KeyShareEntry.Size e) = KeyShareEntry.Size e).
  { rewrite Z.add_0_l. unfold KeyShareEntry.Size.
    unfold uint16 at 1. apply Z.mod_mod. lia. }
  rewrite Hsz, <- wire_entry_length.
  unfold slice_from, copy_at. cbn [Nat.leb].
  change (skipn 0 (make (length (wire_entry e))))
    with (make (length (wire_entry e))).
  change (firstn 0 (make (length (wire_entry e)))) with (@nil byte).
  pose proof (copy_make_exact (wire_entry e)) as Hc.
  destruct (copy (make (length (wire_entry e))) (wire_entry e)) as [tl n].
  cbn [fst] in Hc. subst tl. reflexivity.
Qed.

Lemma marshalKeyShareList_class (buf : Buffer) :
  Keys.marshalKeyShareList r buf
  = (Done tt, buf ++ be16 (KeyShareEntry.Size e) ++ wire_entry e).
Proof.
  unfold Keys.marshalKeyShareList. rewrite (rt_keys r e Hclass).
  cbn [length Nat.eqb]. rewrite KeyShareEntryList_MarshalBinary_one.
  unfold KeyShareEntryList.Size. cbn [fold_left].
  replace (uint16 (0 + KeyShareEntry.Size e)) with (KeyShareEntry.Size e).
  2:{ rewrite Z.add_0_l. unfold KeyShareEntry.Size.
      unfold uint16 at 2. symmetry. apply Z.mod_mod. lia. }
  unfold bind, wrap, lift, Write_uint16, Write.
  rewrite <- app_assoc. reflexivity.
Qed.

Lemma write_suites_bytes (suites : list CipherSuite) (buf : Buffer) :
  Keys.write_suites suites buf = (Done tt, buf ++ concat (map be16 suites)).
Proof.
  revert buf. induction suites as [| s suites IH]; intros buf.
  - cbn. unfold ret. now rewrite app_nil_r.
  - cbn [Keys.write_suites map concat].
    unfold bind at 1, wrap, Write_uint16, Write.
    rewrite IH, <- app_assoc. reflexivity.
Qed.

Lemma marshalCipherSuites_class (buf : Buffer) :
  Keys.marshalCipherSuites r buf = (Done tt, buf ++ wire_suites r).
Proof.
  unfold Keys.marshalCipherSuites, wire_suites.
  unfold bind, wrap, Write_uint16, Write.
  rewrite write_suites_bytes, <- app_assoc. reflexivity.
Qed.

Lemma marshal_sections_class :
  Keys.marshal_sections r []
  = (Done tt, be16 (Keys.Version r) ++ [0; 0; 0; 0] ++ wire_body r e).
Proof.
  unfold Keys.marshal_sections.
  unfold bind at 1, wrap at 1, Write_uint16 at 1, Write at 1.
  unfold bind at 1, wrap at 1, Write at 1.
  erewrite bind_Done
    by (apply wrap_Done, marshalPublicName_class).
  erewrite bind_Done
    by (apply wrap_Done, marshalKeyShareList_class).
  erewrite bind_Done
    by (apply wrap_Done, marshalCipherSuites_class).
  unfold bind at 1, wrap at 1, Write_uint16 at 1, Write at 1.
  unfold Keys.marshalValidityPeriod, Keys.marshalExtensions.
  rewrite (rt_extensions r e Hclass).
  unfold bind, wrap, Write_uint16, Write_uint64, Write, ret.
  cbn [length Nat.eqb ExtensionList.Size fold_left].
  unfold wire_body, wire_tail.
  change (be16 0) with [0; 0].
  rewrite <- !app_assoc. reflexivity.
Qed.

End RoundTrip.

(** *** Reading back what was written *)

Lemma reading_ReadByte (k : Keys.t) (c : byte) (rest : bytes) :
  Keys.reading ReadByte (k, c :: rest) = (Done c, (k, rest)).
Proof. reflexivity. Qed.

Lemma reading_Read (k : Keys.t) (p rest : bytes) :
  p <> [] ->
  Keys.reading (Read (length p)) (k, p ++ rest) = (Done p, (k, rest)).
Proof.
  intros Hp. unfold Keys.reading, Read. cbn [fst snd].
  destruct (p ++ rest) as [| x l] eqn:E.
  - destruct p; [congruence | discriminate E].
  - rewrite <- E.
    rewrite copy_make_long by (rewrite length_app; lia).
    rewrite firstn_app, firstn_all, Nat.sub_diag.
    rewrite skipn_app, skipn_all, Nat.sub_diag. cbn [firstn skipn app].
    now rewrite app_nil_r.
Qed.

Lemma reading_Read_uint16 (k : Keys.t) (v : Z) (rest : bytes) :
  0 <= v < 65536 ->
  Keys.reading Read_uint16 (k, be16 v ++ rest) = (Done v, (k, rest)).
Proof.
  intros Hv. pose proof (be_value_be16 v Hv) as Hbe.
  unfold Keys.reading, Read_uint16, bind, ReadFull, ret.
  cbn [be16 app fst snd length Nat.ltb Nat.leb].
  change (firstn 2 (?a :: ?b :: rest)) with [a; b].
  change (skipn 2 (?a :: ?b :: rest)) with rest.
  unfold be16 in Hbe. now rewrite Hbe.
Qed.

Lemma reading_Read_uint64 (k : Keys.t) (v : Z) (rest : bytes) :
  0 <= v < 2 ^ 64 ->
  Keys.reading Read_uint64 (k, be64 v ++ rest) = (Done v, (k, rest)).
Proof.
  intros Hv. pose proof (be_value_be64 v Hv) as Hbe.
  unfold Keys.reading, Read_uint64, bind, ReadFull, ret.
  cbn [be64 app fst snd length Nat.ltb Nat.leb].
  change (firstn 8 (?a :: ?b :: ?c :: ?d :: ?f :: ?g :: ?h :: ?i :: rest))
    with [a; b; c; d; f; g; h; i].
  change (skipn 8 (?a :: ?b :: ?c :: ?d :: ?f :: ?g :: ?h :: ?i :: rest))
    with rest.
  unfold be64 in Hbe. now rewrite Hbe.
Qed.

(** The suites are read into the slots one by one: [done] are the slots
    filled so far, [todo] the identifiers still on the wire. *)
Lemma read_suites_bytes
    (todo done : list CipherSuite) (k : Keys.t) (rest : bytes) :
  Forall (fun s => 0 <= s < 65536) todo ->
  Keys.read_suites (length todo) (length done)
    (Keys.set_CipherSuites (done ++ repeat 0 (length todo)) k,
     concat (map be16 todo) ++ rest)
  = (Done tt, (Keys.set_CipherSuites (done ++ todo) k, rest)).
Proof.
  intros Hall. revert done.
  induction Hall as [| s todo Hs _ IH]; intros done.
  - cbn. now rewrite app_nil_r.
  - cbn [length Keys.read_suites map concat repeat].
    rewrite <- app_assoc.
    erewrite bind_Done
      by (apply wrapf_Done, reading_Read_uint16, Hs).
    unfold bind at 1, Keys.get at 1. cbn [fst].
    unfold bind at 1, Keys.update at 1. cbn [fst snd].
    replace (Keys.set_CipherSuites _ (Keys.set_CipherSuites _ k))
      with (Keys.set_CipherSuites
              ((done ++ [s]) ++ repeat 0 (length todo)) k).
    2:{ destruct k. unfold Keys.set_CipherSuites.
        cbn [Keys.CipherSuites Keys.Version Keys.Checksum Keys.PublicName
             Keys.Keys Keys.PaddedLength Keys.NotBefore Keys.NotAfter
             Keys.Extensions].
        f_equal.
        rewrite <- (Nat.add_0_r (length done)) at 1.
        rewrite insert_app_r, <- app_assoc. reflexivity. }
    replace (S (length done)) with (length (done ++ [s]))
      by (rewrite length_app; cbn; lia).
    rewrite IH, <- app_assoc. reflexivity.
Qed.

Lemma KeyShareEntryList_UnmarshalBinary_one (e : KeyShareEntry.t) :
  0 <= KeyShareEntry.Group e < 65536 ->
  len (KeyShareEntry.KeyExchange e) <= 65531 ->
  KeyShareEntryList.UnmarshalBinary [] (wire_entry e) = (Done tt, [e]).
Proof.
  intros Hg Hk.
  destruct (KeyShareEntry_roundtrip e Hg Hk) as (data & Hm & Hu).
  rewrite (KeyShareEntry_MarshalBinary_small e Hk) in Hm.
  assert (Hd : data = wire_entry e) by (unfold wire_entry; congruence).
  subst data. clear Hm.
  assert (Hlen : length (wire_entry e)
                 = Z.to_nat (KeyShareEntry.Size e)).
  { rewrite KeyShareEntry_Size_small by exact Hk.
    unfold wire_entry, len. rewrite !length_app. cbn [be16 length]. lia. }
  assert (Hpos : (0 < length (wire_entry e))%nat).
  { unfold wire_entry. rewrite length_app. cbn [be16 length]. lia. }
  unfold KeyShareEntryList.UnmarshalBinary.
  cbn [KeyShareEntryList.unmarshal_loop].
  replace ((0 <? length (wire_entry e))%nat) with true
    by (symmetry; apply Nat.ltb_lt; exact Hpos).
  change (skipn 0 (wire_entry e)) with (wire_entry e).
  rewrite Hu. cbn [KeyShareEntryList.Contains existsb app].
  rewrite <- Hlen.
  destruct (length (wire_entry e)) as [| n] eqn:E; [lia |].
  cbn [KeyShareEntryList.unmarshal_loop].
  replace ((0 + S n + 1 <? length (wire_entry e))%nat) with false
    by (symmetry; apply Nat.ltb_ge; lia).
  destruct n; reflexivity.
Qed.

Section RoundTripDecode.

Variables (r : Keys.t) (e : KeyShareEntry.t).
Hypothesis Hclass : round_trip_class r e.
Variable reg : Registry.

Lemma unmarshalPublicName_class (k : Keys.t) (rest : bytes) :
  Keys.Version k = Keys.Version r ->
  Keys.PublicName k = EmptyString ->
  Keys.unmarshalPublicName (k, wire_name r ++ rest)
  = (Done tt, (Keys.set_PublicName (Keys.PublicName r) k, rest)).
Proof.
  intros Hv Hn. unfold Keys.unmarshalPublicName, wire_name.
  unfold bind at 1, Keys.get at 1. cbn [fst]. rewrite Hv.
  destruct (Z.ltb_spec (Keys.Version r) VersionDraft03) as [Hlt | Hge].
  - rewrite (rt_no_name r e Hclass Hlt).
    destruct k. cbn in Hn. subst. reflexivity.
  - pose proof (rt_name r e Hclass Hge) as Hlen.
    cbn [app].
    erewrite bind_Done by (apply wrap_Done, reading_ReadByte).
    assert (Hu : uint8 (Z.of_nat (String.length (Keys.PublicName r)))
                 = Z.of_nat (String.length (Keys.PublicName r))).
    { apply Z.mod_small. lia. }
    rewrite Hu.
    replace (Z.of_nat (String.length (Keys.PublicName r)) =? 0) with false
      by (symmetry; apply Z.eqb_neq; lia).
    rewrite Nat2Z.id, <- bytes_of_string_length.
    erewrite bind_Done.
    2:{ apply reading_Read. intros E.
        apply (f_equal (@length byte)) in E.
        rewrite bytes_of_string_length in E. cbn in E. lia. }
    rewrite string_of_bytes_of_string. reflexivity.
Qed.

Lemma unmarshalKeyShareList_class (k : Keys.t) (rest : bytes) :
  Keys.unmarshalKeyShareList
    (k, (be16 (KeyShareEntry.Size e) ++ wire_entry e) ++ rest)
  = (Done tt, (Keys.set_Keys [e] k, rest)).
Proof.
  pose proof (rt_key r e Hclass) as Hk.
  pose proof (rt_group r e Hclass) as Hg.
  pose proof (KeyShareEntry_Size_small e Hk) as Hsz.
  assert (Hlen : 0 <= len (KeyShareEntry.KeyExchange e))
    by (unfold len; lia).
  unfold Keys.unmarshalKeyShareList. rewrite <- app_assoc.
  erewrite bind_Done
    by (apply wrap_Done, reading_Read_uint16; lia).
  replace (KeyShareEntry.Size e =? 0) with false
    by (symmetry; apply Z.eqb_neq; lia).
  rewrite <- (wire_entry_length r e Hclass).
  erewrite bind_Done.
  2:{ apply wrap_Done, reading_Read. intros E.
      apply (f_equal (@length byte)) in E.
      rewrite (wire_entry_length r e Hclass) in E. cbn in E. lia. }
  rewrite (KeyShareEntryList_UnmarshalBinary_one e Hg Hk).
  reflexivity.
Qed.

Lemma unmarshalCipherSuites_class (k : Keys.t) (rest : bytes) :
  Keys.unmarshalCipherSuites (k, wire_suites r ++ rest)
  = (Done tt, (Keys.set_CipherSuites (Keys.CipherSuites r) k, rest)).
Proof.
  pose proof (rt_suites_len r e Hclass) as Hlen.
  assert (Hpos : 0 <= len (Keys.CipherSuites r)) by (unfold len; lia).
  unfold Keys.unmarshalCipherSuites, wire_suites. rewrite <- app_assoc.
  assert (Hu : uint16 (len (Keys.CipherSuites r) * 2)
               = len (Keys.CipherSuites r) * 2)
    by (apply Z.mod_small; lia).
  rewrite Hu.
  erewrite bind_Done
    by (apply wrap_Done, reading_Read_uint16; lia).
  rewrite Z.mod_mul, Z.div_mul by lia. cbn [Z.eqb negb].
  unfold bind at 1, Keys.update at 1. cbn [fst snd].
  replace (Z.to_nat (len (Keys.CipherSuites r)))
    with (length (Keys.CipherSuites r)) by (unfold len; lia).
  apply (read_suites_bytes (Keys.CipherSuites r) [] k rest).
  apply Hclass.
Qed.

Lemma unmarshal_tail_class (k : Keys.t) :
  (padded <- wrap "read padded length" (Keys.reading Read_uint16) ;;
   Keys.update (Keys.set_PaddedLength padded) ;;;
   wrap "unmarshal validity period" Keys.unmarshalValidityPeriod ;;;
   wrap "unmarshal extensions list" (Keys.unmarshalExtensions reg))%go
    (k, wire_tail r)
  = (Done tt,
     (Keys.set_Validity (Keys.NotBefore r) (Keys.NotAfter r)
        (Keys.set_PaddedLength (Keys.PaddedLength r) k), [])).
Proof.
  destruct (rt_not_before r e Hclass) as [Hnb0 Hnb].
  destruct (rt_not_after r e Hclass) as [Hna0 Hna].
  unfold wire_tail.
  erewrite bind_Done
    by (apply wrap_Done, reading_Read_uint16, Hclass).
  unfold bind at 1, Keys.update at 1. cbn [fst snd].
  unfold Keys.unmarshalValidityPeriod.
  erewrite bind_Done.
  2:{ apply wrap_Done. erewrite bind_Done.
      2:{ apply wrap_Done, reading_Read_uint64.
          unfold uint64. apply Z.mod_pos_bound. lia. }
      erewrite bind_Done.
      2:{ apply wrap_Done, reading_Read_uint64.
          unfold uint64. apply Z.mod_pos_bound. lia. }
      unfold Keys.update. cbn [fst snd]. reflexivity. }
  unfold Time_Unix. rewrite !int64_uint64 by assumption.
  unfold Keys.unmarshalExtensions.
  change [0; 0] with (be16 0 ++ []).
  unfold wrap at 1.
  erewrite bind_Done
    by (apply wrap_Done, reading_Read_uint16; lia).
  cbn [Z.eqb]. unfold ret, time_Unix.
  destruct (Keys.NotBefore r) as [s1 n1], (Keys.NotAfter r) as [s2 n2].
  cbn [sec nsec] in *. subst n1 n2. reflexivity.
Qed.

Lemma unmarshal_sections_class (k : Keys.t) :
  Keys.Version k = Keys.Version r ->
  Keys.PublicName k = EmptyString ->
  Keys.unmarshal_sections reg (k, wire_body r e)
  = (Done tt,
     (Keys.set_Validity (Keys.NotBefore r) (Keys.NotAfter r)
        (Keys.set_PaddedLength (Keys.PaddedLength r)
           (Keys.set_CipherSuites (Keys.CipherSuites r)
              (Keys.set_Keys [e]
                 (Keys.set_PublicName (Keys.PublicName r) k)))), [])).
Proof.
  intros Hv Hn. unfold Keys.unmarshal_sections, wire_body.
  erewrite bind_Done
    by (apply wrap_Done, unmarshalPublicName_class; assumption).
  erewrite bind_Done
    by (apply wrap_Done, unmarshalKeyShareList_class).
  erewrite bind_Done
    by (apply wrap_Done, unmarshalCipherSuites_class).
  apply unmarshal_tail_class.
Qed.

End RoundTripDecode.

(** A record with one key share and no extension survives the round trip:
    the decode of its encoding is the record itself, the checksum field
    now holding the four checksum bytes that the encoding carries. *)
Theorem Keys_roundtrip_one_key_no_extension
    (reg : Registry) (r : Keys.t) (e : KeyShareEntry.t) :
  round_trip_class r e ->
  exists wire,
    Keys.MarshalBinary r = Done wire
    /\ fst (Keys.UnmarshalBinary reg Keys.new wire)
       = (Done tt, Keys.set_Checksum (firstn 4 (skipn 2 wire)) r).
Proof.
  intros Hclass.
  pose proof (rt_version r e Hclass) as Hv.
  unfold Keys.MarshalBinary.
  rewrite (marshal_sections_class r e Hclass).
  cbn [be16 app].
  match goal with
  | |- context [SHA256.Sum256 ?m] =>
      destruct (SHA256.Sum256 m) as [| s0 [| s1 [| s2 [| s3 sum]]]] eqn:Hsum;
      try (apply (f_equal (@length byte)) in Hsum;
           rewrite Sum256_length in Hsum; discriminate Hsum)
  end.
  change (firstn 4 (s0 :: s1 :: s2 :: s3 :: sum)) with [s0; s1; s2; s3].
  rewrite store_checksum. unfold slice. cbn [length Nat.leb andb].
  eexists. split; [reflexivity |].
  unfold Keys.UnmarshalBinary. cbn [Uint16].
  rewrite be16_value by exact Hv.
  rewrite store_checksum.
  match goal with
  | |- context [SHA256.Sum256 ?m] =>
      replace (SHA256.Sum256 m) with (s0 :: s1 :: s2 :: s3 :: sum)
        by (symmetry; exact Hsum)
  end.
  change (skipn 2 (?a :: ?b :: ?l)) with l.
  change (firstn 4 (s0 :: s1 :: s2 :: s3 :: ?l)) with [s0; s1; s2; s3].
  replace (fst (copy
                  (Keys.Checksum (Keys.set_Version (Keys.Version r) Keys.new))
                  (s0 :: s1 :: s2 :: s3 :: wire_body r e)))
    with [s0; s1; s2; s3] by reflexivity.
  cbn [Keys.Checksum Keys.set_Checksum].
  rewrite bytes_eqb_refl. cbn [negb].
  unfold slice_from. cbn [length Nat.leb].
  change (skipn 6 (?a :: ?b :: ?c :: ?d :: ?f :: ?g :: ?l)) with l.
  rewrite (unmarshal_sections_class r e Hclass reg) by reflexivity.
  cbn [fst]. f_equal.
  pose proof (rt_keys r e Hclass) as Hk.
  pose proof (rt_extensions r e Hclass) as Hx.
  destruct r. cbn in Hk, Hx. subst. reflexivity.
Qed.

Lemma Keys_roundtrip_one_key_no_extension_example :
  exists wire,
    Keys.MarshalBinary record_one_key = Done wire
    /\ fst (Keys.UnmarshalBinary package_registry Keys.new wire)
       = (Done tt,
          Keys.set_Checksum (firstn 4 (skipn 2 wire)) record_one_key).
Proof.
  apply (Keys_roundtrip_one_key_no_extension package_registry record_one_key
           (KeyShareEntry.mk 0x001d [0xaa; 0xbb])).
  constructor; cbn; try lia; try reflexivity.
  - unfold VersionDraft03. lia.
  - unfold len. cbn. lia.
  - repeat constructor; lia.
Defined.

(** ** No list of two or more key shares survives the round trip *)

Lemma uint16_bounds (x : Z) : 0 <= uint16 x < 65536.
Proof. unfold uint16. apply Z.mod_pos_bound. lia. Qed.

Lemma uint16_le (x : Z) : 0 <= x -> uint16 x <= x.
Proof. intros H. unfold uint16. apply Z.mod_le; lia. Qed.

(** A decoded entry never claims more bytes than the input had. *)
Lemma KeyShareEntry_UnmarshalBinary_size
    (data : bytes) (entry : KeyShareEntry.t) :
  KeyShareEntry.UnmarshalBinary KeyShareEntry.zero data = (Done tt, entry) ->
  (Z.to_nat (KeyShareEntry.Size entry) <= length data)%nat.
Proof.
  unfold KeyShareEntry.UnmarshalBinary.
  destruct (Nat.ltb_spec (length data) 4) as [| H4]; [discriminate |].
  destruct (Uint16 data) as [g | |]; try discriminate.
  destruct (Uint16 (skipn 2 data)) as [keyLen | |]; try discriminate.
  destruct (Z.ltb_spec (len data) (keyLen + 4)) as [| Hlen];
    [discriminate |].
  destruct (slice data 4 _) as [src | |]; try discriminate.
  pose proof (copy_length (make (Z.to_nat keyLen)) src) as Hc.
  unfold make in Hc at 2. rewrite repeat_length in Hc.
  remember (fst (copy (make (Z.to_nat keyLen)) src)) as key eqn:Hkey.
  intros H. injection H as <-.
  unfold KeyShareEntry.Size. cbn [KeyShareEntry.KeyExchange].
  unfold len in *. rewrite Hc.
  pose proof (uint16_bounds (Z.of_nat (Z.to_nat keyLen))) as Hb.
  pose proof (uint16_le (Z.of_nat (Z.to_nat keyLen))) as Hle1.
  pose proof (uint16_le (uint16 (Z.of_nat (Z.to_nat keyLen)) + 4)) as Hle2.
  lia.
Qed.

(** The decode loop only ever appends to the list it was given. *)
Lemma KeyShareEntryList_unmarshal_loop_extends
    (fuel : nat) (data : bytes) (pos : nat) (acc out : KeyShareEntryList.t)
    (r : res unit) :
  KeyShareEntryList.unmarshal_loop fuel data pos acc = Some (r, out) ->
  exists suffix, out = acc ++ suffix.
Proof.
  revert pos acc. induction fuel as [| fuel IH]; intros pos acc;
    cbn [KeyShareEntryList.unmarshal_loop];
    destruct (pos <? length data)%nat;
    try discriminate;
    try (intros H; injection H as <- <-; exists []; now rewrite app_nil_r).
  destruct (KeyShareEntry.UnmarshalBinary _ _) as [[[] | err |] entry];
    try (intros H; injection H as <- <-; exists []; now rewrite app_nil_r).
  destruct (KeyShareEntryList.Contains acc entry);
    [intros H; injection H as <- <-; exists []; now rewrite app_nil_r |].
  intros H. destruct (IH _ _ H) as [suffix ->].
  exists (entry :: suffix). now rewrite <- app_assoc.
Qed.

(** When the loop succeeds and has appended [rest], the entries of
    [rest], each with the extra byte the position skips after it, fit in
    the input but for the last extra byte. *)
Lemma KeyShareEntryList_unmarshal_loop_room
    (fuel : nat) (data : bytes) (pos : nat)
    (acc rest : KeyShareEntryList.t) :
  KeyShareEntryList.unmarshal_loop fuel data pos acc
  = Some (Done tt, acc ++ rest) ->
  rest <> [] ->
  (pos + wire_sizes rest + length rest <= length data + 1)%nat.
Proof.
  revert pos acc rest. induction fuel as [| fuel IH]; intros pos acc rest;
    cbn [KeyShareEntryList.unmarshal_loop];
    destruct (Nat.ltb_spec pos (length data)) as [Hpos | Hpos];
    try discriminate;
    try (intros H Hne; injection H as H;
         rewrite <- (app_nil_r acc) in H at 1;
         apply app_inv_head in H; congruence).
  destruct (KeyShareEntry.UnmarshalBinary _ _) as [[[] | err |] entry] eqn:E;
    try discriminate.
  destruct (KeyShareEntryList.Contains acc entry); [discriminate |].
  intros H Hne.
  pose proof (KeyShareEntry_UnmarshalBinary_size _ _ E) as Hsize.
  rewrite length_skipn in Hsize.
  destruct (KeyShareEntryList_unmarshal_loop_extends _ _ _ _ _ _ H)
    as [suffix Hs].
  rewrite <- app_assoc in Hs. apply app_inv_head in Hs. subst rest.
  cbn [app wire_sizes fold_right length].
  destruct suffix as [| e' suffix].
  - cbn [wire_sizes fold_right length]. lia.
  - rewrite (app_assoc acc [entry]) in H.
    specialize (IH _ _ _ H ltac:(discriminate)).
    fold (wire_sizes (e' :: suffix)) in *. lia.
Qed.

Lemma KeyShareEntryList_marshal_loop_length
    (rest : KeyShareEntryList.t) (data out : bytes) (pos : nat) :
  KeyShareEntryList.marshal_loop rest data pos = Done out ->
  length out = length data.
Proof.
  revert data pos. induction rest as [| e rest IH]; intros data pos;
    cbn [KeyShareEntryList.marshal_loop].
  - intros H. now injection H as <-.
  - destruct (KeyShareEntry.MarshalBinary e) as [entry | |];
      try discriminate.
    destruct (slice_from data pos); try discriminate.
    pose proof (copy_at_length data pos entry) as Hl.
    destruct (copy_at data pos entry) as [data' n]. cbn [fst] in Hl.
    intros H. rewrite (IH _ _ H). exact Hl.
Qed.

Lemma KeyShareEntryList_Size_le (l : KeyShareEntryList.t) (size : Z) :
  0 <= size ->
  0 <= fold_left (fun size e => uint16 (size + KeyShareEntry.Size e)) l size
    <= size + Z.of_nat (wire_sizes l).
Proof.
  revert size. induction l as [| e l IH]; intros size Hs;
    cbn [fold_left wire_sizes fold_right]; [lia |].
  pose proof (uint16_bounds (uint16 (len (KeyShareEntry.KeyExchange e)) + 4))
    as He. fold (KeyShareEntry.Size e) in He.
  pose proof (uint16_bounds (size + KeyShareEntry.Size e)) as Hb.
  pose proof (uint16_le (size + KeyShareEntry.Size e)) as Hle.
  specialize (IH (uint16 (size + KeyShareEntry.Size e)) ltac:(lia)).
  fold (wire_sizes l) in *. lia.
Qed.

(** Whatever the entries, a list of two or more is never given back by
    the decode of its own encoding: the position is one byte further after
    every entry, so the last entry never has all its bytes left. *)
Theorem KeyShareEntryList_roundtrip_never
    (l : KeyShareEntryList.t) (data : bytes) :
  (2 <= length l)%nat ->
  KeyShareEntryList.MarshalBinary l = Done data ->
  KeyShareEntryList.UnmarshalBinary [] data <> (Done tt, l).
Proof.
  intros Hlen Hm Hu.
  pose proof (KeyShareEntryList_UnmarshalBinary_loop [] data) as Hloop.
  rewrite Hu in Hloop.
  apply (KeyShareEntryList_unmarshal_loop_room _ _ _ [] l) in Hloop.
  2:{ destruct l; [cbn in Hlen; lia | discriminate]. }
  unfold KeyShareEntryList.MarshalBinary in Hm.
  apply KeyShareEntryList_marshal_loop_length in Hm.
  unfold make in Hm. rewrite repeat_length in Hm.
  pose proof (KeyShareEntryList_Size_le l 0 ltac:(lia)) as Hsz.
  fold (KeyShareEntryList.Size l) in Hsz. lia.
Qed.

(** ** No record with two or more key shares survives the round trip *)

Lemma keeps_keys_ret {A : Type} (a : A) : keeps_keys (ret a).
Proof. intros s. reflexivity. Qed.

Lemma keeps_keys_fail {A : Type} (err : error) :
  keeps_keys (@fail Keys.st A err).
Proof. intros s. reflexivity. Qed.

Lemma keeps_keys_get : keeps_keys Keys.get.
Proof. intros s. reflexivity. Qed.

Lemma keeps_keys_reading {A : Type} (m : M Reader A) :
  keeps_keys (Keys.reading m).
Proof.
  intros s. unfold Keys.reading. now destruct (m (snd s)).
Qed.

Lemma keeps_keys_update (f : Keys.t -> Keys.t) :
  (forall k, Keys.Keys (f k) = Keys.Keys k) -> keeps_keys (Keys.update f).
Proof. intros H s. unfold Keys.update. cbn [fst snd]. apply H. Qed.

Lemma keeps_keys_wrap {A : Type} (msg : string) (m : M Keys.st A) :
  keeps_keys m -> keeps_keys (wrap msg m).
Proof.
  intros H s. unfold wrap. specialize (H s).
  destruct (m s) as [[a | err |] s']; exact H.
Qed.

Lemma keeps_keys_wrapf {A : Type} (format : string) (arg : Z)
    (m : M Keys.st A) :
  keeps_keys m -> keeps_keys (wrapf format arg m).
Proof.
  intros H s. unfold wrapf. specialize (H s).
  destruct (m s) as [[a | err |] s']; exact H.
Qed.

Lemma keeps_keys_bind {A B : Type} (m : M Keys.st A) (k : A -> M Keys.st B) :
  keeps_keys m -> (forall a, keeps_keys (k a)) -> keeps_keys (bind m k).
Proof.
  intros Hm Hk s. unfold bind. specialize (Hm s).
  destruct (m s) as [[a | err |] s']; cbn [fst snd] in *; try exact Hm.
  now rewrite (Hk a s').
Qed.

Ltac keeps_keys_step :=
  lazymatch goal with
  | |- keeps_keys (ret _) => apply keeps_keys_ret
  | |- keeps_keys (fail _) => apply keeps_keys_fail
  | |- keeps_keys Keys.get => apply keeps_keys_get
  | |- keeps_keys (Keys.reading _) => apply keeps_keys_reading
  | |- keeps_keys (Keys.update _) =>
      apply keeps_keys_update; intros []; reflexivity
  | |- keeps_keys (wrap _ _) => apply keeps_keys_wrap
  | |- keeps_keys (wrapf _ _ _) => apply keeps_keys_wrapf
  | |- keeps_keys (bind _ _) => apply keeps_keys_bind
  | |- keeps_keys (if ?c then _ else _) => destruct c
  | |- forall _, _ => intro
  end.

Lemma keeps_keys_read_suites (n i : nat) : keeps_keys (Keys.read_suites n i).
Proof.
  revert i. induction n as [| n IH]; intros i; cbn [Keys.read_suites].
  - apply keeps_keys_ret.
  - repeat keeps_keys_step. apply IH.
Qed.

Lemma keeps_keys_unmarshalExtensions (reg : Registry) :
  keeps_keys (Keys.unmarshalExtensions reg).
Proof.
  unfold Keys.unmarshalExtensions. repeat keeps_keys_step.
  intros [k rd]. cbn [fst snd].
  destruct (ExtensionList.UnmarshalBinary reg [] _) as [res exts].
  now destruct k.
Qed.

Lemma keeps_keys_sections_after_keys (reg : Registry) :
  keeps_keys (unmarshal_after_keys reg).
Proof.
  unfold unmarshal_after_keys, Keys.unmarshalCipherSuites,
    Keys.unmarshalValidityPeriod.
  repeat first
    [ apply keeps_keys_read_suites
    | apply keeps_keys_unmarshalExtensions
    | keeps_keys_step ].
Qed.

Lemma unmarshalPublicName_written (r k : Keys.t) (rest : bytes) :
  Keys.Version k = Keys.Version r ->
  hostname_fits r ->
  exists k1,
    Keys.unmarshalPublicName (k, wire_name r ++ rest) = (Done tt, (k1, rest))
    /\ Keys.Keys k1 = Keys.Keys k.
Proof.
  intros Hv Hfit. unfold Keys.unmarshalPublicName, wire_name.
  unfold bind at 1, Keys.get at 1. cbn [fst]. rewrite Hv.
  destruct (Z.ltb_spec (Keys.Version r) VersionDraft03) as [Hlt | Hge].
  - exists k. split; reflexivity.
  - specialize (Hfit Hge). cbn [app].
    erewrite bind_Done by (apply wrap_Done, reading_ReadByte).
    assert (Hu : uint8 (Z.of_nat (String.length (Keys.PublicName r)))
                 = Z.of_nat (String.length (Keys.PublicName r))).
    { apply Z.mod_small. lia. }
    rewrite Hu.
    replace (Z.of_nat (String.length (Keys.PublicName r)) =? 0) with false
      by (symmetry; apply Z.eqb_neq; lia).
    rewrite Nat2Z.id, <- bytes_of_string_length.
    erewrite bind_Done.
    2:{ apply reading_Read. intros E.
        apply (f_equal (@length byte)) in E.
        rewrite bytes_of_string_length in E. cbn in E. lia. }
    eexists. split; [reflexivity |]. now destruct k.
Qed.

(** The bytes of a record that encodes: header, hostname section, key
    share list behind its length, and the rest. *)
Lemma MarshalBinary_layout (r : Keys.t) (wire : bytes) :
  Keys.MarshalBinary r = Done wire ->
  exists listData tail sum,
    KeyShareEntryList.MarshalBinary (Keys.Keys r) = Done listData
    /\ hostname_fits r
    /\ SHA256.Sum256
         (be16 (Keys.Version r) ++ [0; 0; 0; 0] ++ wire_name r
          ++ (be16 (KeyShareEntryList.Size (Keys.Keys r)) ++ listData)
          ++ tail) = sum
    /\ wire = be16 (Keys.Version r) ++ firstn 4 sum ++ wire_name r
              ++ (be16 (KeyShareEntryList.Size (Keys.Keys r)) ++ listData)
              ++ tail.
Proof.
  unfold Keys.MarshalBinary, Keys.marshal_sections.
  unfold bind at 1, wrap at 1, Write_uint16 at 1, Write at 1.
  unfold bind at 1, wrap at 1, Write at 1.
  unfold bind at 1, wrap at 1.
  assert (Hname :
    (hostname_fits r
     /\ forall buf, Keys.marshalPublicName r buf = (Done tt, buf ++ wire_name r))
    \/ exists err, forall buf,
         Keys.marshalPublicName r buf = (Fail err, buf)).
  { unfold Keys.marshalPublicName, wire_name, hostname_fits.
    destruct (Z.ltb_spec (Keys.Version r) VersionDraft03) as [Hlt | Hge].
    - left. split; [lia |]. intros buf. unfold ret. now rewrite app_nil_r.
    - destruct (Nat.eqb_spec (String.length (Keys.PublicName r)) 0);
        [right; eexists; reflexivity |].
      destruct (Nat.ltb_spec 255 (String.length (Keys.PublicName r)));
        [right; eexists; reflexivity |].
      left. split; [lia |]. intros buf.
      unfold bind, wrap, WriteByte, WriteString, Write.
      now rewrite <- app_assoc. }
  destruct Hname as [[Hfit Hname] | [err Hname]]; rewrite Hname;
    [| discriminate].
  unfold bind at 1, wrap at 1, Keys.marshalKeyShareList.
  destruct (length (Keys.Keys r) =? 0)%nat; [discriminate |].
  unfold bind at 1, wrap at 1, Write_uint16 at 1, Write at 1.
  unfold bind at 1, lift at 1.
  destruct (KeyShareEntryList.MarshalBinary (Keys.Keys r))
    as [listData | err |]; [| discriminate ..].
  unfold wrap at 1, Write at 1.
  fold (sections_after_keys r).
  rewrite (appends_sections_after_keys r).
  destruct (sections_after_keys r []) as [res tail]. cbn [fst snd].
  destruct res as [[] | err |]; [| discriminate ..].
  rewrite <- !app_assoc. cbn [be16 app].
  match goal with
  | |- context [SHA256.Sum256 ?m] =>
      pose proof (Sum256_length m) as Hs;
      remember (SHA256.Sum256 m) as sum eqn:Hsum
  end.
  destruct sum as [| s0 [| s1 [| s2 [| s3 sum]]]]; try discriminate Hs.
  change (firstn 4 (s0 :: s1 :: s2 :: s3 :: sum)) with [s0; s1; s2; s3].
  rewrite store_checksum. unfold slice. cbn [length Nat.leb andb].
  intros H. injection H as <-.
  exists listData, tail, (s0 :: s1 :: s2 :: s3 :: sum).
  split; [reflexivity |]. split; [exact Hfit |].
  split; [exact (eq_sym Hsum) | reflexivity].
Qed.

Lemma unmarshalKeyShareList_written
    (k : Keys.t) (size : Z) (listData tail : bytes) :
  0 < size < 65536 ->
  length listData = Z.to_nat size ->
  Keys.unmarshalKeyShareList (k, (be16 size ++ listData) ++ tail)
  = (fst (KeyShareEntryList.UnmarshalBinary [] listData),
     (Keys.set_Keys (snd (KeyShareEntryList.UnmarshalBinary [] listData)) k,
      tail)).
Proof.
  intros Hsize Hlen. unfold Keys.unmarshalKeyShareList.
  rewrite <- app_assoc.
  erewrite bind_Done
    by (apply wrap_Done, reading_Read_uint16; lia).
  replace (size =? 0) with false by (symmetry; apply Z.eqb_neq; lia).
  rewrite <- Hlen.
  erewrite bind_Done.
  2:{ apply wrap_Done, reading_Read. intros E.
      apply (f_equal (@length byte)) in E. cbn in E. lia. }
  cbn [fst snd].
  now destruct (KeyShareEntryList.UnmarshalBinary [] listData).
Qed.

Lemma KeyShareEntryList_Size_bounds (l : KeyShareEntryList.t) :
  0 <= KeyShareEntryList.Size l < 65536.
Proof.
  unfold KeyShareEntryList.Size.
  assert (H : forall size, 0 <= size < 65536 ->
            0 <= fold_left
                   (fun size e => uint16 (size + KeyShareEntry.Size e)) l size
              < 65536).
  { induction l as [| e l IH]; intros size Hs; cbn [fold_left]; [exact Hs |].
    apply IH, uint16_bounds. }
  apply H. lia.
Qed.

(** Whenever a record with two or more key shares encodes, the decode of
    its encoding does not give the key share list back: it fails, or it
    succeeds with another list. *)
Theorem Keys_roundtrip_never_with_two_keys
    (reg : Registry) (r : Keys.t) (wire : bytes)
    (res : res unit) (r' : Keys.t) :
  0 <= Keys.Version r < 65536 ->
  (2 <= length (Keys.Keys r))%nat ->
  Keys.MarshalBinary r = Done wire ->
  fst (Keys.UnmarshalBinary reg Keys.new wire) = (res, r') ->
  res = Done tt ->
  Keys.Keys r' <> Keys.Keys r.
Proof.
  intros Hv Htwo Hm.
  destruct (MarshalBinary_layout r wire Hm)
    as (listData & tail & sum & Hlist & Hfit & Hsum & ->).
  pose proof (Sum256_length
                (be16 (Keys.Version r) ++ [0; 0; 0; 0] ++ wire_name r
                 ++ (be16 (KeyShareEntryList.Size (Keys.Keys r)) ++ listData)
                 ++ tail)) as Hs.
  rewrite Hsum in Hs.
  destruct sum as [| s0 [| s1 [| s2 [| s3 sum]]]]; try discriminate Hs.
  change (firstn 4 (s0 :: s1 :: s2 :: s3 :: sum)) with [s0; s1; s2; s3].
  assert (Hlen : length listData
                 = Z.to_nat (KeyShareEntryList.Size (Keys.Keys r))).
  { unfold KeyShareEntryList.MarshalBinary in Hlist.
    apply KeyShareEntryList_marshal_loop_length in Hlist.
    unfold make in Hlist. now rewrite repeat_length in Hlist. }
  pose proof (KeyShareEntryList_Size_bounds (Keys.Keys r)) as Hbound.
  unfold Keys.UnmarshalBinary. cbn [be16 app Uint16].
  rewrite be16_value by exact Hv.
  rewrite store_checksum.
  change (skipn 2 (?a :: ?b :: ?l)) with l.
  replace (fst (copy
                  (Keys.Checksum (Keys.set_Version (Keys.Version r) Keys.new))
                  (s0 :: s1 :: s2 :: s3
                   :: wire_name r
                      ++ (be16 (KeyShareEntryList.Size (Keys.Keys r))
                          ++ listData) ++ tail)))
    with [s0; s1; s2; s3] by reflexivity.
  match goal with
  | |- context [SHA256.Sum256 ?m] =>
      replace (SHA256.Sum256 m) with (s0 :: s1 :: s2 :: s3 :: sum)
        by (symmetry; exact Hsum)
  end.
  change (firstn 4 (s0 :: s1 :: s2 :: s3 :: sum)) with [s0; s1; s2; s3].
  cbn [Keys.Checksum Keys.set_Checksum].
  rewrite bytes_eqb_refl. cbn [negb].
  unfold slice_from. cbn [length Nat.leb].
  change (skipn 6 (?a :: ?b :: ?c :: ?d :: ?f :: ?g :: ?l)) with l.
  change (Keys.unmarshal_sections reg)
    with (wrap "unmarshal public name" Keys.unmarshalPublicName ;;;
          wrap "unmarshal key share list" Keys.unmarshalKeyShareList ;;;
          unmarshal_after_keys reg)%go.
  match goal with
  | |- context [bind _ _ (?k0, _)] =>
      destruct (unmarshalPublicName_written r k0
                  ((be16 (KeyShareEntryList.Size (Keys.Keys r)) ++ listData)
                   ++ tail) eq_refl Hfit) as (k1 & Hpn & _)
  end.
  erewrite bind_Done by (apply wrap_Done; exact Hpn).
  unfold bind at 1, wrap at 1.
  destruct (Z.eq_dec (KeyShareEntryList.Size (Keys.Keys r)) 0) as [H0 | H0].
  - (* a list whose sizes wrap to zero is written with a zero prefix *)
    rewrite H0. unfold Keys.unmarshalKeyShareList.
    rewrite <- app_assoc.
    erewrite bind_Done
      by (apply wrap_Done, reading_Read_uint16; lia).
    cbn [Z.eqb]. unfold fail. cbn [fst].
    intros H ->. discriminate H.
  - rewrite unmarshalKeyShareList_written by (lia || exact Hlen).
    destruct (KeyShareEntryList.UnmarshalBinary [] listData)
      as [resl l'] eqn:Hdec.
    cbn [fst snd].
    destruct resl as [[] | err |].
    + match goal with
      | |- context [unmarshal_after_keys reg ?s] =>
          pose proof (keeps_keys_sections_after_keys reg s) as Hkeep;
          destruct (unmarshal_after_keys reg s) as [res2 [k2 rd2]]
      end.
      cbn [fst snd] in *.
      intros H _. assert (Hr : r' = k2) by congruence. subst r'.
      rewrite Hkeep.
      replace (Keys.Keys (Keys.set_Keys l' k1)) with l' by now destruct k1.
      intros ->.
      exact (KeyShareEntryList_roundtrip_never _ _ Htwo Hlist Hdec).
    + cbn [fst]. intros H ->. discriminate H.
    + cbn [fst]. intros H ->. discriminate H.
Qed.

(** * Further properties of the code *)

(** ** entry.go: one key share entry *)

Lemma KeyShareEntry_UnmarshalBinary_wire_entry
    (entry before : KeyShareEntry.t) (trailing : bytes) :
  0 <= KeyShareEntry.Group entry < 65536 ->
  len (KeyShareEntry.KeyExchange entry) <= 65531 ->
  KeyShareEntry.UnmarshalBinary before (wire_entry entry ++ trailing)
  = (Done tt, entry).
Proof.
  intros Hg Hn.
  destruct entry as [g key]. unfold wire_entry.
  cbn [KeyShareEntry.Group KeyShareEntry.KeyExchange] in *.
  assert (Hlen : 0 <= len key < 65536) by (unfold len in *; lia).
  assert (Hug : uint16 g = g) by (apply Z.mod_small; lia).
  assert (Hul : uint16 (len key) = len key) by (apply Z.mod_small; lia).
  rewrite Hug, Hul. cbn [be16 app].
  unfold KeyShareEntry.UnmarshalBinary.
  cbn [length Nat.ltb Nat.leb Uint16].
  change (skipn 2 (?a :: ?b :: ?l)) with l. cbn [Uint16].
  rewrite !be16_value by lia.
  rewrite !len_cons.
  replace (len (key ++ trailing) + 1 + 1 + 1 + 1 <? len key + 4) with false
    by (symmetry; apply Z.ltb_ge; unfold len; rewrite length_app; lia).
  replace (uint16 (len key + 4)) with (len key + 4)
    by (symmetry; apply Z.mod_small; lia).
  unfold slice. cbn [length].
  replace (Z.to_nat (len key + 4)) with (4 + length key)%nat
    by (unfold len; lia).
  replace ((4 <=? 4 + length key)%nat) with true
    by (symmetry; apply Nat.leb_le; lia).
  replace ((4 + length key <=? S (S (S (S (length (key ++ trailing))))))%nat)
    with true
    by (symmetry; apply Nat.leb_le; rewrite length_app; lia).
  cbn [andb]. replace (4 + length key - 4)%nat with (length key) by lia.
  change (skipn 4 (?a :: ?b :: ?c :: ?d :: ?l)) with l.
  rewrite firstn_app, firstn_all, Nat.sub_diag.
  change (firstn 0 trailing) with (@nil byte). rewrite app_nil_r.
  replace (Z.to_nat (len key)) with (length key) by (unfold len; lia).
  rewrite copy_make_exact. reflexivity.
Qed.

(** X1: an entry with a key type in range and a key of at most 65531
    bytes encodes to its 4 header bytes and its key, and the decode of
    those bytes gives the entry back, whatever the receiver held before
    and whatever bytes follow the entry in the input. *)
Theorem KeyShareEntry_codec_roundtrip
    (entry before : KeyShareEntry.t) (trailing : bytes) :
  0 <= KeyShareEntry.Group entry < 65536 ->
  len (KeyShareEntry.KeyExchange entry) <= 65531 ->
  exists data,
    KeyShareEntry.MarshalBinary entry = Done data
    /\ len data = KeyShareEntry.Size entry
    /\ KeyShareEntry.UnmarshalBinary before (data ++ trailing)
       = (Done tt, entry).
Proof.
  intros Hg Hn. exists (wire_entry entry).
  split; [apply KeyShareEntry_MarshalBinary_small, Hn |].
  split.
  { rewrite KeyShareEntry_Size_small by exact Hn.
    unfold wire_entry, len. rewrite !length_app. cbn [be16 length]. lia. }
  exact (KeyShareEntry_UnmarshalBinary_wire_entry entry before trailing Hg Hn).
Qed.

Lemma KeyShareEntry_codec_roundtrip_witness :
  exists data,
    KeyShareEntry.MarshalBinary (KeyShareEntry.mk 0x001d [0xaa; 0xbb])
    = Done data
    /\ len data = KeyShareEntry.Size (KeyShareEntry.mk 0x001d [0xaa; 0xbb])
    /\ KeyShareEntry.UnmarshalBinary (KeyShareEntry.mk 7 [1])
         (data ++ [0xff])
       = (Done tt, KeyShareEntry.mk 0x001d [0xaa; 0xbb]).
Proof.
  apply (KeyShareEntry_codec_roundtrip
           (KeyShareEntry.mk 0x001d [0xaa; 0xbb]) (KeyShareEntry.mk 7 [1])
           [0xff]).
  - cbn. lia.
  - unfold len. cbn. lia.
Defined.

(** X2: the two truncation errors of the entry decode. With fewer than 4
    bytes the receiver is left as it was; when the header declares more key
    bytes than follow it, the key type of the receiver has already been
    overwritten and its key has not. *)
Theorem KeyShareEntry_UnmarshalBinary_truncated
    (before : KeyShareEntry.t) (data : bytes) (g n : Z) (rest : bytes) :
  ((length data < 4)%nat ->
   KeyShareEntry.UnmarshalBinary before data
   = (Fail (errors_Wrap io_ErrUnexpectedEOF
              "buffer is too small for key share entry"), before))
  /\ (0 <= g < 65536 -> 0 <= n < 65536 -> len rest < n ->
      KeyShareEntry.UnmarshalBinary before (be16 g ++ be16 n ++ rest)
      = (Fail (errors_Wrap io_ErrUnexpectedEOF
                 "buffer is too small for key exchange"),
         KeyShareEntry.mk g (KeyShareEntry.KeyExchange before))).
Proof.
  split.
  - intros H. unfold KeyShareEntry.UnmarshalBinary.
    replace ((length data <? 4)%nat) with true
      by (symmetry; apply Nat.ltb_lt; exact H).
    reflexivity.
  - intros Hg Hn Hrest. unfold KeyShareEntry.UnmarshalBinary.
    cbn [be16 app length Nat.ltb Nat.leb Uint16].
    change (skipn 2 (?a :: ?b :: ?l)) with l. cbn [Uint16].
    rewrite !be16_value by lia. rewrite !len_cons.
    replace (len rest + 1 + 1 + 1 + 1 <? n + 4) with true
      by (symmetry; apply Z.ltb_lt; lia).
    reflexivity.
Qed.

Lemma KeyShareEntry_UnmarshalBinary_truncated_witness :
  KeyShareEntry.UnmarshalBinary (KeyShareEntry.mk 7 [1]) [0; 0x1d; 0]
  = (Fail (errors_Wrap io_ErrUnexpectedEOF
             "buffer is too small for key share entry"),
     KeyShareEntry.mk 7 [1])
  /\ KeyShareEntry.UnmarshalBinary (KeyShareEntry.mk 7 [1])
       (be16 0x1d ++ be16 3 ++ [0xaa; 0xbb])
     = (Fail (errors_Wrap io_ErrUnexpectedEOF
                "buffer is too small for key exchange"),
        KeyShareEntry.mk 0x1d [1]).
Proof.
  split.
  - apply (proj1 (KeyShareEntry_UnmarshalBinary_truncated
                    (KeyShareEntry.mk 7 [1]) [0; 0x1d; 0] 0 0 [])).
    cbn. lia.
  - apply (proj2 (KeyShareEntry_UnmarshalBinary_truncated
                    (KeyShareEntry.mk 7 [1]) [] 0x1d 3 [0xaa; 0xbb]));
      unfold len; cbn; lia.
Defined.

(** ** entry.go: lists of key share entries *)

Lemma wire_entry_size (e : KeyShareEntry.t) :
  len (KeyShareEntry.KeyExchange e) <= 65531 ->
  length (wire_entry e) = Z.to_nat (KeyShareEntry.Size e).
Proof.
  intros H. rewrite KeyShareEntry_Size_small by exact H.
  unfold wire_entry, len. rewrite !length_app. cbn [be16 length]. lia.
Qed.

Lemma wire_sizes_concat (l : KeyShareEntryList.t) :
  Forall (fun e => len (KeyShareEntry.KeyExchange e) <= 65531) l ->
  length (concat (map wire_entry l)) = wire_sizes l.
Proof.
  induction 1 as [| e l He _ IH]; cbn [map concat wire_sizes fold_right];
    [reflexivity |].
  fold (wire_sizes l). rewrite length_app, IH, wire_entry_size by exact He.
  reflexivity.
Qed.

Lemma firstn_make (n m : nat) : firstn n (make m) = make (Nat.min n m).
Proof.
  unfold make. revert m. induction n as [| n IH]; intros [| m];
    cbn [firstn repeat Nat.min]; try reflexivity.
  now rewrite IH.
Qed.

Lemma skipn_make (n m : nat) : skipn n (make m) = make (m - n).
Proof.
  unfold make. revert m. induction n as [| n IH]; intros [| m];
    cbn [skipn repeat Nat.sub]; try reflexivity.
  apply IH.
Qed.

(** One round of the marshal loop: [done] is what has been produced, the
    output slice has [size] bytes, and the position is the end of [done]
    or the end of the output, whichever comes first. *)
Lemma copy_at_output (done w : bytes) (size : nat) :
  copy_at (firstn size (done ++ make size)) (Nat.min (length done) size) w
  = (firstn size ((done ++ w) ++ make size),
     (Nat.min (length (done ++ w)) size - Nat.min (length done) size)%nat).
Proof.
  unfold copy_at, copy.
  assert (Hlen : length (firstn size (done ++ make size)) = size).
  { rewrite length_firstn, length_app. unfold make.
    rewrite repeat_length. lia. }
  rewrite length_skipn, Hlen, length_app.
  destruct (Nat.le_gt_cases size (length done)) as [Hge | Hlt].
  - rewrite !Nat.min_r by lia.
    replace (Nat.min (size - size) (length w)) with 0%nat by lia.
    f_equal; [| lia].
    change (firstn 0 w) with (@nil byte). cbn [app].
    change (skipn 0 ?l) with l.
    rewrite firstn_skipn.
    rewrite <- app_assoc, !firstn_app.
    replace (size - length done)%nat with 0%nat by lia.
    reflexivity.
  - rewrite (Nat.min_l (length done) size) by lia.
    rewrite firstn_app.
    replace (firstn size done) with done by (symmetry; apply firstn_all2; lia).
    rewrite firstn_make.
    rewrite (Nat.min_l (size - length done) size) by lia.
    rewrite firstn_app, firstn_all, Nat.sub_diag.
    change (firstn 0 ?l) with (@nil byte). rewrite app_nil_r.
    rewrite skipn_app, skipn_all, Nat.sub_diag.
    change (skipn 0 ?l) with l. cbn [app].
    rewrite <- (app_assoc done w), firstn_app.
    replace (firstn size done) with done by (symmetry; apply firstn_all2; lia).
    rewrite firstn_app, firstn_make.
    rewrite skipn_make.
    destruct (Nat.le_gt_cases (length w) (size - length done)) as [Hw | Hw].
    + rewrite (Nat.min_r (size - length done) (length w)) by lia.
      rewrite firstn_all.
      replace (firstn (size - length done) w) with w
        by (symmetry; apply firstn_all2; lia).
      rewrite (Nat.min_l (length done + length w) size) by lia.
      f_equal; try lia. repeat f_equal. lia.
    + rewrite (Nat.min_l (size - length done) (length w)) by lia.
      rewrite (Nat.min_r (length done + length w) size) by lia.
      f_equal; try lia. repeat f_equal. lia.
Qed.

Lemma KeyShareEntryList_marshal_loop_output
    (rest : KeyShareEntryList.t) (done : bytes) (size : nat) :
  Forall (fun e => len (KeyShareEntry.KeyExchange e) <= 65531) rest ->
  KeyShareEntryList.marshal_loop rest (firstn size (done ++ make size))
    (Nat.min (length done) size)
  = Done (firstn size ((done ++ concat (map wire_entry rest)) ++ make size)).
Proof.
  intros Hall. revert done.
  induction Hall as [| e rest He _ IH]; intros done;
    cbn [KeyShareEntryList.marshal_loop map concat].
  - now rewrite app_nil_r.
  - rewrite (KeyShareEntry_MarshalBinary_small e He). fold (wire_entry e).
    unfold slice_from.
    replace ((Nat.min (length done) size
              <=? length (firstn size (done ++ make size)))%nat) with true.
    2:{ symmetry. apply Nat.leb_le.
        rewrite length_firstn, length_app. unfold make.
        rewrite repeat_length. lia. }
    rewrite copy_at_output.
    replace (Nat.min (length done) size
             + (Nat.min (length (done ++ wire_entry e)) size
                - Nat.min (length done) size))%nat
      with (Nat.min (length (done ++ wire_entry e)) size)
      by (rewrite length_app; lia).
    rewrite IH, <- !app_assoc. reflexivity.
Qed.

Lemma KeyShareEntryList_Size_exact (l : KeyShareEntryList.t) (size : Z) :
  0 <= size ->
  size + Z.of_nat (wire_sizes l) <= 65535 ->
  fold_left (fun size e => uint16 (size + KeyShareEntry.Size e)) l size
  = size + Z.of_nat (wire_sizes l).
Proof.
  revert size. induction l as [| e l IH]; intros size Hs Hle;
    cbn [fold_left wire_sizes fold_right] in *; [lia |].
  fold (wire_sizes l) in *.
  pose proof (uint16_bounds (uint16 (len (KeyShareEntry.KeyExchange e)) + 4))
    as He. fold (KeyShareEntry.Size e) in He.
  assert (Hu : uint16 (size + KeyShareEntry.Size e)
               = size + KeyShareEntry.Size e)
    by (apply Z.mod_small; lia).
  rewrite Hu, IH by lia. lia.
Qed.

Lemma KeyShareEntryList_MarshalBinary_cut (l : KeyShareEntryList.t) :
  Forall (fun e => len (KeyShareEntry.KeyExchange e) <= 65531) l ->
  KeyShareEntryList.MarshalBinary l
  = Done (firstn (Z.to_nat (KeyShareEntryList.Size l))
            (concat (map wire_entry l))).
Proof.
  intros Hall. unfold KeyShareEntryList.MarshalBinary.
  pose proof (KeyShareEntryList_marshal_loop_output l []
                (Z.to_nat (KeyShareEntryList.Size l)) Hall) as H.
  cbn [app length] in H. rewrite Nat.min_0_l in H.
  replace (firstn (Z.to_nat (KeyShareEntryList.Size l))
             (make (Z.to_nat (KeyShareEntryList.Size l))))
    with (make (Z.to_nat (KeyShareEntryList.Size l))) in H.
  2:{ symmetry. apply firstn_all2. unfold make.
      rewrite repeat_length. lia. }
  rewrite H. f_equal.
  rewrite firstn_app.
  pose proof (KeyShareEntryList_Size_le l 0 ltac:(lia)) as Hle.
  fold (KeyShareEntryList.Size l) in Hle.
  rewrite (wire_sizes_concat l Hall).
  replace (Z.to_nat (KeyShareEntryList.Size l) - wire_sizes l)%nat
    with 0%nat by lia.
  change (firstn 0 ?x) with (@nil byte). apply app_nil_r.
Qed.

Lemma KeyShareEntryList_Size_whole (l : KeyShareEntryList.t) :
  Forall (fun e => len (KeyShareEntry.KeyExchange e) <= 65531) l ->
  len (concat (map wire_entry l)) <= 65535 ->
  KeyShareEntryList.Size l = len (concat (map wire_entry l)).
Proof.
  intros Hall Htotal. unfold len in *.
  rewrite (wire_sizes_concat l Hall) in *.
  unfold KeyShareEntryList.Size.
  rewrite (KeyShareEntryList_Size_exact l 0) by lia. lia.
Qed.

Lemma KeyShareEntryList_MarshalBinary_whole (l : KeyShareEntryList.t) :
  Forall (fun e => len (KeyShareEntry.KeyExchange e) <= 65531) l ->
  len (concat (map wire_entry l)) <= 65535 ->
  KeyShareEntryList.MarshalBinary l = Done (concat (map wire_entry l)).
Proof.
  intros Hall Htotal.
  rewrite (KeyShareEntryList_MarshalBinary_cut l Hall).
  rewrite (KeyShareEntryList_Size_whole l Hall Htotal).
  unfold len. rewrite Nat2Z.id. now rewrite firstn_all.
Qed.

(** X3: what the list encode returns when every entry's key fits: the
    entries' encodings one after the other, cut to [Size()] bytes. As
    long as the encodings total at most 65535 bytes, [Size()] is that total
    and nothing is cut; beyond that [Size()] has wrapped around and the
    output is silently shortened. *)
Theorem KeyShareEntryList_MarshalBinary_output (l : KeyShareEntryList.t) :
  Forall (fun e => len (KeyShareEntry.KeyExchange e) <= 65531) l ->
  KeyShareEntryList.MarshalBinary l
  = Done (firstn (Z.to_nat (KeyShareEntryList.Size l))
            (concat (map wire_entry l)))
  /\ (len (concat (map wire_entry l)) <= 65535 ->
      KeyShareEntryList.Size l = len (concat (map wire_entry l))
      /\ KeyShareEntryList.MarshalBinary l
         = Done (concat (map wire_entry l))).
Proof.
  intros Hall. split; [exact (KeyShareEntryList_MarshalBinary_cut l Hall) |].
  intros Htotal. split.
  - exact (KeyShareEntryList_Size_whole l Hall Htotal).
  - exact (KeyShareEntryList_MarshalBinary_whole l Hall Htotal).
Qed.

Lemma KeyShareEntryList_MarshalBinary_output_witness :
  KeyShareEntryList.MarshalBinary
    [KeyShareEntry.mk 0x001d [0xaa; 0xbb]; KeyShareEntry.mk 0x0017 [0xcc]]
  = Done [0; 0x1d; 0; 2; 0xaa; 0xbb; 0; 0x17; 0; 1; 0xcc].
Proof.
  assert (Hall : Forall
                   (fun e => len (KeyShareEntry.KeyExchange e) <= 65531)
                   [KeyShareEntry.mk 0x001d [0xaa; 0xbb];
                    KeyShareEntry.mk 0x0017 [0xcc]]).
  { repeat constructor; unfold len; cbn; lia. }
  refine (eq_trans
            (proj2 (proj2 (KeyShareEntryList_MarshalBinary_output _ Hall) _))
            _).
  - unfold len. cbn. lia.
  - reflexivity.
Defined.

Lemma wire_entry_fits_size (e : KeyShareEntry.t) :
  entry_fits e ->
  length (wire_entry e) = Z.to_nat (KeyShareEntry.Size e)
  /\ (4 <= length (wire_entry e))%nat.
Proof.
  intros [_ Hk]. split.
  - rewrite KeyShareEntry_Size_small by exact Hk.
    unfold wire_entry, len. rewrite !length_app. cbn [be16 length]. lia.
  - unfold wire_entry. rewrite !length_app. cbn [be16 length]. lia.
Qed.

Lemma Contains_false (l : KeyShareEntryList.t) (e : KeyShareEntry.t) :
  ~ In (KeyShareEntry.Group e) (map KeyShareEntry.Group l) ->
  KeyShareEntryList.Contains l e = false.
Proof.
  unfold KeyShareEntryList.Contains.
  induction l as [| x l IH]; cbn [map In existsb]; [reflexivity |].
  intros H. rewrite IH by tauto.
  destruct (Z.eqb_spec (KeyShareEntry.Group x) (KeyShareEntry.Group e));
    [tauto | reflexivity].
Qed.

Lemma Contains_true (l : KeyShareEntryList.t) (e : KeyShareEntry.t) :
  In (KeyShareEntry.Group e) (map KeyShareEntry.Group l) ->
  KeyShareEntryList.Contains l e = true.
Proof.
  unfold KeyShareEntryList.Contains.
  induction l as [| x l IH]; cbn [map In existsb]; [tauto |].
  intros [H | H].
  - rewrite H, Z.eqb_refl. reflexivity.
  - rewrite IH by exact H. apply orb_true_r.
Qed.

(** One round of the decode loop on an entry that stands at the position:
    the entry is appended and the position moves past the entry and one
    byte more. *)
Lemma KeyShareEntryList_unmarshal_loop_round
    (fuel : nat) (pre more : bytes) (e : KeyShareEntry.t)
    (acc : KeyShareEntryList.t) :
  entry_fits e ->
  KeyShareEntryList.unmarshal_loop (S fuel) (pre ++ wire_entry e ++ more)
    (length pre) acc
  = if KeyShareEntryList.Contains acc e
    then Some (Fail (errors_New "duplicate key share group"), acc)
    else KeyShareEntryList.unmarshal_loop fuel (pre ++ wire_entry e ++ more)
           (length pre + length (wire_entry e) + 1) (acc ++ [e]).
Proof.
  intros He. destruct (wire_entry_fits_size e He) as [Hsize Hpos].
  cbn [KeyShareEntryList.unmarshal_loop].
  replace ((length pre <? length (pre ++ wire_entry e ++ more))%nat)
    with true
    by (symmetry; apply Nat.ltb_lt; rewrite !length_app; lia).
  rewrite skipn_app, skipn_all, Nat.sub_diag.
  change (skipn 0 ?x) with x. cbn [app].
  destruct He as [Hg Hk].
  rewrite (KeyShareEntry_UnmarshalBinary_wire_entry e _ more Hg Hk).
  rewrite <- Hsize. reflexivity.
Qed.

Lemma spaced_length (pad : KeyShareEntry.t -> byte)
    (l : KeyShareEntryList.t) :
  (length l <= length (spaced pad l))%nat.
Proof.
  unfold spaced. induction l as [| e l IH]; cbn [map concat length];
    [lia |].
  rewrite !length_app. cbn [length]. lia.
Qed.

(** The rounds over entries that are each followed by one more byte. *)
Lemma KeyShareEntryList_unmarshal_loop_spaced
    (pad : KeyShareEntry.t -> byte) (rest : KeyShareEntryList.t)
    (fuel : nat) (pre more : bytes) (acc : KeyShareEntryList.t) :
  Forall entry_fits rest ->
  NoDup (map KeyShareEntry.Group (acc ++ rest)) ->
  KeyShareEntryList.unmarshal_loop (length rest + fuel)
    (pre ++ spaced pad rest ++ more) (length pre) acc
  = KeyShareEntryList.unmarshal_loop fuel
      (pre ++ spaced pad rest ++ more)
      (length pre + length (spaced pad rest)) (acc ++ rest).
Proof.
  intros Hall. revert pre acc.
  induction Hall as [| e rest He _ IH]; intros pre acc Hnd.
  - cbn [length Nat.add spaced map concat]. now rewrite Nat.add_0_r, app_nil_r.
  - unfold spaced. cbn [length Nat.add map concat]. fold (spaced pad rest).
    rewrite <- !app_assoc.
    rewrite KeyShareEntryList_unmarshal_loop_round by exact He.
    rewrite Contains_false.
    2:{ rewrite map_app in Hnd. cbn [map] in Hnd.
        apply NoDup_app in Hnd. destruct Hnd as (_ & Hnd & _).
        intros Hin. apply list_elem_of_In in Hin.
        apply (Hnd _ Hin). left. }
    specialize (IH (pre ++ wire_entry e ++ [pad e]) (acc ++ [e])).
    rewrite <- !app_assoc in IH. cbn [app] in IH.
    rewrite !length_app in IH. cbn [length] in IH.
    rewrite !length_app. cbn [length app].
    replace (length pre + length (wire_entry e) + 1)%nat
      with (length pre + (length (wire_entry e) + 1))%nat by lia.
    rewrite IH by exact Hnd.
    f_equal. lia.
Qed.

(** X4: the layout the list decode accepts is not the one the list
    encode writes. When every entry is followed by one more byte of any
    value (the last entry may do without it), the key types are distinct
    and the keys fit, the decode returns exactly the entries. *)
Theorem KeyShareEntryList_UnmarshalBinary_spaced
    (pad : KeyShareEntry.t -> byte) (l : KeyShareEntryList.t)
    (e : KeyShareEntry.t) (tail : bytes) :
  Forall entry_fits (l ++ [e]) ->
  NoDup (map KeyShareEntry.Group (l ++ [e])) ->
  (length tail <= 1)%nat ->
  KeyShareEntryList.UnmarshalBinary []
    (spaced pad l ++ wire_entry e ++ tail)
  = (Done tt, l ++ [e]).
Proof.
  intros Hall Hnd Htail.
  apply Forall_app in Hall. destruct Hall as [Hl He].
  apply Forall_inv in He.
  pose proof (KeyShareEntryList_UnmarshalBinary_loop []
                (spaced pad l ++ wire_entry e ++ tail)) as Hloop.
  pose proof (spaced_length pad l) as Hsp.
  destruct (wire_entry_fits_size e He) as [Hsize Hpos].
  set (data := spaced pad l ++ wire_entry e ++ tail) in *.
  assert (Hlen : length data
                 = (length (spaced pad l) + length (wire_entry e)
                    + length tail)%nat)
    by (unfold data; rewrite !length_app; lia).
  replace (S (length data))
    with (length l + S (length data - length l))%nat in Hloop by lia.
  pose proof (KeyShareEntryList_unmarshal_loop_spaced pad l
                (S (length data - length l)) [] (wire_entry e ++ tail) []
                Hl) as Hrounds.
  cbn [app length Nat.add] in Hrounds. fold data in Hrounds.
  rewrite Hrounds in Hloop
    by (rewrite map_app in Hnd; now apply NoDup_app in Hnd).
  clear Hrounds.
  pose proof (KeyShareEntryList_unmarshal_loop_round
                (length data - length l) (spaced pad l) tail e l He)
    as Hround.
  fold data in Hround. rewrite Hround in Hloop. clear Hround.
  rewrite Contains_false in Hloop.
  2:{ rewrite map_app in Hnd. cbn [map] in Hnd.
      apply NoDup_app in Hnd. destruct Hnd as (_ & Hnd & _).
      intros Hin. apply list_elem_of_In in Hin.
      apply (Hnd _ Hin). left. }
  destruct (length data - length l)%nat as [| fuel];
    cbn [KeyShareEntryList.unmarshal_loop] in Hloop;
    replace ((length (spaced pad l) + length (wire_entry e) + 1
              <? length data)%nat) with false in Hloop
      by (symmetry; apply Nat.ltb_ge; lia);
    now injection Hloop as <-.
Qed.

Lemma KeyShareEntryList_UnmarshalBinary_spaced_witness :
  KeyShareEntryList.UnmarshalBinary []
    [0; 0x1d; 0; 2; 0xaa; 0xbb; 0xff; 0; 0x17; 0; 1; 0xcc]
  = (Done tt,
     [KeyShareEntry.mk 0x001d [0xaa; 0xbb]; KeyShareEntry.mk 0x0017 [0xcc]]).
Proof.
  apply (KeyShareEntryList_UnmarshalBinary_spaced (fun _ => 0xff)
           [KeyShareEntry.mk 0x001d [0xaa; 0xbb]]
           (KeyShareEntry.mk 0x0017 [0xcc]) []).
  - repeat constructor; unfold len; cbn; lia.
  - cbn. apply NoDup_ListNoDup. repeat constructor; cbn; lia.
  - cbn. lia.
Defined.

(** X5: on that layout the duplicate check does its work. An entry whose
    key type is already in the list read so far stops the decode with the
    duplicate error, and the list holds the entries before it. *)
Theorem KeyShareEntryList_UnmarshalBinary_duplicate
    (pad : KeyShareEntry.t -> byte) (l : KeyShareEntryList.t)
    (e : KeyShareEntry.t) (tail : bytes) :
  Forall entry_fits (l ++ [e]) ->
  NoDup (map KeyShareEntry.Group l) ->
  In (KeyShareEntry.Group e) (map KeyShareEntry.Group l) ->
  KeyShareEntryList.UnmarshalBinary []
    (spaced pad l ++ wire_entry e ++ tail)
  = (Fail (errors_New "duplicate key share group"), l).
Proof.
  intros Hall Hnd Hin.
  apply Forall_app in Hall. destruct Hall as [Hl He].
  apply Forall_inv in He.
  pose proof (KeyShareEntryList_UnmarshalBinary_loop []
                (spaced pad l ++ wire_entry e ++ tail)) as Hloop.
  pose proof (spaced_length pad l) as Hsp.
  set (data := spaced pad l ++ wire_entry e ++ tail) in *.
  assert (Hlen : (length (spaced pad l) <= length data)%nat)
    by (unfold data; rewrite !length_app; lia).
  replace (S (length data))
    with (length l + S (length data - length l))%nat in Hloop by lia.
  pose proof (KeyShareEntryList_unmarshal_loop_spaced pad l
                (S (length data - length l)) [] (wire_entry e ++ tail) []
                Hl) as Hrounds.
  cbn [app length Nat.add] in Hrounds. fold data in Hrounds.
  rewrite Hrounds in Hloop by exact Hnd. clear Hrounds.
  pose proof (KeyShareEntryList_unmarshal_loop_round
                (length data - length l) (spaced pad l) tail e l He)
    as Hround.
  fold data in Hround. rewrite Hround in Hloop. clear Hround.
  rewrite Contains_true in Hloop by exact Hin.
  now injection Hloop as <-.
Qed.

Lemma KeyShareEntryList_UnmarshalBinary_duplicate_witness :
  KeyShareEntryList.UnmarshalBinary []
    [0; 0x1d; 0; 1; 0xaa; 0x00; 0; 0x1d; 0; 1; 0xbb]
  = (Fail (errors_New "duplicate key share group"),
     [KeyShareEntry.mk 0x001d [0xaa]]).
Proof.
  apply (KeyShareEntryList_UnmarshalBinary_duplicate (fun _ => 0)
           [KeyShareEntry.mk 0x001d [0xaa]]
           (KeyShareEntry.mk 0x001d [0xbb]) []).
  - repeat constructor; unfold len; cbn; lia.
  - cbn. apply NoDup_ListNoDup. repeat constructor; cbn; lia.
  - cbn. tauto.
Defined.

Lemma KeyShareEntryList_unmarshal_loop_distinct
    (fuel : nat) (data : bytes) (pos : nat) (acc out : KeyShareEntryList.t)
    (r : res unit) :
  NoDup (map KeyShareEntry.Group acc) ->
  KeyShareEntryList.unmarshal_loop fuel data pos acc = Some (r, out) ->
  NoDup (map KeyShareEntry.Group out).
Proof.
  revert pos acc. induction fuel as [| fuel IH]; intros pos acc Hnd;
    cbn [KeyShareEntryList.unmarshal_loop];
    destruct (pos <? length data)%nat;
    try discriminate;
    try (intros [= <- <-]; exact Hnd).
  destruct (KeyShareEntry.UnmarshalBinary _ _) as [[[] | err |] entry];
    try (intros [= <- <-]; exact Hnd).
  destruct (KeyShareEntryList.Contains acc entry) eqn:Hc;
    [intros [= <- <-]; exact Hnd |].
  apply IH. rewrite map_app. cbn [map].
  apply NoDup_app. split; [exact Hnd |]. split.
  - intros g Hg Hin. apply list_elem_of_singleton in Hin. subst g.
    apply list_elem_of_In in Hg.
    rewrite (Contains_true acc entry Hg) in Hc. discriminate.
  - apply NoDup_singleton.
Qed.

(** X6: whatever the input, and whether the decode ends well or not, the
    list the decode leaves behind never holds two entries of one key type,
    provided the list it started from did not. *)
Theorem KeyShareEntryList_UnmarshalBinary_distinct
    (l : KeyShareEntryList.t) (data : bytes) :
  NoDup (map KeyShareEntry.Group l) ->
  NoDup (map KeyShareEntry.Group
           (snd (KeyShareEntryList.UnmarshalBinary l data))).
Proof.
  intros Hnd.
  pose proof (KeyShareEntryList_UnmarshalBinary_loop l data) as Hloop.
  destruct (KeyShareEntryList.UnmarshalBinary l data) as [r out].
  exact (KeyShareEntryList_unmarshal_loop_distinct _ _ _ _ _ _ Hnd Hloop).
Qed.

Lemma KeyShareEntryList_UnmarshalBinary_distinct_witness :
  NoDup (map KeyShareEntry.Group
           (snd (KeyShareEntryList.UnmarshalBinary
                   [KeyShareEntry.mk 0x0017 [0xcc]]
                   [0; 0x1d; 0; 1; 0xaa; 0; 0; 0x17; 0; 1; 0xbb]))).
Proof.
  apply (KeyShareEntryList_UnmarshalBinary_distinct
           [KeyShareEntry.mk 0x0017 [0xcc]]).
  cbn. apply NoDup_ListNoDup. repeat constructor; cbn; lia.
Defined.

(** X7: which lists the list codec gives back. For entries that fit, the
    decode of the encoding of a list returns the list exactly when the
    list has at most one entry. *)
Theorem KeyShareEntryList_roundtrip_iff
    (l : KeyShareEntryList.t) (data : bytes) :
  Forall entry_fits l ->
  KeyShareEntryList.MarshalBinary l = Done data ->
  KeyShareEntryList.UnmarshalBinary [] data = (Done tt, l)
  <-> (length l <= 1)%nat.
Proof.
  intros Hall Hm. split.
  - intros Hu. destruct (Nat.le_gt_cases (length l) 1) as [H | H];
      [exact H |].
    exfalso. exact (KeyShareEntryList_roundtrip_never l data H Hm Hu).
  - intros Hlen. destruct l as [| e [| e' l]]; [| | cbn in Hlen; lia].
    + cbv in Hm. injection Hm as <-. reflexivity.
    + apply Forall_inv in Hall. destruct Hall as [Hg Hk].
      rewrite (KeyShareEntryList_MarshalBinary_whole [e]) in Hm.
      * injection Hm as <-. cbn [map concat]. rewrite app_nil_r.
        exact (KeyShareEntryList_UnmarshalBinary_one e Hg Hk).
      * repeat constructor. exact Hk.
      * cbn [map concat]. rewrite app_nil_r. unfold wire_entry, len in *.
        rewrite !length_app. cbn [be16 length]. lia.
Qed.

Lemma KeyShareEntryList_roundtrip_iff_witness :
  KeyShareEntryList.UnmarshalBinary []
    [0; 0x1d; 0; 2; 0xaa; 0xbb; 0; 0x17; 0; 1; 0xcc]
  = (Done tt,
     [KeyShareEntry.mk 0x001d [0xaa; 0xbb]; KeyShareEntry.mk 0x0017 [0xcc]])
  <-> le (length [KeyShareEntry.mk 0x001d [0xaa; 0xbb];
                  KeyShareEntry.mk 0x0017 [0xcc]]) 1%nat.
Proof.
  apply (KeyShareEntryList_roundtrip_iff
           [KeyShareEntry.mk 0x001d [0xaa; 0xbb];
            KeyShareEntry.mk 0x0017 [0xcc]]).
  - repeat constructor; unfold len; cbn; lia.
  - reflexivity.
Defined.

(** ** extensions.go: the Address Set extension *)

(** X8: a well-formed payload, each address behind its family tag, is
    decoded in order, and the addresses are appended to those the receiver
    already holds: the decode does not reset its receiver. *)
Theorem AddressSet_UnmarshalBinary_appends
    (set : AddressSet.t) (ips : list IP) :
  Forall address_length_ok ips ->
  AddressSet.UnmarshalBinary set (concat (map tagged ips))
  = (Done tt, AddressSet.mk (AddressSet.Addresses set ++ ips)).
Proof.
  intros Hall. unfold AddressSet.UnmarshalBinary.
  pose proof (tagged_length ips) as Hlen.
  replace (S (length (concat (map tagged ips))))
    with (length ips + S (length (concat (map tagged ips)) - length ips))%nat
    by lia.
  rewrite <- (app_nil_r (concat (map tagged ips))) at 2.
  rewrite AddressSet_loop_well_formed by exact Hall.
  reflexivity.
Qed.

Lemma AddressSet_UnmarshalBinary_appends_witness :
  AddressSet.UnmarshalBinary (AddressSet.mk [[9; 9; 9; 9]])
    [4; 1; 2; 3; 4; 6; 0xfe; 0x80; 0; 0; 0; 0; 0; 0; 0; 0; 0; 0; 0; 0; 0; 1]
  = (Done tt,
     AddressSet.mk
       [[9; 9; 9; 9]; [1; 2; 3; 4];
        [0xfe; 0x80; 0; 0; 0; 0; 0; 0; 0; 0; 0; 0; 0; 0; 0; 1]]).
Proof.
  apply (AddressSet_UnmarshalBinary_appends (AddressSet.mk [[9; 9; 9; 9]])
           [[1; 2; 3; 4];
            [0xfe; 0x80; 0; 0; 0; 0; 0; 0; 0; 0; 0; 0; 0; 0; 0; 1]]).
  repeat constructor; cbn; lia.
Defined.

(** X9: a family tag other than 4 and 6 stops the decode with the error
    for an unsupported address type, whatever follows the tag; the
    addresses read before it stay in the receiver. *)
Theorem AddressSet_UnmarshalBinary_unknown_tag
    (set : AddressSet.t) (ips : list IP) (tag : byte) (more : bytes) :
  Forall address_length_ok ips ->
  tag <> 4 -> tag <> 6 ->
  AddressSet.UnmarshalBinary set (concat (map tagged ips) ++ tag :: more)
  = (Fail (errors_New "unsupported address type"),
     AddressSet.mk (AddressSet.Addresses set ++ ips)).
Proof.
  intros Hall H4 H6. unfold AddressSet.UnmarshalBinary.
  pose proof (tagged_length ips) as Hlen.
  replace (S (length (concat (map tagged ips) ++ tag :: more)))
    with (length ips
          + S (length (concat (map tagged ips) ++ tag :: more)
               - length ips))%nat
    by (rewrite length_app; lia).
  rewrite AddressSet_loop_well_formed by exact Hall.
  cbn [AddressSet.unmarshal_loop length Nat.ltb Nat.leb nth].
  destruct (Z.eqb_spec tag 4) as [E | _]; [contradiction |].
  destruct (Z.eqb_spec tag 6) as [E | _]; [contradiction |].
  reflexivity.
Qed.

Lemma AddressSet_UnmarshalBinary_unknown_tag_witness :
  AddressSet.UnmarshalBinary AddressSet.new [4; 1; 2; 3; 4; 5; 7; 7]
  = (Fail (errors_New "unsupported address type"),
     AddressSet.mk [[1; 2; 3; 4]]).
Proof.
  apply (AddressSet_UnmarshalBinary_unknown_tag AddressSet.new
           [[1; 2; 3; 4]] 5 [7; 7]).
  - repeat constructor; cbn; lia.
  - lia.
  - lia.
Defined.

(** X10: the Address Set codec gives back no set but the empty one. As
    soon as [Size()] is not zero the encoding starts with a zero byte, which
    the decode reads as a family tag and rejects, leaving its receiver as it
    was. *)
Theorem AddressSet_roundtrip_rejected
    (set receiver : AddressSet.t) :
  0 < AddressSet.Size set ->
  exists data,
    AddressSet.MarshalBinary set = Done data
    /\ AddressSet.UnmarshalBinary receiver data
       = (Fail (errors_New "unsupported address type"), receiver).
Proof.
  intros Hsize. eexists. split; [apply AddressSet_MarshalBinary_bytes |].
  destruct (Z.to_nat (AddressSet.Size set)) as [| n] eqn:Hn; [lia |].
  unfold make. cbn [repeat app].
  unfold AddressSet.UnmarshalBinary.
  cbn [AddressSet.unmarshal_loop length Nat.ltb Nat.leb nth].
  reflexivity.
Qed.

Lemma AddressSet_roundtrip_rejected_witness :
  exists data,
    AddressSet.MarshalBinary (AddressSet.mk [[1; 2; 3; 4]]) = Done data
    /\ AddressSet.UnmarshalBinary AddressSet.new data
       = (Fail (errors_New "unsupported address type"), AddressSet.new).
Proof.
  apply (AddressSet_roundtrip_rejected (AddressSet.mk [[1; 2; 3; 4]])
           AddressSet.new).
  reflexivity.
Defined.

Lemma To4_length (ip ipv4 : IP) : To4 ip = Some ipv4 -> length ipv4 = 4%nat.
Proof.
  unfold To4. destruct (Nat.eqb_spec (length ip) 4) as [H4 | _].
  - intros [= <-]. exact H4.
  - destruct (Nat.eqb_spec (length ip) 16) as [H16 | _];
      cbn [andb]; [| discriminate].
    destruct (forallb _ _ && _ && _); [| discriminate].
    intros [= <-]. rewrite length_firstn, length_skipn. lia.
Qed.

Lemma To4_of_4 (ip : IP) : length ip = 4%nat -> To4 ip = Some ip.
Proof. intros H. unfold To4. now rewrite H. Qed.

Lemma written_address_plain (ip : IP) :
  address_length_ok ip -> plain_address (written_address ip).
Proof.
  intros Hok. unfold written_address, plain_address.
  destruct (To4 ip) as [ipv4 |] eqn:E.
  - left. exact (To4_length _ _ E).
  - destruct Hok as [H | H]; [| now right].
    rewrite (To4_of_4 ip H) in E. discriminate.
Qed.

Lemma plain_address_ok (ip : IP) : plain_address ip -> address_length_ok ip.
Proof. unfold plain_address, address_length_ok. tauto. Qed.

Lemma written_address_tagged (ip : IP) :
  address_length_ok ip ->
  match To4 ip with
  | Some ipv4 => 4 :: ipv4
  | None => 6 :: ip
  end = tagged (written_address ip).
Proof.
  intros Hok. unfold written_address, tagged.
  destruct (To4 ip) as [ipv4 |] eqn:E.
  - now rewrite (To4_length _ _ E).
  - destruct Hok as [H | H].
    + rewrite (To4_of_4 ip H) in E. discriminate.
    + now rewrite H.
Qed.

Lemma AddressSet_Size_fold (ips : list IP) (size : Z) :
  Forall address_length_ok ips ->
  0 <= size ->
  size + len (concat (map tagged (map written_address ips))) <= 65535 ->
  fold_left
    (fun size ip =>
       let size := uint16 (size + 1) in
       match To4 ip with
       | Some _ => uint16 (size + IPv4len)
       | None => uint16 (size + IPv6len)
       end) ips size
  = size + len (concat (map tagged (map written_address ips))).
Proof.
  intros Hall. revert size.
  induction Hall as [| ip ips Hip _ IH]; intros size Hs Hle;
    cbn [fold_left map concat] in *; [unfold len; cbn; lia |].
  unfold len in *. rewrite length_app in *.
  assert (Hone : length (tagged (written_address ip))
                 = match To4 ip with Some _ => 5%nat | None => 17%nat end).
  { unfold tagged, written_address. cbn [length].
    destruct (To4 ip) as [ipv4 |] eqn:E.
    - now rewrite (To4_length _ _ E).
    - destruct Hip as [H | H]; [| now rewrite H].
      rewrite (To4_of_4 ip H) in E. discriminate. }
  rewrite Hone in *.
  assert (Hu1 : uint16 (size + 1) = size + 1)
    by (apply Z.mod_small; destruct (To4 ip); lia).
  rewrite Hu1. unfold IPv4len, IPv6len.
  destruct (To4 ip).
  - replace (uint16 (size + 1 + 4)) with (size + 5)
      by (symmetry; unfold uint16; rewrite Z.mod_small; lia).
    rewrite IH by lia. lia.
  - replace (uint16 (size + 1 + 16)) with (size + 17)
      by (symmetry; unfold uint16; rewrite Z.mod_small; lia).
    rewrite IH by lia. lia.
Qed.

(** X11: what the Address Set encode writes for addresses of 4 or 16
    bytes. The output is [Size()] zero bytes followed by the payload; the
    payload by itself decodes to the addresses, those with a 4-byte form
    shortened to it; and as long as the payload has at most 65535 bytes,
    [Size()] is its length, so the output is twice as long as [Size()]
    says. *)
Theorem AddressSet_MarshalBinary_payload (ips : list IP) :
  Forall address_length_ok ips ->
  exists payload,
    AddressSet.MarshalBinary (AddressSet.mk ips)
    = Done (make (Z.to_nat (AddressSet.Size (AddressSet.mk ips)))
            ++ payload)
    /\ AddressSet.UnmarshalBinary AddressSet.new payload
       = (Done tt, AddressSet.mk (map written_address ips))
    /\ (len payload <= 65535 ->
        AddressSet.Size (AddressSet.mk ips) = len payload).
Proof.
  intros Hall.
  exists (concat (map tagged (map written_address ips))).
  assert (Hplain : Forall address_length_ok (map written_address ips)).
  { apply List.Forall_map. eapply List.Forall_impl; [| exact Hall].
    intros ip Hip. apply plain_address_ok, written_address_plain, Hip. }
  split; [| split].
  - rewrite AddressSet_MarshalBinary_bytes. cbn [AddressSet.Addresses].
    do 3 f_equal. rewrite map_map.
    apply map_ext_Forall. eapply List.Forall_impl; [| exact Hall].
    intros ip Hip. apply written_address_tagged, Hip.
  - exact (AddressSet_UnmarshalBinary_well_formed _ Hplain).
  - intros Hle.
    transitivity (0 + len (concat (map tagged (map written_address ips))));
      [| lia].
    apply (AddressSet_Size_fold ips 0 Hall); lia.
Qed.

Lemma AddressSet_MarshalBinary_payload_witness :
  exists payload,
    AddressSet.MarshalBinary
      (AddressSet.mk [[0; 0; 0; 0; 0; 0; 0; 0; 0; 0; 0xff; 0xff; 1; 2; 3; 4]])
    = Done (make (Z.to_nat
                    (AddressSet.Size
                       (AddressSet.mk
                          [[0; 0; 0; 0; 0; 0; 0; 0; 0; 0; 0xff; 0xff;
                            1; 2; 3; 4]])))
            ++ payload)
    /\ AddressSet.UnmarshalBinary AddressSet.new payload
       = (Done tt,
          AddressSet.mk
            (map written_address
               [[0; 0; 0; 0; 0; 0; 0; 0; 0; 0; 0xff; 0xff; 1; 2; 3; 4]]))
    /\ (len payload <= 65535 ->
        AddressSet.Size
          (AddressSet.mk
             [[0; 0; 0; 0; 0; 0; 0; 0; 0; 0; 0xff; 0xff; 1; 2; 3; 4]])
        = len payload).
Proof.
  apply (AddressSet_MarshalBinary_payload
           [[0; 0; 0; 0; 0; 0; 0; 0; 0; 0; 0xff; 0xff; 1; 2; 3; 4]]).
  constructor; [right; reflexivity | constructor].
Defined.

(** ** extension.go: the registry of extension types *)

(** X12: registering a type that has no generator yet succeeds; from then
    on the type has the generator and the name that were given, every other
    type answers as before, and registering the type once more panics and
    changes nothing. *)
Theorem RegisterExtensionType_fresh
    (reg : Registry) (extType : ExtensionType) (name : string)
    (generator : unit -> ExtensionValue) :
  Generator reg extType = None ->
  exists reg',
    RegisterExtensionType extType name generator reg = (Done tt, reg')
    /\ Generator reg' extType = Some generator
    /\ ExtensionType_String reg' extType = name
    /\ (forall other, other <> extType ->
        Generator reg' other = Generator reg other
        /\ ExtensionType_String reg' other = ExtensionType_String reg other)
    /\ (forall name' generator',
        RegisterExtensionType extType name' generator' reg' = (Panic, reg')).
Proof.
  unfold Generator, RegisterExtensionType, ExtensionType_String.
  intros Hnone. rewrite Hnone. eexists. split; [reflexivity |].
  cbn [ExtensionType_generator ExtensionType_name].
  rewrite !lookup_insert_eq. repeat split.
  - rewrite lookup_insert_ne by congruence. reflexivity.
  - rewrite lookup_insert_ne by congruence. reflexivity.
Qed.

Lemma RegisterExtensionType_fresh_witness :
  exists reg',
    RegisterExtensionType ExtensionTypeAddressSet "address_set"
      (fun _ => PackExtension AddressSet.new) empty_registry
    = (Done tt, reg')
    /\ Generator reg' ExtensionTypeAddressSet
       = Some (fun _ => PackExtension AddressSet.new)
    /\ ExtensionType_String reg' ExtensionTypeAddressSet = "address_set"%string
    /\ (forall other, other <> ExtensionTypeAddressSet ->
        Generator reg' other = Generator empty_registry other
        /\ ExtensionType_String reg' other
           = ExtensionType_String empty_registry other)
    /\ (forall name' generator',
        RegisterExtensionType ExtensionTypeAddressSet name' generator' reg'
        = (Panic, reg')).
Proof.
  apply (RegisterExtensionType_fresh empty_registry ExtensionTypeAddressSet
           "address_set" (fun _ => PackExtension AddressSet.new)).
  reflexivity.
Defined.

Lemma land_4096 (x : Z) :
  Z.land x 4096 = if Z.testbit x 12 then 4096 else 0.
Proof.
  apply Z.bits_inj'. intros n Hn.
  rewrite Z.land_spec.
  change 4096 with (2 ^ 12).
  rewrite Z.pow2_bits_eqb by lia.
  destruct (Z.eqb_spec 12 n) as [<- | Hne].
  - rewrite andb_true_r. destruct (Z.testbit x 12).
    + now rewrite Z.pow2_bits_eqb, Z.eqb_refl by lia.
    + now rewrite Z.bits_0.
  - rewrite andb_false_r. destruct (Z.testbit x 12).
    + rewrite Z.pow2_bits_eqb by lia.
      symmetry. now apply Z.eqb_neq.
    + now rewrite Z.bits_0.
Qed.

(** X13: which types [Mandatory] reports. The mask is 4096, so a type is
    mandatory exactly when bit 12 of its identifier is set, whatever the
    other bits, the highest (bit 15) included; the Address Set type is
    mandatory and the type 0x8000 is not. *)
Theorem Mandatory_bit_12 (extType : ExtensionType) :
  Mandatory extType = Z.testbit extType 12
  /\ Mandatory ExtensionTypeAddressSet = true
  /\ Mandatory 0x8000 = false.
Proof.
  split; [| split; reflexivity].
  unfold Mandatory, mandatoryExtensionMask. rewrite land_4096.
  unfold uint16. change 65536 with (2 ^ 16).
  rewrite Z.mod_pow2_bits_low by lia.
  now destruct (Z.testbit extType 12).
Qed.

(** ** extension.go: lists of extensions *)

(** X14: how the list decode fails at an extension it cannot read. A type
    identifier without a registered generator gives the error for an
    unsupported type, carrying the identifier; a single byte where an
    identifier should start makes the decode panic. In both cases the list
    is left as it was. *)
Theorem ExtensionList_UnmarshalBinary_unreadable
    (reg : Registry) (list : ExtensionList.t) (extType : ExtensionType)
    (more : bytes) (b : byte) :
  (0 <= extType < 65536 ->
   Generator reg extType = None ->
   ExtensionList.UnmarshalBinary reg list (be16 extType ++ more)
   = (Fail (errors_Wrapf ErrUnsupportedExtensionType "extension_type(%d)"
              extType), list))
  /\ ExtensionList.UnmarshalBinary reg list [b] = (Panic, list).
Proof.
  split; [| reflexivity].
  intros Hrange Hnone. unfold ExtensionList.UnmarshalBinary.
  cbn [be16 app length ExtensionList.unmarshal_loop Nat.ltb Nat.leb].
  change (skipn 0 ?l) with l. cbn [Uint16].
  rewrite be16_value by exact Hrange. now rewrite Hnone.
Qed.

Lemma ExtensionList_UnmarshalBinary_unreadable_witness :
  ExtensionList.UnmarshalBinary package_registry [] [0x10; 0x02; 4; 1; 2; 3; 4]
  = (Fail (errors_Wrapf ErrUnsupportedExtensionType "extension_type(%d)"
             0x1002), []).
Proof.
  apply (proj1 (ExtensionList_UnmarshalBinary_unreadable package_registry []
                  0x1002 [4; 1; 2; 3; 4] 0)).
  - lia.
  - reflexivity.
Defined.

Lemma written_address_of_plain (ips : list IP) :
  Forall plain_address ips -> map written_address ips = ips.
Proof.
  induction 1 as [| ip ips Hip _ IH]; cbn [map]; [reflexivity |].
  rewrite IH. f_equal. unfold written_address.
  destruct Hip as [H | [_ H]]; [now rewrite (To4_of_4 ip H) | now rewrite H].
Qed.

Lemma AddressSet_Size_plain (ips : list IP) :
  Forall plain_address ips ->
  len (concat (map tagged ips)) <= 65535 ->
  AddressSet.Size (AddressSet.mk ips) = len (concat (map tagged ips)).
Proof.
  intros Hall Hle.
  assert (Hok : Forall address_length_ok ips)
    by (eapply List.Forall_impl; [| exact Hall]; apply plain_address_ok).
  pose proof (AddressSet_Size_fold ips 0 Hok) as H.
  rewrite (written_address_of_plain ips Hall) in H.
  transitivity (0 + len (concat (map tagged ips))); [| lia].
  apply H; lia.
Qed.

(** One round of the list decode on an extension whose type has a
    generator: the extension is handed every byte after its type
    identifier, and the position then moves by what [Size()] of the decoded
    extension says, and 2. *)
Lemma ExtensionList_unmarshal_loop_round
    (reg : Registry) (fuel : nat) (pre : bytes) (extType : ExtensionType)
    (payload : bytes) (exts : ExtensionList.t)
    (gen : unit -> ExtensionValue) (ext : ExtensionValue) :
  0 <= extType < 65536 ->
  Generator reg extType = Some gen ->
  ev_UnmarshalBinary (gen tt) payload = (Done tt, ext) ->
  ExtensionList.unmarshal_loop reg (S fuel) (pre ++ be16 extType ++ payload)
    (length pre) exts
  = ExtensionList.unmarshal_loop reg fuel (pre ++ be16 extType ++ payload)
      (length pre + Z.to_nat (ev_Size ext) + 2) (exts ++ [ext]).
Proof.
  intros Hrange Hgen Hext.
  cbn [ExtensionList.unmarshal_loop].
  replace ((length pre <? length (pre ++ be16 extType ++ payload))%nat)
    with true
    by (symmetry; apply Nat.ltb_lt; rewrite !length_app; cbn [be16 length];
        lia).
  rewrite skipn_app, skipn_all, Nat.sub_diag.
  change (skipn 0 ?l) with l. cbn [app be16 Uint16].
  rewrite be16_value by exact Hrange. rewrite Hgen.
  unfold slice_from.
  replace ((length pre + 2 <=? length (pre ++ _ :: _ :: payload))%nat)
    with true
    by (symmetry; apply Nat.leb_le; rewrite !length_app; cbn [length]; lia).
  replace (skipn (length pre + 2) (pre ++ _ :: _ :: payload)) with payload.
  2:{ rewrite skipn_app, (skipn_all2 pre) by lia.
      replace (length pre + 2 - length pre)%nat with 2%nat by lia.
      reflexivity. }
  rewrite Hext. reflexivity.
Qed.

Lemma ExtensionList_unmarshal_loop_done
    (reg : Registry) (fuel : nat) (data : bytes) (pos : nat)
    (exts : ExtensionList.t) :
  (length data <= pos)%nat ->
  ExtensionList.unmarshal_loop reg fuel data pos exts = Some (Done tt, exts).
Proof.
  intros H. destruct fuel; cbn [ExtensionList.unmarshal_loop];
    replace ((pos <? length data)%nat) with false
      by (symmetry; apply Nat.ltb_ge; lia);
    reflexivity.
Qed.

Lemma AddressSet_ev_UnmarshalBinary (ips : list IP) :
  Forall address_length_ok ips ->
  ev_UnmarshalBinary (PackExtension AddressSet.new) (concat (map tagged ips))
  = (Done tt, PackExtension (AddressSet.mk ips)).
Proof.
  intros Hok. unfold ev_UnmarshalBinary.
  cbn [ext_methods ext_value ext_UnmarshalBinary AddressSet_Extension].
  now rewrite (AddressSet_UnmarshalBinary_well_formed ips Hok).
Qed.

(** X15: the list decode on one Address Set extension, with the registry
    of the package. The type identifier 0x1001 followed by a well-formed
    payload of at most 65535 bytes, to the end of the input, appends one
    Address Set with the addresses of the payload, provided no 16-byte
    address has a 4-byte form. *)
Theorem ExtensionList_UnmarshalBinary_address_set
    (exts : ExtensionList.t) (ips : list IP) :
  Forall plain_address ips ->
  len (concat (map tagged ips)) <= 65535 ->
  ExtensionList.UnmarshalBinary package_registry exts
    (be16 ExtensionTypeAddressSet ++ concat (map tagged ips))
  = (Done tt, exts ++ [PackExtension (AddressSet.mk ips)]).
Proof.
  intros Hall Hle.
  assert (Hok : Forall address_length_ok ips)
    by (eapply List.Forall_impl; [| exact Hall]; apply plain_address_ok).
  unfold ExtensionList.UnmarshalBinary.
  rewrite length_app. cbn [be16 length Nat.add].
  pose proof (ExtensionList_unmarshal_loop_round package_registry
                (S (S (length (concat (map tagged ips))))) []
                ExtensionTypeAddressSet (concat (map tagged ips)) exts
                (fun _ => PackExtension AddressSet.new)
                (PackExtension (AddressSet.mk ips))
                ltac:(unfold ExtensionTypeAddressSet; lia) eq_refl
                (AddressSet_ev_UnmarshalBinary ips Hok)) as Hround.
  cbn [app length be16] in Hround |- *. rewrite Hround.
  rewrite ExtensionList_unmarshal_loop_done; [reflexivity |].
  unfold ev_Size.
  cbn [ext_methods ext_value ext_Size AddressSet_Extension length].
  rewrite (AddressSet_Size_plain ips Hall Hle).
  unfold len. lia.
Qed.

Lemma ExtensionList_UnmarshalBinary_address_set_witness :
  ExtensionList.UnmarshalBinary package_registry []
    [0x10; 0x01; 4; 1; 2; 3; 4; 4; 5; 6; 7; 8]
  = (Done tt,
     [PackExtension (AddressSet.mk [[1; 2; 3; 4]; [5; 6; 7; 8]])]).
Proof.
  apply (ExtensionList_UnmarshalBinary_address_set []
           [[1; 2; 3; 4]; [5; 6; 7; 8]]).
  - repeat constructor.
  - unfold len. cbn. lia.
Defined.

(** X16: the list decode loses its place after an Address Set that holds
    a 16-byte address with a 4-byte form. The address is read as 16 bytes,
    but [Size()] of the decoded set counts it as 4, so the position lands
    inside the address, on two of its leading zero bytes, and the decode
    fails on the extension type 0 with the set already appended. *)
Theorem ExtensionList_UnmarshalBinary_mapped_address
    (exts : ExtensionList.t) (ip ipv4 : IP) :
  length ip = 16%nat ->
  To4 ip = Some ipv4 ->
  ExtensionList.UnmarshalBinary package_registry exts
    (be16 ExtensionTypeAddressSet ++ 6 :: ip)
  = (Fail (errors_Wrapf ErrUnsupportedExtensionType "extension_type(%d)" 0),
     exts ++ [PackExtension (AddressSet.mk [ip])]).
Proof.
  intros Hlen H4.
  assert (Hsize : AddressSet.Size (AddressSet.mk [ip]) = 5).
  { unfold AddressSet.Size. cbn [AddressSet.Addresses fold_left].
    rewrite H4. reflexivity. }
  assert (Hzero : nth 4 ip 0 = 0 /\ nth 5 ip 0 = 0).
  { unfold To4 in H4. rewrite Hlen in H4. cbn [Nat.eqb] in H4.
    destruct (forallb (Z.eqb 0) (firstn 10 ip)) eqn:Hall;
      [| discriminate H4].
    do 6 (destruct ip as [| ? ip]; [discriminate Hlen |]).
    cbn [firstn forallb] in Hall.
    repeat (apply andb_prop in Hall; destruct Hall as [? Hall]).
    cbn [nth]. split; symmetry; now apply Z.eqb_eq. }
  unfold ExtensionList.UnmarshalBinary.
  rewrite length_app. cbn [be16 length Nat.add]. rewrite Hlen.
  pose proof (ExtensionList_unmarshal_loop_round package_registry
                19 [] ExtensionTypeAddressSet (6 :: ip) exts
                (fun _ => PackExtension AddressSet.new)
                (PackExtension (AddressSet.mk [ip]))
                ltac:(unfold ExtensionTypeAddressSet; lia) eq_refl) as Hround.
  cbn [app length be16] in Hround |- *. rewrite Hround; clear Hround.
  2:{ pose proof (AddressSet_ev_UnmarshalBinary [ip]) as H.
      cbn [map concat] in H. unfold tagged in H.
      rewrite Hlen, app_nil_r in H. apply H.
      constructor; [now right | constructor]. }
  unfold ev_Size.
  cbn [ext_methods ext_value ext_Size AddressSet_Extension].
  rewrite Hsize. change (0 + Z.to_nat 5 + 2)%nat with 7%nat.
  do 6 (destruct ip as [| ? ip]; [discriminate Hlen |]).
  cbn [nth] in Hzero. destruct Hzero as [-> ->].
  cbn [ExtensionList.unmarshal_loop length].
  replace ((7 <? _)%nat) with true
    by (symmetry; apply Nat.ltb_lt; cbn [length] in Hlen; lia).
  reflexivity.
Qed.

Lemma ExtensionList_UnmarshalBinary_mapped_address_witness :
  ExtensionList.UnmarshalBinary package_registry []
    [0x10; 0x01; 6; 0; 0; 0; 0; 0; 0; 0; 0; 0; 0; 0xff; 0xff; 1; 2; 3; 4]
  = (Fail (errors_Wrapf ErrUnsupportedExtensionType "extension_type(%d)" 0),
     [PackExtension
        (AddressSet.mk
           [[0; 0; 0; 0; 0; 0; 0; 0; 0; 0; 0xff; 0xff; 1; 2; 3; 4]])]).
Proof.
  apply (ExtensionList_UnmarshalBinary_mapped_address []
           [0; 0; 0; 0; 0; 0; 0; 0; 0; 0; 0xff; 0xff; 1; 2; 3; 4]
           [1; 2; 3; 4]);
    reflexivity.
Defined.

(** X17: with the registry of the package, the list codec gives back no
    list whose [Size()] is 2 or more. The encoding starts with [Size()] zero
    bytes, the decode reads the first two as the extension type 0, which has
    no generator, and fails with its receiver unchanged. *)
Theorem ExtensionList_roundtrip_rejected
    (exts receiver : ExtensionList.t) (data : bytes) :
  2 <= ExtensionList.Size exts ->
  ExtensionList.MarshalBinary exts = Done data ->
  ExtensionList.UnmarshalBinary package_registry receiver data
  = (Fail (errors_Wrapf ErrUnsupportedExtensionType "extension_type(%d)" 0),
     receiver).
Proof.
  intros Hsize. unfold ExtensionList.MarshalBinary, NewBuffer.
  rewrite (appends_ExtensionList_marshal_loop exts).
  destruct (fst (ExtensionList.marshal_loop exts [])) as [[] | err |];
    try discriminate.
  intros [= <-].
  destruct (Z.to_nat (ExtensionList.Size exts)) as [| [| n]] eqn:Hn;
    try lia.
  unfold make. cbn [repeat app].
  unfold ExtensionList.UnmarshalBinary.
  cbn [length ExtensionList.unmarshal_loop Nat.ltb Nat.leb].
  reflexivity.
Qed.

Lemma ExtensionList_roundtrip_rejected_witness :
  ExtensionList.UnmarshalBinary package_registry [] [0; 0; 0x10; 0x01]
  = (Fail (errors_Wrapf ErrUnsupportedExtensionType "extension_type(%d)" 0),
     []).
Proof.
  apply (ExtensionList_roundtrip_rejected [PackExtension AddressSet.new] []
           [0; 0; 0x10; 0x01]).
  - vm_compute. discriminate.
  - reflexivity.
Defined.

(** ** keys.go: the cipher suite list *)

(** The rounds of the read loop over the suites that are there, [n] more
    slots being left to fill. *)
Lemma read_suites_prefix
    (todo done : list CipherSuite) (n : nat) (k : Keys.t) (rest : bytes) :
  Forall (fun s => 0 <= s < 65536) todo ->
  Keys.read_suites (length todo + n) (length done)
    (Keys.set_CipherSuites (done ++ repeat 0 (length todo + n)) k,
     concat (map be16 todo) ++ rest)
  = Keys.read_suites n (length done + length todo)
      (Keys.set_CipherSuites (done ++ todo ++ repeat 0 n) k, rest).
Proof.
  intros Hall. revert done.
  induction Hall as [| s todo Hs _ IH]; intros done.
  - cbn [length Nat.add map concat app]. now rewrite Nat.add_0_r.
  - cbn [length Nat.add Keys.read_suites map concat repeat].
    rewrite <- app_assoc.
    erewrite bind_Done
      by (apply wrapf_Done, reading_Read_uint16, Hs).
    unfold bind at 1, Keys.get at 1. cbn [fst].
    unfold bind at 1, Keys.update at 1. cbn [fst snd].
    replace (Keys.set_CipherSuites _ (Keys.set_CipherSuites _ k))
      with (Keys.set_CipherSuites
              ((done ++ [s]) ++ repeat 0 (length todo + n)) k).
    2:{ destruct k. unfold Keys.set_CipherSuites.
        cbn [Keys.CipherSuites Keys.Version Keys.Checksum Keys.PublicName
             Keys.Keys Keys.PaddedLength Keys.NotBefore Keys.NotAfter
             Keys.Extensions].
        f_equal.
        rewrite <- (Nat.add_0_r (length done)) at 1.
        rewrite insert_app_r, <- app_assoc. reflexivity. }
    replace (S (length done)) with (length (done ++ [s]))
      by (rewrite length_app; cbn; lia).
    rewrite IH, <- !app_assoc, length_app. cbn [length app].
    f_equal. lia.
Qed.

(** X18: the cipher suite section round-trips. For at most 32767 suites,
    each a 16-bit value, the encode appends the byte count and the suites,
    2 bytes each, and the decode of those bytes replaces the suites of its
    receiver by the same list and leaves what follows unread. *)
Theorem CipherSuites_roundtrip
    (keys receiver : Keys.t) (buf : Buffer) (rest : bytes) :
  Forall (fun s => 0 <= s < 65536) (Keys.CipherSuites keys) ->
  len (Keys.CipherSuites keys) <= 32767 ->
  exists wire,
    Keys.marshalCipherSuites keys buf = (Done tt, buf ++ wire)
    /\ len wire = 2 + 2 * len (Keys.CipherSuites keys)
    /\ Keys.unmarshalCipherSuites (receiver, wire ++ rest)
       = (Done tt,
          (Keys.set_CipherSuites (Keys.CipherSuites keys) receiver, rest)).
Proof.
  intros Hall Hlen.
  assert (Hpos : 0 <= len (Keys.CipherSuites keys)) by (unfold len; lia).
  assert (Hu : uint16 (len (Keys.CipherSuites keys) * 2)
               = len (Keys.CipherSuites keys) * 2)
    by (apply Z.mod_small; lia).
  exists (be16 (len (Keys.CipherSuites keys) * 2)
          ++ concat (map be16 (Keys.CipherSuites keys))).
  split; [| split].
  - unfold Keys.marshalCipherSuites.
    unfold bind at 1, wrap at 1, Write_uint16, Write.
    rewrite Hu, write_suites_bytes, <- app_assoc. reflexivity.
  - unfold len. rewrite length_app. cbn [be16 length].
    assert (H2 : forall l : list CipherSuite,
               length (concat (map be16 l)) = (2 * length l)%nat).
    { induction l as [| s l IH]; cbn [map concat length]; [reflexivity |].
      rewrite length_app, IH. cbn [be16 length]. lia. }
    rewrite H2. lia.
  - unfold Keys.unmarshalCipherSuites. rewrite <- app_assoc.
    erewrite bind_Done
      by (apply wrap_Done, reading_Read_uint16; lia).
    rewrite Z.mod_mul, Z.div_mul by lia. cbn [Z.eqb negb].
    unfold bind at 1, Keys.update at 1. cbn [fst snd].
    replace (Z.to_nat (len (Keys.CipherSuites keys)))
      with (length (Keys.CipherSuites keys)) by (unfold len; lia).
    apply (read_suites_bytes (Keys.CipherSuites keys) [] receiver rest).
    exact Hall.
Qed.

Lemma CipherSuites_roundtrip_witness :
  exists wire,
    Keys.marshalCipherSuites record_one_key [0xff] = (Done tt, [0xff] ++ wire)
    /\ len wire = 2 + 2 * len (Keys.CipherSuites record_one_key)
    /\ Keys.unmarshalCipherSuites (Keys.new, wire ++ [1; 4])
       = (Done tt,
          (Keys.set_CipherSuites (Keys.CipherSuites record_one_key) Keys.new,
           [1; 4])).
Proof.
  apply (CipherSuites_roundtrip record_one_key Keys.new [0xff] [1; 4]).
  - repeat constructor; lia.
  - unfold len. cbn. lia.
Defined.

(** X19: a cipher suite list cut short. When the byte count announces
    more suites than follow, the decode fails at the first suite that is
    not whole, with the index of that suite in the error: [io.EOF] when no
    byte of it is left, [io.ErrUnexpectedEOF] when one is. The receiver is
    left with a list of the announced length, the suites read so far
    followed by zeros. *)
Theorem unmarshalCipherSuites_truncated
    (keys : Keys.t) (suites : list CipherSuite) (missing : nat)
    (tail : bytes) :
  Forall (fun s => 0 <= s < 65536) suites ->
  len suites + Z.of_nat (S missing) <= 32767 ->
  (length tail < 2)%nat ->
  Keys.unmarshalCipherSuites
    (keys,
     be16 ((len suites + Z.of_nat (S missing)) * 2)
     ++ concat (map be16 suites) ++ tail)
  = (Fail (errors_Wrapf
             (match tail with [] => io_EOF | _ => io_ErrUnexpectedEOF end)
             "read cipher suite %d" (len suites)),
     (Keys.set_CipherSuites (suites ++ repeat 0 (S missing)) keys, [])).
Proof.
  intros Hall Hlen Htail.
  assert (Hpos : 0 <= len suites) by (unfold len; lia).
  unfold Keys.unmarshalCipherSuites.
  erewrite bind_Done
    by (apply wrap_Done, reading_Read_uint16; lia).
  rewrite Z.mod_mul, Z.div_mul by lia. cbn [Z.eqb negb].
  unfold bind at 1, Keys.update at 1. cbn [fst snd].
  replace (Z.to_nat (len suites + Z.of_nat (S missing)))
    with (length suites + S missing)%nat by (unfold len; lia).
  pose proof (read_suites_prefix suites [] (S missing) keys tail Hall)
    as Hprefix.
  cbn [app length Nat.add] in Hprefix.
  refine (eq_trans Hprefix _). clear Hprefix.
  cbn [Keys.read_suites].
  unfold bind at 1, wrapf, Keys.reading, Read_uint16, bind, ReadFull.
  cbn [fst snd].
  destruct tail as [| b [| b' tail]]; [| | cbn in Htail; lia];
    cbn [length Nat.ltb Nat.leb]; unfold len; reflexivity.
Qed.

Lemma unmarshalCipherSuites_truncated_witness :
  Keys.unmarshalCipherSuites (Keys.new, [0; 6; 0x13; 0x01; 0x13])
  = (Fail (errors_Wrapf io_ErrUnexpectedEOF "read cipher suite %d" 1),
     (Keys.set_CipherSuites [0x1301; 0; 0] Keys.new, [])).
Proof.
  apply (unmarshalCipherSuites_truncated Keys.new [0x1301] 1 [0x13]).
  - repeat constructor; lia.
  - unfold len. cbn. lia.
  - cbn. lia.
Defined.

(** ** keys.go: the validity period *)

(** X20: the validity period round-trips on whole seconds. For times
    whose seconds fit in 64 bits signed, times before 1970 included, the
    encode appends 16 bytes and the decode of those bytes sets the two
    times of its receiver to the same seconds; the nanoseconds are not
    written and come back as zero. *)
Theorem ValidityPeriod_roundtrip
    (keys receiver : Keys.t) (buf : Buffer) (rest : bytes) :
  - 2 ^ 63 <= sec (Keys.NotBefore keys) < 2 ^ 63 ->
  - 2 ^ 63 <= sec (Keys.NotAfter keys) < 2 ^ 63 ->
  exists wire,
    Keys.marshalValidityPeriod keys buf = (Done tt, buf ++ wire)
    /\ length wire = 16%nat
    /\ Keys.unmarshalValidityPeriod (receiver, wire ++ rest)
       = (Done tt,
          (Keys.set_Validity (mkTime (sec (Keys.NotBefore keys)) 0)
             (mkTime (sec (Keys.NotAfter keys)) 0) receiver, rest)).
Proof.
  intros Hnb Hna.
  exists (be64 (uint64 (Time_Unix (Keys.NotBefore keys)))
          ++ be64 (uint64 (Time_Unix (Keys.NotAfter keys)))).
  split; [| split].
  - unfold Keys.marshalValidityPeriod, bind, wrap, Write_uint64, Write.
    now rewrite <- app_assoc.
  - reflexivity.
  - unfold Keys.unmarshalValidityPeriod. rewrite <- app_assoc.
    erewrite bind_Done.
    2:{ apply wrap_Done, reading_Read_uint64.
        unfold uint64. apply Z.mod_pos_bound. lia. }
    erewrite bind_Done.
    2:{ apply wrap_Done, reading_Read_uint64.
        unfold uint64. apply Z.mod_pos_bound. lia. }
    unfold Time_Unix. rewrite !int64_uint64 by assumption.
    reflexivity.
Qed.

Lemma ValidityPeriod_roundtrip_witness :
  exists wire,
    Keys.marshalValidityPeriod
      (Keys.set_Validity (mkTime (-1) 500) (mkTime 1577836800 0) Keys.new) []
    = (Done tt, [] ++ wire)
    /\ length wire = 16%nat
    /\ Keys.unmarshalValidityPeriod (Keys.new, wire ++ [0; 0])
       = (Done tt,
          (Keys.set_Validity (mkTime (-1) 0) (mkTime 1577836800 0) Keys.new,
           [0; 0])).
Proof.
  apply (ValidityPeriod_roundtrip
           (Keys.set_Validity (mkTime (-1) 500) (mkTime 1577836800 0)
              Keys.new)
           Keys.new [] [0; 0]); cbn; lia.
Defined.

(** ** keys.go: what the record encode refuses *)

(** X21: the two other refusals of the record encode. From draft 03 on a
    hostname of more than 255 bytes is refused, and whatever the version a
    record without key share is refused once its hostname has passed; each
    error names the section that failed. *)
Theorem Keys_MarshalBinary_refuses (keys : Keys.t) :
  (VersionDraft03 <= Keys.Version keys ->
   (255 < String.length (Keys.PublicName keys))%nat ->
   Keys.MarshalBinary keys
   = Fail (errors_Wrap (errors_New "public name is too large")
             "marshal public name"))
  /\ (hostname_fits keys ->
      Keys.Keys keys = [] ->
      Keys.MarshalBinary keys
      = Fail (errors_Wrap (errors_New "key share list is empty")
                "marshal key share list")).
Proof.
  split.
  - intros Hv Hlong.
    unfold Keys.MarshalBinary, Keys.marshal_sections.
    unfold bind at 1, wrap at 1, Write_uint16 at 1, Write at 1.
    unfold bind at 1, wrap at 1, Write at 1.
    unfold bind at 1, wrap at 1, Keys.marshalPublicName.
    replace (Keys.Version keys <? VersionDraft03) with false
      by (symmetry; apply Z.ltb_ge; exact Hv).
    replace ((String.length (Keys.PublicName keys) =? 0)%nat) with false
      by (symmetry; apply Nat.eqb_neq; lia).
    replace ((255 <? String.length (Keys.PublicName keys))%nat) with true
      by (symmetry; apply Nat.ltb_lt; exact Hlong).
    reflexivity.
  - intros Hfit Hempty.
    unfold Keys.MarshalBinary, Keys.marshal_sections.
    unfold bind at 1, wrap at 1, Write_uint16 at 1, Write at 1.
    unfold bind at 1, wrap at 1, Write at 1.
    unfold bind at 1, wrap at 1.
    assert (Hname : exists name, forall buf,
              Keys.marshalPublicName keys buf = (Done tt, buf ++ name)).
    { unfold Keys.marshalPublicName, hostname_fits in *.
      destruct (Z.ltb_spec (Keys.Version keys) VersionDraft03) as [Hlt | Hge].
      - exists []. intros buf. unfold ret. now rewrite app_nil_r.
      - specialize (Hfit Hge).
        replace ((String.length (Keys.PublicName keys) =? 0)%nat) with false
          by (symmetry; apply Nat.eqb_neq; lia).
        replace ((255 <? String.length (Keys.PublicName keys))%nat)
          with false by (symmetry; apply Nat.ltb_ge; lia).
        eexists. intros buf.
        unfold bind, wrap, WriteByte, WriteString, Write.
        rewrite <- app_assoc. reflexivity. }
    destruct Hname as [name Hname]. rewrite Hname.
    unfold bind at 1, wrap at 1, Keys.marshalKeyShareList.
    rewrite Hempty. reflexivity.
Qed.

Lemma Keys_MarshalBinary_refuses_witness :
  Keys.MarshalBinary (Keys.set_Keys [] record_one_key)
  = Fail (errors_Wrap (errors_New "key share list is empty")
            "marshal key share list").
Proof.
  apply (proj2 (Keys_MarshalBinary_refuses (Keys.set_Keys [] record_one_key))).
  - intros _. cbn. lia.
  - reflexivity.
Defined.

(** ** keys.go: the hostname section on decode *)

(** X22: a hostname cut short by the end of the input is not refused. From
    draft 03 on, when the length byte announces more bytes than are left,
    and at least one is left, the decode succeeds and the hostname is what
    was left followed by NUL characters up to the announced length. *)
Theorem unmarshalPublicName_short_read
    (keys : Keys.t) (n : Z) (part : bytes) :
  VersionDraft03 <= Keys.Version keys ->
  (0 < length part)%nat ->
  len part < n ->
  Keys.unmarshalPublicName (keys, n :: part)
  = (Done tt,
     (Keys.set_PublicName
        (string_of_bytes (part ++ repeat 0 (Z.to_nat n - length part)))
        keys, [])).
Proof.
  intros Hv Hpart Hn.
  unfold Keys.unmarshalPublicName.
  unfold bind at 1, Keys.get at 1. cbn [fst].
  replace (Keys.Version keys <? VersionDraft03) with false
    by (symmetry; apply Z.ltb_ge; exact Hv).
  erewrite bind_Done by (apply wrap_Done, reading_ReadByte).
  replace (n =? 0) with false
    by (symmetry; apply Z.eqb_neq; unfold len in Hn; lia).
  unfold bind, Keys.reading, Read, Keys.update. cbn [fst snd].
  destruct part as [| b part]; [cbn in Hpart; lia |].
  rewrite copy_make by (unfold len in Hn; lia).
  rewrite skipn_all2 by (unfold len in Hn; lia).
  reflexivity.
Qed.

Lemma unmarshalPublicName_short_read_witness :
  Keys.unmarshalPublicName
    (Keys.set_Version VersionDraft03 Keys.new, [5; 97; 98])
  = (Done tt,
     (Keys.set_PublicName (string_of_bytes [97; 98; 0; 0; 0])
        (Keys.set_Version VersionDraft03 Keys.new), [])).
Proof.
  apply (unmarshalPublicName_short_read
           (Keys.set_Version VersionDraft03 Keys.new) 5 [97; 98]).
  - cbn. lia.
  - cbn. lia.
  - unfold len. cbn. lia.
Defined.

(** X23: the hostname section and the version. Before draft 03 the decode
    reads nothing and leaves the hostname of its receiver as it was. From
    draft 03 on it fails on an exhausted input with [io.EOF] behind "read
    length", on a zero length byte with the error for an empty name, and
    on a length byte with nothing after it with a bare [io.EOF]. *)
Theorem unmarshalPublicName_edges (keys : Keys.t) (rest : bytes) (n : Z) :
  (Keys.Version keys < VersionDraft03 ->
   Keys.unmarshalPublicName (keys, rest) = (Done tt, (keys, rest)))
  /\ (VersionDraft03 <= Keys.Version keys ->
      Keys.unmarshalPublicName (keys, [])
      = (Fail (errors_Wrap io_EOF "read length"), (keys, []))
      /\ Keys.unmarshalPublicName (keys, 0 :: rest)
         = (Fail (errors_New "public name is empty"), (keys, rest))
      /\ (n <> 0 ->
          Keys.unmarshalPublicName (keys, [n]) = (Fail io_EOF, (keys, [])))).
Proof.
  split.
  - intros Hv. unfold Keys.unmarshalPublicName.
    unfold bind at 1, Keys.get at 1. cbn [fst].
    replace (Keys.Version keys <? VersionDraft03) with true
      by (symmetry; apply Z.ltb_lt; exact Hv).
    reflexivity.
  - intros Hv.
    assert (Hstep : forall reader,
              Keys.unmarshalPublicName (keys, reader)
              = (nameLength <- wrap "read length" (Keys.reading ReadByte) ;;
                 if nameLength =? 0
                 then fail (errors_New "public name is empty")
                 else
                   name <- Keys.reading (Read (Z.to_nat nameLength)) ;;
                   Keys.update (Keys.set_PublicName (string_of_bytes name)))%go
                  (keys, reader)).
    { intros reader. unfold Keys.unmarshalPublicName.
      unfold bind at 1, Keys.get at 1. cbn [fst].
      replace (Keys.Version keys <? VersionDraft03) with false
        by (symmetry; apply Z.ltb_ge; exact Hv).
      reflexivity. }
    rewrite !Hstep.
    split; [reflexivity |]. split; [reflexivity |].
    intros Hn.
    erewrite bind_Done by (apply wrap_Done, reading_ReadByte).
    replace (n =? 0) with false by (symmetry; apply Z.eqb_neq; exact Hn).
    reflexivity.
Qed.

Lemma unmarshalPublicName_edges_witness :
  Keys.unmarshalPublicName
    (Keys.set_PublicName "old.example" Keys.new, [3; 97; 98; 99])
  = (Done tt,
     (Keys.set_PublicName "old.example" Keys.new, [3; 97; 98; 99])).
Proof.
  apply (proj1 (unmarshalPublicName_edges
                  (Keys.set_PublicName "old.example" Keys.new)
                  [3; 97; 98; 99] 0)).
  cbn. unfold VersionDraft03. lia.
Defined.

(** ** keys.go: the key share section on decode *)

(** X24: how the key share section fails before any entry is read: on
    an exhausted input, on a lone byte where the 2-byte length should be,
    on a zero length, and on a length with nothing after it. The key shares
    of the receiver are untouched in all four cases. *)
Theorem unmarshalKeyShareList_edges
    (keys : Keys.t) (b : byte) (n : Z) (rest : bytes) :
  Keys.unmarshalKeyShareList (keys, [])
  = (Fail (errors_Wrap io_EOF "read key share list size"), (keys, []))
  /\ Keys.unmarshalKeyShareList (keys, [b])
     = (Fail (errors_Wrap io_ErrUnexpectedEOF "read key share list size"),
        (keys, []))
  /\ Keys.unmarshalKeyShareList (keys, be16 0 ++ rest)
     = (Fail (errors_New "key share list is empty"), (keys, rest))
  /\ (0 < n < 65536 ->
      Keys.unmarshalKeyShareList (keys, be16 n)
      = (Fail (errors_Wrap io_EOF "read key share list"), (keys, []))).
Proof.
  split; [reflexivity |]. split; [reflexivity |]. split; [reflexivity |].
  intros Hn. unfold Keys.unmarshalKeyShareList.
  rewrite <- (app_nil_r (be16 n)).
  erewrite bind_Done by (apply wrap_Done, reading_Read_uint16; lia).
  replace (n =? 0) with false by (symmetry; apply Z.eqb_neq; lia).
  reflexivity.
Qed.

Lemma unmarshalKeyShareList_edges_witness :
  Keys.unmarshalKeyShareList (record_one_key, be16 6)
  = (Fail (errors_Wrap io_EOF "read key share list"), (record_one_key, [])).
Proof.
  apply (proj2 (proj2 (proj2 (unmarshalKeyShareList_edges record_one_key
                                0 6 [])))).
  lia.
Defined.

(** ** keys.go: the checksum *)

Lemma bytes_eqb_eq (a b : bytes) : bytes_eqb a b = true -> a = b.
Proof.
  revert b. induction a as [| x a IH]; intros [| y b]; cbn [bytes_eqb];
    try discriminate; [reflexivity |].
  intros H. apply andb_prop in H. destruct H as [Hxy Hab].
  apply Z.eqb_eq in Hxy. subst y. now rewrite (IH b Hab).
Qed.

(** X25: the checksum the encode stores is the one the decode checks, and
    any other is refused. In the output of the encode, bytes 2 to 5 are the
    first four bytes of the SHA-256 digest of the output with those bytes
    set to zero, whatever the checksum field of the record held: the encode
    does not read it. When they are replaced by four other bytes the decode
    returns the checksum error; by then it has stored the version and the
    received checksum in its receiver and zeroed bytes 2 to 5 of the input,
    and it has parsed nothing else. *)
Theorem Keys_checksum_guard
    (reg : Registry) (r receiver : Keys.t) (wire c : bytes) :
  Keys.MarshalBinary r = Done wire ->
  0 <= Keys.Version r < 65536 ->
  length (Keys.Checksum receiver) = 4%nat ->
  length c = 4%nat ->
  firstn 4 (skipn 2 wire)
  = firstn 4 (SHA256.Sum256 (fst (copy_at wire 2 [0; 0; 0; 0])))
  /\ (forall stored,
      Keys.MarshalBinary (Keys.set_Checksum stored r) = Done wire)
  /\ (c <> firstn 4 (skipn 2 wire) ->
      Keys.UnmarshalBinary reg receiver (fst (copy_at wire 2 c))
      = (Fail ErrChecksumMismatch,
         Keys.set_Checksum c (Keys.set_Version (Keys.Version r) receiver),
         fst (copy_at wire 2 [0; 0; 0; 0]))).
Proof.
  intros Hm Hv Hk Hc.
  assert (Hstored : forall stored,
            Keys.MarshalBinary (Keys.set_Checksum stored r) = Done wire)
    by (intros stored; rewrite <- Hm; now destruct r).
  revert Hstored.
  destruct (MarshalBinary_layout r wire Hm)
    as (listData & tail & sum & _ & _ & Hsum & ->).
  destruct sum as [| s0 [| s1 [| s2 [| s3 sum]]]];
    try (apply (f_equal (@length byte)) in Hsum;
         rewrite Sum256_length in Hsum; discriminate Hsum).
  change (firstn 4 (s0 :: s1 :: s2 :: s3 :: sum)) with [s0; s1; s2; s3].
  destruct c as [| c0 [| c1 [| c2 [| c3 [| ? ?]]]]]; try discriminate Hc.
  destruct receiver as [v0 sum0 name0 keys0 suites0 padded0 nb0 na0 exts0].
  cbn [Keys.Checksum] in Hk.
  destruct sum0 as [| k0 [| k1 [| k2 [| k3 [| ? ?]]]]]; try discriminate Hk.
  cbn [be16 app] in *.
  rewrite !store_checksum.
  change (skipn 2 (?a :: ?b :: ?l)) with l.
  change (firstn 4 (?a :: ?b :: ?c :: ?d :: ?l)) with [a; b; c; d].
  match goal with
  | |- context [SHA256.Sum256 ?m] =>
      replace (SHA256.Sum256 m) with (s0 :: s1 :: s2 :: s3 :: sum)
  end.
  change (firstn 4 (s0 :: s1 :: s2 :: s3 :: sum)) with [s0; s1; s2; s3].
  intros Hstored. split; [reflexivity |]. split; [exact Hstored |].
  intros Hne. unfold Keys.UnmarshalBinary. cbn [Uint16].
  rewrite be16_value by exact Hv.
  rewrite store_checksum.
  change (skipn 2 (?a :: ?b :: ?l)) with l.
  match goal with
  | |- context [SHA256.Sum256 ?m] =>
      replace (SHA256.Sum256 m) with (s0 :: s1 :: s2 :: s3 :: sum)
  end.
  change (firstn 4 (s0 :: s1 :: s2 :: s3 :: sum)) with [s0; s1; s2; s3].
  cbn [Keys.set_Version Keys.set_Checksum Keys.Checksum Keys.Version
       Keys.PublicName Keys.Keys Keys.CipherSuites Keys.PaddedLength
       Keys.NotBefore Keys.NotAfter Keys.Extensions].
  replace (fst (copy [k0; k1; k2; k3] (c0 :: c1 :: c2 :: c3 :: _)))
    with [c0; c1; c2; c3] by reflexivity.
  destruct (bytes_eqb [c0; c1; c2; c3] [s0; s1; s2; s3]) eqn:E.
  - apply bytes_eqb_eq in E. contradiction.
  - reflexivity.
Qed.

Lemma Keys_checksum_guard_witness :
  firstn 4 (skipn 2 wire_one_key)
  = firstn 4 (SHA256.Sum256 (fst (copy_at wire_one_key 2 [0; 0; 0; 0])))
  /\ Keys.MarshalBinary (Keys.set_Checksum [9; 9; 9; 9] record_one_key)
     = Done wire_one_key
  /\ Keys.UnmarshalBinary package_registry Keys.new
       (fst (copy_at wire_one_key 2 [1; 2; 3; 4]))
     = (Fail ErrChecksumMismatch,
        Keys.set_Checksum [1; 2; 3; 4]
          (Keys.set_Version (Keys.Version record_one_key) Keys.new),
        fst (copy_at wire_one_key 2 [0; 0; 0; 0])).
Proof.
  assert (Hm : Keys.MarshalBinary record_one_key = Done wire_one_key)
    by (vm_compute; reflexivity).
  assert (Hv : 0 <= Keys.Version record_one_key < 65536)
    by (cbn; unfold VersionDraft03; lia).
  destruct (Keys_checksum_guard package_registry record_one_key Keys.new
              wire_one_key [1; 2; 3; 4] Hm Hv eq_refl eq_refl)
    as (Hsum & Hstored & Hguard).
  split; [exact Hsum |]. split; [exact (Hstored [9; 9; 9; 9]) |].
  apply Hguard. vm_compute. discriminate.
Defined.

(** ** keys.go: decoding into a record that is already filled *)



